(** * Flow queues and the ERF file reader of suricata-tilera

    A shallow embedding of [src/flow-queue.c] (the lock-protected,
    intrusive, doubly-linked flow queue) and of the record reader of
    [src/source-erf-file.c], with the properties of the specification
    stated and proved over it.

    Pointers are optional locations ([None] is [NULL]); the heap of [Flow]
    records and the heap of [FlowQueue] structures are finite maps, so that
    aliasing between queues and between records is the aliasing of the C
    program.  Every function is a computation over that memory which either
    finishes, runs into undefined behaviour, or ends the process. *)

From Stdlib Require Import ZArith Lia Strings.Byte.
From stdpp Require Import base option list gmap.

(** ** Machine integers *)

Definition wrap (w x : Z) : Z := (x mod 2 ^ w)%Z.
Definition wrap8 : Z -> Z := wrap 8.
Definition wrap16 : Z -> Z := wrap 16.
Definition wrap32 : Z -> Z := wrap 32.
Definition wrap64 : Z -> Z := wrap 64.

(** ** Memory *)

Definition loc := positive.

(** A C pointer: [None] is [NULL]. *)
Abbreviation ptr := (option loc).

(** Modelled from the spec: [struct Flow_] (flow.h is not among the
    sources), "opaque payload plus two link fields", of which the queue
    code touches the links only, [lprev] and [lnext]. *)
Record Flow := mkFlow { lprev : ptr; lnext : ptr }.

(** State of a [SCMutex] as the calling thread sees it: raw storage (never
    initialised, or destroyed), initialised and not held, held by the
    caller. *)
Inductive mutex_state := MutexRaw | MutexFree | MutexHeld.

Inductive cond_state := CondRaw | CondReady.

(** Modelled from the spec: [struct FlowQueue_] (flow-queue.h is not among
    the sources): [top], [bot], the length, the lock, the wait primitive
    and the counter of the greatest length seen.  The two counters are
    unsigned C integers, taken 32 bits wide; [dbg_maxlen] is written only
    in a [DBG_PERF] build. *)
Record FlowQueue := mkFlowQueue {
  top : ptr;
  bot : ptr;
  len : Z;
  dbg_maxlen : Z;
  mutex_q : mutex_state;
  cond_q : cond_state
}.

(** What a thread does to the synchronisation primitives of a queue. *)
Inductive event :=
  | EvLock (q : loc)
  | EvUnlock (q : loc)
  | EvCondWait (q : loc).

Record mem := mkMem {
  flows : gmap loc Flow;
  queues : gmap loc FlowQueue;
  trace : list event
}.

Global Instance Flow_eq_dec : EqDecision Flow.
Proof. solve_decision. Defined.
Global Instance mutex_state_eq_dec : EqDecision mutex_state.
Proof. solve_decision. Defined.
Global Instance cond_state_eq_dec : EqDecision cond_state.
Proof. solve_decision. Defined.
Global Instance event_eq_dec : EqDecision event.
Proof. solve_decision. Defined.

(** ** Computations *)

(** A call finishes with a value and a memory, has undefined behaviour
    (a null or dangling dereference, a mutex used against its protocol),
    leaves through [exit], or aborts on a failed [BUG_ON]. *)
Inductive outcome (A : Type) :=
  | Done (a : A) (m : mem)
  | Fault
  | Exit (code : Z)
  | Abort.
Arguments Done {A} a m.
Arguments Fault {A}.
Arguments Exit {A} code.
Arguments Abort {A}.

Definition M (A : Type) : Type := mem -> outcome A.

Definition ret {A} (a : A) : M A := fun m => Done a m.

Definition bind {A B} (c : M A) (k : A -> M B) : M B :=
  fun m =>
    match c m with
    | Done a m' => k a m'
    | Fault => Fault
    | Exit code => Exit code
    | Abort => Abort
    end.

Notation "x <- c ;; k" := (bind c (fun x => k))
  (at level 100, c at next level, right associativity).
Notation "c ;;; k" := (bind c (fun _ => k))
  (at level 100, right associativity).

Definition when (b : bool) (c : M unit) : M unit := if b then c else ret tt.

Definition fault {A} : M A := fun _ => Fault.
Definition exit {A} (code : Z) : M A := fun _ => Exit code.
Definition EXIT_SUCCESS : Z := 0.

Definition emit (e : event) : M unit :=
  fun m => Done tt (mkMem (flows m) (queues m) (trace m ++ [e])).

(** Loads and stores through a pointer; [NULL] and unallocated addresses
    are undefined behaviour. *)
Definition load_flow (f : ptr) : M Flow :=
  fun m =>
    match f with
    | Some a => match flows m !! a with Some v => Done v m | None => Fault end
    | None => Fault
    end.

Definition store_flow (f : ptr) (v : Flow) : M unit :=
  fun m =>
    match f with
    | Some a =>
        match flows m !! a with
        | Some _ => Done tt (mkMem (<[a := v]> (flows m)) (queues m) (trace m))
        | None => Fault
        end
    | None => Fault
    end.

Definition load_queue (q : ptr) : M FlowQueue :=
  fun m =>
    match q with
    | Some a => match queues m !! a with Some v => Done v m | None => Fault end
    | None => Fault
    end.

Definition store_queue (q : ptr) (v : FlowQueue) : M unit :=
  fun m =>
    match q with
    | Some a =>
        match queues m !! a with
        | Some _ => Done tt (mkMem (flows m) (<[a := v]> (queues m)) (trace m))
        | None => Fault
        end
    | None => Fault
    end.

(** Field accesses [f->lprev], [f->lnext], [q->top], ... *)
Definition get_lprev (f : ptr) : M ptr := v <- load_flow f;; ret (lprev v).
Definition get_lnext (f : ptr) : M ptr := v <- load_flow f;; ret (lnext v).
Definition set_lprev (f x : ptr) : M unit :=
  v <- load_flow f;; store_flow f (mkFlow x (lnext v)).
Definition set_lnext (f x : ptr) : M unit :=
  v <- load_flow f;; store_flow f (mkFlow (lprev v) x).

Definition get_top (q : ptr) : M ptr := v <- load_queue q;; ret (top v).
Definition get_bot (q : ptr) : M ptr := v <- load_queue q;; ret (bot v).
Definition get_len (q : ptr) : M Z := v <- load_queue q;; ret (len v).
Definition get_dbg_maxlen (q : ptr) : M Z :=
  v <- load_queue q;; ret (dbg_maxlen v).
Definition set_top (q x : ptr) : M unit :=
  v <- load_queue q;;
  store_queue q (mkFlowQueue x (bot v) (len v) (dbg_maxlen v) (mutex_q v) (cond_q v)).
Definition set_bot (q x : ptr) : M unit :=
  v <- load_queue q;;
  store_queue q (mkFlowQueue (top v) x (len v) (dbg_maxlen v) (mutex_q v) (cond_q v)).
Definition set_len (q : ptr) (x : Z) : M unit :=
  v <- load_queue q;;
  store_queue q (mkFlowQueue (top v) (bot v) x (dbg_maxlen v) (mutex_q v) (cond_q v)).
Definition set_dbg_maxlen (q : ptr) (x : Z) : M unit :=
  v <- load_queue q;;
  store_queue q (mkFlowQueue (top v) (bot v) (len v) x (mutex_q v) (cond_q v)).
Definition set_mutex_q (q : ptr) (x : mutex_state) : M unit :=
  v <- load_queue q;;
  store_queue q (mkFlowQueue (top v) (bot v) (len v) (dbg_maxlen v) x (cond_q v)).
Definition set_cond_q (q : ptr) (x : cond_state) : M unit :=
  v <- load_queue q;;
  store_queue q (mkFlowQueue (top v) (bot v) (len v) (dbg_maxlen v) (mutex_q v) x).

(** ** Threads API on the queue's mutex and condition

    Modelled from the spec: the macros of threads.h (not among the
    sources), a plain mutual-exclusion lock that is not reentrant and a
    condition to wait on.  [SCMutexLock] on a mutex the caller already
    holds never returns and [SCMutexUnlock] on a mutex the caller does not
    hold is undefined: both are [Fault] here, as are initialising storage
    that is not raw and destroying a primitive that is not at rest. *)
Definition SCMutexInit (q : ptr) : M unit :=
  v <- load_queue q;;
  match mutex_q v with
  | MutexRaw => set_mutex_q q MutexFree
  | _ => fault
  end.

Definition SCCondInit (q : ptr) : M unit :=
  v <- load_queue q;;
  match cond_q v with
  | CondRaw => set_cond_q q CondReady
  | _ => fault
  end.

Definition SCMutexDestroy (q : ptr) : M unit :=
  v <- load_queue q;;
  match mutex_q v with
  | MutexFree => set_mutex_q q MutexRaw
  | _ => fault
  end.

Definition SCCondDestroy (q : ptr) : M unit :=
  v <- load_queue q;;
  match cond_q v with
  | CondReady => set_cond_q q CondRaw
  | _ => fault
  end.

Definition SCMutexLock (q : ptr) : M unit :=
  v <- load_queue q;;
  match mutex_q v, q with
  | MutexFree, Some a => set_mutex_q q MutexHeld;;; emit (EvLock a)
  | _, _ => fault
  end.

Definition SCMutexUnlock (q : ptr) : M unit :=
  v <- load_queue q;;
  match mutex_q v, q with
  | MutexHeld, Some a => set_mutex_q q MutexFree;;; emit (EvUnlock a)
  | _, _ => fault
  end.

(** Modelled from the spec: the Tilera spin mutex of a [__tile__] build
    (a lock like the other): initialising it has no precondition on the
    storage; taking and releasing it follow the protocol of [SCMutex]. *)
Definition tmc_spin_queued_mutex_init (q : ptr) : M unit :=
  set_mutex_q q MutexFree.
Definition tmc_spin_queued_mutex_lock (q : ptr) : M unit := SCMutexLock q.
Definition tmc_spin_queued_mutex_unlock (q : ptr) : M unit := SCMutexUnlock q.

(** ** Build configuration: the three preprocessor switches of the file *)
Record build := mkBuild {
  tile : bool;      (* __tile__ *)
  debug : bool;     (* DEBUG *)
  dbg_perf : bool   (* DBG_PERF *)
}.

(** [memset(q, 0, sizeof(FlowQueue))]: every field is zero, the mutex and
    the condition are raw storage. *)
Definition zero_queue : FlowQueue :=
  mkFlowQueue None None 0 0 MutexRaw CondRaw.

(** Modelled from the spec: [SCMalloc(sizeof(FlowQueue))] (util-mem.h is
    not among the sources), an allocation that can fail: [ok] says whether
    the allocator finds memory, [raw] is what the fresh block happens to
    hold. *)
Definition SCMalloc (ok : bool) (raw : FlowQueue) : M ptr :=
  fun m =>
    if ok then
      let a := fresh (dom (queues m)) in
      Done (Some a) (mkMem (flows m) (<[a := raw]> (queues m)) (trace m))
    else Done None m.

Section FlowQueueCode.
Context (cfg : build).

Definition FlowQueueInit (q : ptr) : M ptr :=
  match q with
  | Some _ =>
      store_queue q zero_queue;;;
      (if tile cfg
       then tmc_spin_queued_mutex_init q;;; set_cond_q q CondReady
       else SCMutexInit q;;; SCCondInit q);;;
      ret q
  | None => ret q
  end.

Definition FlowQueueNew (ok : bool) (raw : FlowQueue) : M ptr :=
  q <- SCMalloc ok raw;;
  match q with
  | None => exit EXIT_SUCCESS
  | Some _ => q' <- FlowQueueInit q;; ret q'
  end.

Definition FlowQueueDestroy (q : ptr) : M unit :=
  if tile cfg then ret tt
  else SCMutexDestroy q;;; SCCondDestroy q.

(** The [#ifdef __tile__] choice around every lock and unlock. *)
Definition lock_mutex_q (q : ptr) : M unit :=
  if tile cfg then tmc_spin_queued_mutex_lock q else SCMutexLock q.
Definition unlock_mutex_q (q : ptr) : M unit :=
  if tile cfg then tmc_spin_queued_mutex_unlock q else SCMutexUnlock q.

(** [q->len > q->dbg_maxlen] then [q->dbg_maxlen = q->len]. *)
Definition track_maxlen (q : ptr) : M unit :=
  when (dbg_perf cfg)
    (l <- get_len q;;
     mx <- get_dbg_maxlen q;;
     when (mx <? l)%Z (l' <- get_len q;; set_dbg_maxlen q l')).

Definition FlowEnqueue (q f : ptr) : M unit :=
  t <- get_top q;;
  match t with
  | Some _ =>
      (* more packets in queue *)
      t1 <- get_top q;;
      set_lnext f t1;;;
      t2 <- get_top q;;
      set_lprev t2 f;;;
      set_top q f
  | None =>
      (* only packet *)
      set_top q f;;;
      set_bot q f
  end;;;
  l <- get_len q;;
  set_len q (wrap32 (l + 1));;;
  track_maxlen q.

Definition FlowDequeue (q : ptr) : M ptr :=
  lock_mutex_q q;;;
  f <- get_bot q;;
  match f with
  | None =>
      unlock_mutex_q q;;;
      ret None
  | Some _ =>
      b <- get_bot q;;
      bp <- get_lprev b;;
      match bp with
      | Some _ =>
          (* more packets in queue *)
          b1 <- get_bot q;;
          bp1 <- get_lprev b1;;
          set_bot q bp1;;;
          b2 <- get_bot q;;
          set_lnext b2 None
      | None =>
          (* just the one we remove, so now empty *)
          set_top q None;;;
          set_bot q None
      end;;;
      l <- get_len q;;
      set_len q (wrap32 (l - 1));;;
      set_lnext f None;;;
      set_lprev f None;;;
      unlock_mutex_q q;;;
      ret f
  end.

(** The block under "remove from old queue". *)
Definition requeue_remove (f srcq : ptr) : M unit :=
  t <- get_top srcq;;
  when (bool_decide (t = f))
    (n <- get_lnext f;; set_top srcq n);;;
  b <- get_bot srcq;;
  when (bool_decide (b = f))
    (p <- get_lprev f;; set_bot srcq p);;;
  p <- get_lprev f;;
  when (bool_decide (p ≠ None))
    (p1 <- get_lprev f;; n1 <- get_lnext f;; set_lnext p1 n1);;;
  n <- get_lnext f;;
  when (bool_decide (n ≠ None))
    (n2 <- get_lnext f;; p2 <- get_lprev f;; set_lprev n2 p2);;;
  l <- get_len srcq;;
  set_len srcq (wrap32 (l - 1));;;
  set_lnext f None;;;
  set_lprev f None.

(** The block under "add to new queue (append)". *)
Definition requeue_append (f dstq : ptr) : M unit :=
  b <- get_bot dstq;;
  set_lprev f b;;;
  p <- get_lprev f;;
  when (bool_decide (p ≠ None))
    (p1 <- get_lprev f;; set_lnext p1 f);;;
  set_lnext f None;;;
  set_bot dstq f;;;
  t <- get_top dstq;;
  when (bool_decide (t = None)) (set_top dstq f);;;
  l <- get_len dstq;;
  set_len dstq (wrap32 (l + 1));;;
  track_maxlen dstq.

(** Modelled from the spec: [BUG_ON] (not among the sources), the
    assertion of a debug build, which aborts when its condition holds. *)
Definition BUG_ON (c : bool) : M unit :=
  fun m => if c then Abort else Done tt m.

Definition FlowRequeue (f srcq dstq : ptr) (need_srclock : Z) : M unit :=
  when (debug cfg) (BUG_ON (bool_decide (dstq = None)));;;
  match srcq with
  | Some _ =>
      when (need_srclock =? 1)%Z (lock_mutex_q srcq);;;
      requeue_remove f srcq;;;
      (* don't unlock if src and dst are the same *)
      when (bool_decide (srcq ≠ dstq) && (need_srclock =? 1)%Z)
        (unlock_mutex_q srcq)
  | None => ret tt
  end;;;
  (* now put it in dst *)
  when (bool_decide (srcq ≠ dstq)) (lock_mutex_q dstq);;;
  requeue_append f dstq;;;
  unlock_mutex_q dstq.

End FlowQueueCode.

(** ** Queues as sequences of records

    A queue holds its records from [top] (the newest, the head) to [bot]
    (the oldest, the tail): [lnext] leads toward [bot], [lprev] toward
    [top]. *)

Definition first_of (l : list loc) (nxt : ptr) : ptr :=
  match l with
  | [] => nxt
  | x :: _ => Some x
  end.

Definition last_of (prv : ptr) (l : list loc) : ptr :=
  match last l with
  | Some x => Some x
  | None => prv
  end.

(** [dll fl prv l nxt]: the records of [l] are linked to each other in
    both directions, the first one back to [prv] and the last one on to
    [nxt]. *)
Fixpoint dll (fl : gmap loc Flow) (prv : ptr) (l : list loc) (nxt : ptr) : Prop :=
  match l with
  | [] => True
  | x :: l' =>
      fl !! x = Some (mkFlow prv (first_of l' nxt)) ∧ dll fl (Some x) l' nxt
  end.

(** The queue structure [qv] holds exactly the records [l], in order. *)
Record queue_rep (fl : gmap loc Flow) (qv : FlowQueue) (l : list loc) : Prop :=
  mkQueueRep {
    rep_dll : dll fl None l None;
    rep_nodup : NoDup l;
    rep_top : top qv = head l;
    rep_bot : bot qv = last l;
    rep_len : len qv = wrap32 (Z.of_nat (length l))
  }.

(** Record [f] is a member of no queue of [L]. *)
Definition unowned (L : gmap loc (list loc)) (f : loc) : Prop :=
  ∀ q l, L !! q = Some l → f ∉ l.

(** The memory [m] holds the queues of [L], each with its records, and no
    record is in two queues. *)
Record state_rep (m : mem) (L : gmap loc (list loc)) : Prop :=
  mkStateRep {
    rep_queues : ∀ q qv, queues m !! q = Some qv →
                 ∃ l, L !! q = Some l ∧ queue_rep (flows m) qv l;
    rep_dom : ∀ q l, L !! q = Some l → is_Some (queues m !! q);
    rep_disjoint : ∀ q1 q2 l1 l2, q1 ≠ q2 →
                   L !! q1 = Some l1 → L !! q2 = Some l2 → l1 ## l2
  }.

(** The synchronisation fields of every queue, apart from its list. *)
Definition sync_of (qv : FlowQueue) : mutex_state * cond_state :=
  (mutex_q qv, cond_q qv).
Definition syncs (m : mem) : gmap loc (mutex_state * cond_state) :=
  sync_of <$> queues m.
Definition mutex_of (m : mem) (q : loc) : option mutex_state :=
  mutex_q <$> queues m !! q.

(** *** The invariants as the specification words them *)

(** The records met from [p] by following [step] until [NULL]; [None] when
    the walk leaves the heap or does not end within [fuel] records. *)
Fixpoint reach (step : Flow → ptr) (fuel : nat) (fl : gmap loc Flow) (p : ptr)
  : option (list loc) :=
  match p with
  | None => Some []
  | Some a =>
      match fuel with
      | O => None
      | S k =>
          match fl !! a with
          | Some v => cons a <$> reach step k fl (step v)
          | None => None
          end
      end
  end.

Definition count_reach (step : Flow → ptr) (fuel : nat) (fl : gmap loc Flow)
  (p : ptr) : option Z :=
  (λ l, Z.of_nat (length l)) <$> reach step fuel fl p.

Record queue_inv (fl : gmap loc Flow) (qv : FlowQueue) : Prop := mkQueueInv {
  inv_top_bot : top qv = None ↔ bot qv = None;
  inv_bot_len : bot qv = None ↔ len qv = 0%Z;
  inv_top_prev : ∀ t, top qv = Some t → lprev <$> fl !! t = Some None;
  inv_bot_next : ∀ b, bot qv = Some b → lnext <$> fl !! b = Some None;
  inv_len_next : ∃ fuel, count_reach lnext fuel fl (top qv) = Some (len qv);
  inv_len_prev : ∃ fuel, count_reach lprev fuel fl (bot qv) = Some (len qv)
}.

(** No queue holds so many records that its 32-bit [len] has wrapped. *)
Definition bounded (L : gmap loc (list loc)) : Prop :=
  ∀ q l, L !! q = Some l → (Z.of_nat (length l) < 2 ^ 32)%Z.

(** *** The three operations on queues *)

Inductive op :=
  | Insert (q f : loc)
  | PollRemove (q : loc)
  | Transfer (f : loc) (srcq : ptr) (dstq : loc) (need_srclock : Z).

Definition run_op (cfg : build) (o : op) : M ptr :=
  match o with
  | Insert q f => FlowEnqueue cfg (Some q) (Some f);;; ret None
  | PollRemove q => FlowDequeue cfg (Some q)
  | Transfer f srcq dstq need_srclock =>
      FlowRequeue cfg (Some f) srcq (Some dstq) need_srclock;;; ret None
  end.

(** What each operation asks of its caller. *)
Definition op_pre (m : mem) (L : gmap loc (list loc)) (o : op) : Prop :=
  match o with
  | Insert q f =>
      is_Some (L !! q) ∧ flows m !! f = Some (mkFlow None None) ∧ unowned L f
  | PollRemove q => mutex_of m q = Some MutexFree
  | Transfer f (Some a) b need =>
      (∃ la, L !! a = Some la ∧ f ∈ la) ∧
      if decide (a = b)
      then mutex_of m a = Some (if (need =? 1)%Z then MutexFree else MutexHeld)
      else (need = 1%Z → mutex_of m a = Some MutexFree) ∧
           mutex_of m b = Some MutexFree
  | Transfer f None b need =>
      is_Some (flows m !! f) ∧ unowned L f ∧ mutex_of m b = Some MutexFree
  end.

(** What each operation does to the sequences. *)
Definition abs_transfer (f : loc) (srcq : ptr) (dstq : loc)
  (L : gmap loc (list loc)) : gmap loc (list loc) :=
  alter (λ l, l ++ [f]) dstq
    match srcq with
    | Some a => alter (filter (λ x, x ≠ f)) a L
    | None => L
    end.

Definition abs_op (o : op) (L : gmap loc (list loc)) : gmap loc (list loc) :=
  match o with
  | Insert q f => alter (cons f) q L
  | PollRemove q => alter (@removelast loc) q L
  | Transfer f srcq dstq _ => abs_transfer f srcq dstq L
  end.

(** The lock and unlock calls of one [FlowRequeue], in order. *)
Definition transfer_events (srcq : ptr) (dstq : loc) (need_srclock : Z)
  : list event :=
  match srcq with
  | Some a =>
      (if (need_srclock =? 1)%Z then [EvLock a] else []) ++
      (if bool_decide (srcq ≠ Some dstq) && (need_srclock =? 1)%Z
       then [EvUnlock a] else [])
  | None => []
  end ++
  (if bool_decide (srcq ≠ Some dstq) then [EvLock dstq] else []) ++
  [EvUnlock dstq].

(** Whether the calling thread holds the mutex of [q]. *)
Definition is_held (m : mem) (q : loc) : bool :=
  bool_decide (mutex_of m q = Some MutexHeld).

Definition track (q : loc) (held : bool) (e : event) : bool :=
  match e with
  | EvLock q' => if decide (q' = q) then true else held
  | EvUnlock q' => if decide (q' = q) then false else held
  | EvCondWait _ => held
  end.

(** Starting with [a] held iff [ha] and [b] held iff [hb], is there a
    moment along [tr] at which both are held? *)
Fixpoint both_held (a b : loc) (ha hb : bool) (tr : list event) : bool :=
  (ha && hb) ||
  match tr with
  | [] => false
  | e :: tr' => both_held a b (track a ha e) (track b hb e) tr'
  end.

(** The events a call added to the trace. *)
Definition events_of (m m' : mem) : list event :=
  drop (length (trace m)) (trace m').

(** *** A producer and a consumer *)

(** A producer takes the lock of [q], inserts the records of [rs] one after
    the other, and releases the lock. *)
Fixpoint insert_all (cfg : build) (q : ptr) (rs : list loc) : M unit :=
  match rs with
  | [] => ret tt
  | r :: rs' => FlowEnqueue cfg q (Some r);;; insert_all cfg q rs'
  end.

Definition insert_under_lock (cfg : build) (q : ptr) (rs : list loc) : M unit :=
  lock_mutex_q cfg q;;; insert_all cfg q rs;;; unlock_mutex_q cfg q.

(** A consumer polls [n] times and collects what it got. *)
Fixpoint poll_n (cfg : build) (q : ptr) (n : nat) : M (list ptr) :=
  match n with
  | O => ret []
  | S k => r <- FlowDequeue cfg q;; rs <- poll_n cfg q k;; ret (r :: rs)
  end.

(** ** More callers and what they leave behind *)

(** A producer that hands its records to the queue with [FlowRequeue] and
    no source queue, one call per record. *)
Fixpoint requeue_all (cfg : build) (q : ptr) (rs : list loc) : M unit :=
  match rs with
  | [] => ret tt
  | r :: rs' => FlowRequeue cfg (Some r) None q 1;;; requeue_all cfg q rs'
  end.

(** The sequences after a record left its queue for good. *)
Definition abs_leave (f : loc) (srcq : ptr) (L : gmap loc (list loc))
  : gmap loc (list loc) :=
  match srcq with
  | Some a => alter (filter (λ x, x ≠ f)) a L
  | None => L
  end.

(** The greatest length seen, of every queue. *)
Definition maxlens (m : mem) : gmap loc Z := dbg_maxlen <$> queues m.

(** What the [DBG_PERF] lines make of the counter [mx] when the length has
    become [l]. *)
Definition high_water (cfg : build) (mx l : Z) : Z :=
  if dbg_perf cfg && (mx <? l)%Z then l else mx.

(** A computation that never writes a [dbg_maxlen]. *)
Definition keeps_maxlens {A} (c : M A) : Prop :=
  ∀ m a m', c m = Done a m' → maxlens m' = maxlens m.

(** A computation that writes no [dbg_maxlen] until it ends with the
    [DBG_PERF] lines of queue [q]. *)
Definition ends_tracking (cfg : build) (q : ptr) (c : M unit) : Prop :=
  ∀ m m', c m = Done tt m' →
  ∃ m2, maxlens m2 = maxlens m ∧ track_maxlen cfg q m2 = Done tt m'.

(** The queue that an operation adds a record to. *)
Definition grown (o : op) : ptr :=
  match o with
  | Insert q _ => Some q
  | PollRemove _ => None
  | Transfer _ _ dstq _ => Some dstq
  end.

(** From [m] to [m'] the counter of queue [g] went through the [DBG_PERF]
    lines once, with the length [m'] has, and no other counter changed. *)
Definition maxlen_rule (cfg : build) (g : ptr) (m m' : mem) : Prop :=
  ∀ q qv', queues m' !! q = Some qv' →
  ∃ qv, queues m !! q = Some qv
    ∧ dbg_maxlen qv' =
        if bool_decide (g = Some q)
        then high_water cfg (dbg_maxlen qv) (len qv')
        else dbg_maxlen qv.

(** ** The ERF file reader *)

Module Erf.

Local Open Scope Z_scope.

Definition DAG_TYPE_ETH : Z := 2.

(** [sizeof(DagRecord)], the structure being packed: 8+1+1+2+2+2+2. *)
Definition sizeof_DagRecord : Z := 18.

(** Modelled from the spec: [LINKTYPE_ETHERNET] (decode.h is not among the
    sources) is [DLT_EN10MB], the link type of Ethernet frames. *)
Definition LINKTYPE_ETHERNET : Z := 1.

Record DagRecord := mkDagRecord {
  ts : Z;       (* uint64_t *)
  type : Z;     (* uint8_t *)
  flags : Z;    (* DagFlags, one byte *)
  rlen : Z;     (* uint16_t, as stored *)
  lctr : Z;
  wlen : Z;
  pad : Z
}.

(** Modelled from the spec: the return codes of a thread module
    (tm-threads-common.h is not among the sources). *)
Inductive TmEcode := TM_ECODE_OK | TM_ECODE_FAILED | TM_ECODE_DONE.

(** A stream open for reading: the bytes not read yet and the error
    indicator of the stream. *)
Record FILE := mkFILE { fbytes : list byte; ferr : bool }.

(** [fread(ptr, size, 1, stream)]: the number of whole items read (0 or
    1), the bytes stored at [ptr], and the stream afterwards.  An item of
    size 0 reads nothing and returns 0. *)
Definition fread (size : Z) (f : FILE) : Z * list byte * FILE :=
  if size =? 0 then (0, [], f)
  else if ferr f then (0, [], f)
  else if size <=? Z.of_nat (length (fbytes f)) then
    (1, take (Z.to_nat size) (fbytes f),
     mkFILE (drop (Z.to_nat size) (fbytes f)) false)
  else (0, fbytes f, mkFILE [] false).

(** The value of bytes laid out least significant first (the host is
    little-endian). *)
Definition le_uint (bs : list byte) : Z :=
  foldr (λ b acc, Z.of_N (Byte.to_N b) + 256 * acc) 0 bs.

Definition field (off n : nat) (bs : list byte) : Z :=
  le_uint (take n (drop off bs)).

(** The bytes of a record header seen through [DagRecord]. *)
Definition DagRecord_of_bytes (bs : list byte) : DagRecord :=
  mkDagRecord (field 0 8 bs) (field 8 1 bs) (field 9 1 bs)
    (field 10 2 bs) (field 12 2 bs) (field 14 2 bs) (field 16 2 bs).

(** [ntohs] on a little-endian host swaps the two bytes. *)
Definition ntohs (x : Z) : Z := (x mod 256) * 256 + (x / 256) mod 256.

(** [struct timeval]. *)
Record timeval := mkTimeval { tv_sec : Z; tv_usec : Z }.

(** Modelled from the spec: the fields of [Packet] (decode.h is not among
    the sources) the reader writes: the raw frame, its byte length (32 bits
    wide, unsigned), the link type and the capture timestamp. *)
Record Packet := mkPacket {
  pkt_data : list byte;   (* GET_PKT_DATA(p) *)
  pktlen : Z;             (* GET_PKT_LEN(p), uint32_t *)
  datalink : Z;
  pkt_ts : timeval
}.

(** [ErfFileThreadVars] with the packet being filled and the engine's
    stop request. *)
Record erf_state := mkErfState {
  erf : FILE;
  pkts : Z;        (* uint32_t *)
  bytes : Z;       (* uint64_t *)
  pkt : Packet;
  engine_stop : bool
}.

(** "Convert ERF time to timeval", lines 142 to 150. *)
Definition erf_timeval (ts0 : Z) : timeval :=
  let sec := Z.shiftr ts0 32 in
  let ts1 := wrap64 (Z.land ts0 0xffffffff * 1000000) in
  let ts2 := wrap64 (ts1 + 0x80000000) in
  let usec := Z.shiftr ts2 32 in
  if 1000000 <=? usec then mkTimeval (sec + 1) (usec - 1000000)
  else mkTimeval sec usec.

(** Modelled from the spec: [EngineStop] (suricata.c is not among the
    sources) asks the engine to shut down. *)
Definition EngineStop (s : erf_state) : erf_state :=
  mkErfState (erf s) (pkts s) (bytes s) (pkt s) true.

Definition ReceiveErfFile (s : erf_state) : TmEcode * erf_state :=
  let '(r, hdr, f1) := fread sizeof_DagRecord (erf s) in
  let s1 := mkErfState f1 (pkts s) (bytes s) (pkt s) (engine_stop s) in
  if r <? 1 then (TM_ECODE_FAILED, EngineStop s1)
  else
    let dr := DagRecord_of_bytes hdr in
    let rlen := ntohs (rlen dr) in
    let wlen := ntohs (wlen dr) in
    let '(r, data, f2) := fread (wrap64 (rlen - sizeof_DagRecord)) f1 in
    let p1 := mkPacket data (pktlen (pkt s)) (datalink (pkt s)) (pkt_ts (pkt s)) in
    let s2 := mkErfState f2 (pkts s) (bytes s) p1 (engine_stop s) in
    if r <? 1 then (TM_ECODE_FAILED, EngineStop s2)
    else if negb (type dr =? DAG_TYPE_ETH) then (TM_ECODE_FAILED, s2)
    else
      let p2 :=
        mkPacket data (wrap32 (wlen - 4)) LINKTYPE_ETHERNET
          (erf_timeval (ts dr)) in
      (TM_ECODE_OK,
       mkErfState f2 (wrap32 (pkts s + 1)) (wrap64 (bytes s + wlen)) p2
         (engine_stop s)).

(** *** The outcomes of one call *)

(** Did the read of the header, and then the read of the payload, return
    a whole item?  A read falls short at the end of the file, on a read
    error, and for a payload of no bytes. *)
Definition header_read (s : erf_state) : bool :=
  negb ((fread sizeof_DagRecord (erf s)).1.1 <? 1).

Definition header_of (s : erf_state) : DagRecord :=
  DagRecord_of_bytes (fread sizeof_DagRecord (erf s)).1.2.

Definition payload_read (s : erf_state) : bool :=
  negb ((fread (wrap64 (ntohs (rlen (header_of s)) - sizeof_DagRecord))
           (fread sizeof_DagRecord (erf s)).2).1.1 <? 1).

Definition supported (s : erf_state) : bool :=
  type (header_of s) =? DAG_TYPE_ETH.

Inductive erf_outcome := FrameDelivered | ReadStopped | RecordUnsupported.

Definition outcome_of (s : erf_state) : erf_outcome :=
  if negb (header_read s && payload_read s) then ReadStopped
  else if supported s then FrameDelivered
  else RecordUnsupported.

(** The outcomes as the specification lists them: a frame, or else the
    end of the stream or a read error (a read that fell short). *)
Definition listed_outcome (s : erf_state) : Prop :=
  (ReceiveErfFile s).1 = TM_ECODE_OK
  ∨ ((ReceiveErfFile s).1 = TM_ECODE_FAILED
     ∧ header_read s && payload_read s = false).

(** *** Example files *)

(** One record of 20 bytes: header with the given type, [rlen] 20 and
    [wlen] 64, then two bytes of payload. *)
Definition ex_record (ty : byte) : list byte :=
  [x00; x00; x00; x80; x01; x00; x00; x00;   (* ts = 1.5 s *)
   ty; x00;                                  (* type, flags *)
   x00; x14;                                 (* rlen = 20 *)
   x00; x00;                                 (* lctr *)
   x00; x40;                                 (* wlen = 64 *)
   x00; x00;                                 (* pad *)
   xaa; xbb].

Definition ex_state (ty : byte) : erf_state :=
  mkErfState (mkFILE (ex_record ty ++ ex_record ty) false) 0 0
    (mkPacket [] 0 0 (mkTimeval 0 0)) false.

(** *** Files of records *)

(** A header of [sizeof(DagRecord)] bytes for an Ethernet record whose
    [rlen] counts the header and the bytes of [payload], of which there is
    at least one. *)
Definition record_ok (hdr payload : list byte) : Prop :=
  length hdr = 18%nat
  ∧ payload ≠ []
  ∧ ntohs (rlen (DagRecord_of_bytes hdr)) = 18 + Z.of_nat (length payload)
  ∧ type (DagRecord_of_bytes hdr) = DAG_TYPE_ETH.

(** The packet a record is delivered as. *)
Definition packet_of (hdr payload : list byte) : Packet :=
  mkPacket payload (wrap32 (ntohs (wlen (DagRecord_of_bytes hdr)) - 4))
    LINKTYPE_ETHERNET (erf_timeval (ts (DagRecord_of_bytes hdr))).

(** The bytes of a file made of the given records, and the sum of their
    wire lengths. *)
Definition file_of (rs : list (list byte * list byte)) : list byte :=
  concat (map (λ r, r.1 ++ r.2) rs).

Definition wire_bytes (rs : list (list byte * list byte)) : Z :=
  foldr (λ r acc, ntohs (wlen (DagRecord_of_bytes r.1)) + acc) 0 rs.

(** The receiver called [n] times in a row: the code and the packet of
    each call, and the state after the last one. *)
Fixpoint receive_n (n : nat) (s : erf_state)
  : list (TmEcode * Packet) * erf_state :=
  match n with
  | O => ([], s)
  | S k =>
      let '(r, s1) := ReceiveErfFile s in
      let '(rs, s2) := receive_n k s1 in
      ((r, pkt s1) :: rs, s2)
  end.

(** The two records of the example file, header and payload apart. *)
Definition ex_records : list (list byte * list byte) :=
  [(take 18 (ex_record x02), drop 18 (ex_record x02));
   (take 18 (ex_record x02), drop 18 (ex_record x02))].

(** A header whose [rlen] is 18, the size of the header itself, and a
    file where a whole record follows it. *)
Definition ex_empty_record : list byte :=
  take 10 (ex_record x02) ++ [x00; x12] ++ take 6 (drop 12 (ex_record x02)).

Definition ex_state_empty : erf_state :=
  mkErfState (mkFILE (ex_empty_record ++ ex_record x02) false) 0 0
    (mkPacket [] 0 0 (mkTimeval 0 0)) false.

(** A [timeval] in microseconds. *)
Definition micros (t : timeval) : Z := tv_sec t * 1000000 + tv_usec t.

(** *** Opening the file *)

(** [ErfFileThreadVars]. *)
Record ErfFileThreadVars := mkErfFileThreadVars {
  etv_erf : FILE;
  etv_tv : Z;          (* ThreadVars * *)
  etv_pkts : Z;
  etv_bytes : Z
}.

(** Modelled from the spec: what the C library and the allocator
    (stdio.h, stdlib.h and util-mem.h are not among the sources) do for
    the thread: [fopen] for reading gives a stream at the first byte of
    the named file, or [NULL] when the file cannot be opened; [fclose]
    closes a stream; [SCMalloc] gives [NULL] when no memory is left;
    [exit] ends the process with the given status. *)
Record world := mkWorld {
  files : list byte → option (list byte);
  streams : nat;        (* streams open *)
  memory_left : bool    (* will the next allocation succeed? *)
}.

(** Modelled from the spec: [EXIT_FAILURE] of stdlib.h. *)
Definition EXIT_FAILURE : Z := 1.

Definition fopen (name : list byte) (w : world) : option FILE * world :=
  match files w name with
  | Some content =>
      (Some (mkFILE content false),
       mkWorld (files w) (S (streams w)) (memory_left w))
  | None => (None, w)
  end.

Definition fclose (w : world) : world :=
  mkWorld (files w) (pred (streams w)) (memory_left w).

(** How a call of the thread's initialisation ends: it returns a code,
    with the value of [*data], or it ends the process. *)
Inductive init_outcome :=
  | InitReturn (r : TmEcode) (data : option ErfFileThreadVars) (w : world)
  | InitExit (status : Z).

Definition ReceiveErfFileThreadInit (tv : Z) (initdata : option (list byte))
  (data : option ErfFileThreadVars) (w : world) : init_outcome :=
  match initdata with
  | None => InitReturn TM_ECODE_FAILED data w
  | Some name =>
      match fopen name w with
      | (None, _) => InitExit EXIT_FAILURE
      | (Some erf, w1) =>
          if memory_left w1
          then InitReturn TM_ECODE_OK (Some (mkErfFileThreadVars erf tv 0 0)) w1
          else InitReturn TM_ECODE_FAILED data (fclose w1)
      end
  end.

(** The state the reader works on, for the thread's variables, the packet
    to fill and the engine's stop request. *)
Definition thread_state (etv : ErfFileThreadVars) (p : Packet) (stop : bool)
  : erf_state :=
  mkErfState (etv_erf etv) (etv_pkts etv) (etv_bytes etv) p stop.

(** A world with one file, the two records of the example. *)
Definition ex_world : world :=
  mkWorld (λ _, Some (ex_record x02 ++ ex_record x02)) 0 true.

End Erf.

(** ** Example memories

    Queue 1 holds the records 1, 2, 3 (1 at [top], 3 at [bot]), queue 2 is
    empty, and record 4 is in no queue. *)

Definition cfg0 : build := mkBuild false false false.

Definition ex_flows : gmap loc Flow :=
  <[1%positive := mkFlow None (Some 2%positive)]>
    (<[2%positive := mkFlow (Some 1%positive) (Some 3%positive)]>
       (<[3%positive := mkFlow (Some 2%positive) None]>
          (<[4%positive := mkFlow None None]> ∅))).

Definition ex_queue1 (mu : mutex_state) : FlowQueue :=
  mkFlowQueue (Some 1%positive) (Some 3%positive) 3 0 mu CondReady.

Definition ex_queue2 : FlowQueue :=
  mkFlowQueue None None 0 0 MutexFree CondReady.

Definition ex_mem : mem :=
  mkMem ex_flows
    (<[1%positive := ex_queue1 MutexFree]> (<[2%positive := ex_queue2]> ∅)) [].

(** The same memory when the caller already holds the mutex of queue 1. *)
Definition ex_mem_held : mem :=
  mkMem ex_flows
    (<[1%positive := ex_queue1 MutexHeld]> (<[2%positive := ex_queue2]> ∅)) [].

Definition ex_L : gmap loc (list loc) :=
  <[1%positive := [1%positive; 2%positive; 3%positive]]>
    (<[2%positive := []]> ∅).

(** The same two queues before anything was inserted, with four records
    in no queue. *)
Definition ex_flows0 : gmap loc Flow :=
  <[1%positive := mkFlow None None]>
    (<[2%positive := mkFlow None None]>
       (<[3%positive := mkFlow None None]>
          (<[4%positive := mkFlow None None]> ∅))).

Definition ex_mem0 : mem :=
  mkMem ex_flows0
    (<[1%positive := ex_queue2]> (<[2%positive := ex_queue2]> ∅)) [].

Definition ex_L0 : gmap loc (list loc) :=
  <[1%positive := []]> (<[2%positive := []]> ∅).

(** * Proofs *)

(** ** Doubly-linked segments *)

Lemma dll_frame fl fl' prv l nxt :
  (∀ x, x ∈ l → fl' !! x = fl !! x) → dll fl prv l nxt → dll fl' prv l nxt.
Proof.
  revert prv. induction l as [|x l IH]; intros prv Hag; simpl; [done|].
  intros [Hx Hl]. split.
  - rewrite Hag; [done | left].
  - apply IH; [|done]. intros y Hy. apply Hag. by right.
Qed.

Lemma last_of_cons prv x l : last_of prv (x :: l) = last_of (Some x) l.
Proof.
  unfold last_of. destruct l as [|y l]; [done|]. simpl.
  destruct (last (y :: l)) eqn:E; [done|]. by apply last_None in E.
Qed.

Lemma last_of_snoc prv l x : last_of prv (l ++ [x]) = Some x.
Proof. unfold last_of. by rewrite last_snoc. Qed.

Lemma dll_app fl prv l1 l2 nxt :
  dll fl prv (l1 ++ l2) nxt ↔
  dll fl prv l1 (first_of l2 nxt) ∧ dll fl (last_of prv l1) l2 nxt.
Proof.
  revert prv. induction l1 as [|x l1 IH]; intros prv; simpl.
  - unfold last_of; simpl. tauto.
  - rewrite IH, last_of_cons.
    assert (first_of (l1 ++ l2) nxt = first_of l1 (first_of l2 nxt)) as ->.
    { by destruct l1. }
    tauto.
Qed.

Section Exec.
Context {A B : Type}.
Lemma bind_Done (c : M A) (k : A → M B) m a m' :
  c m = Done a m' → bind c k m = k a m'.
Proof. unfold bind. by intros ->. Qed.
End Exec.

Lemma bind_assoc {A B C} (c : M A) (k : A → M B) (k' : B → M C) m :
  bind (bind c k) k' m = bind c (fun x => bind (k x) k') m.
Proof. unfold bind. by destruct (c m). Qed.
Lemma bind_ret {A B} (a : A) (k : A → M B) m : bind (ret a) k m = k a m.
Proof. done. Qed.


Lemma load_queue_Done m q qv :
  queues m !! q = Some qv → load_queue (Some q) m = Done qv m.
Proof. unfold load_queue. by intros ->. Qed.
Lemma store_queue_Done m q qv v :
  queues m !! q = Some qv →
  store_queue (Some q) v m = Done tt (mkMem (flows m) (<[q := v]> (queues m)) (trace m)).
Proof. unfold store_queue. by intros ->. Qed.
Lemma load_flow_Done m f v :
  flows m !! f = Some v → load_flow (Some f) m = Done v m.
Proof. unfold load_flow. by intros ->. Qed.
Lemma store_flow_Done m f v0 v :
  flows m !! f = Some v0 →
  store_flow (Some f) v m = Done tt (mkMem (<[f := v]> (flows m)) (queues m) (trace m)).
Proof. unfold store_flow. by intros ->. Qed.

Lemma get_top_Done m q qv :
  queues m !! q = Some qv → get_top (Some q) m = Done (top qv) m.
Proof. intros H. unfold get_top. by rewrite (bind_Done _ _ _ _ _ (load_queue_Done _ _ _ H)). Qed.
Lemma get_bot_Done m q qv :
  queues m !! q = Some qv → get_bot (Some q) m = Done (bot qv) m.
Proof. intros H. unfold get_bot. by rewrite (bind_Done _ _ _ _ _ (load_queue_Done _ _ _ H)). Qed.
Lemma get_len_Done m q qv :
  queues m !! q = Some qv → get_len (Some q) m = Done (len qv) m.
Proof. intros H. unfold get_len. by rewrite (bind_Done _ _ _ _ _ (load_queue_Done _ _ _ H)). Qed.
Lemma get_dbg_maxlen_Done m q qv :
  queues m !! q = Some qv → get_dbg_maxlen (Some q) m = Done (dbg_maxlen qv) m.
Proof. intros H. unfold get_dbg_maxlen. by rewrite (bind_Done _ _ _ _ _ (load_queue_Done _ _ _ H)). Qed.
Lemma get_lprev_Done m f v :
  flows m !! f = Some v → get_lprev (Some f) m = Done (lprev v) m.
Proof. intros H. unfold get_lprev. by rewrite (bind_Done _ _ _ _ _ (load_flow_Done _ _ _ H)). Qed.
Lemma get_lnext_Done m f v :
  flows m !! f = Some v → get_lnext (Some f) m = Done (lnext v) m.
Proof. intros H. unfold get_lnext. by rewrite (bind_Done _ _ _ _ _ (load_flow_Done _ _ _ H)). Qed.

Lemma set_top_Done m q qv x :
  queues m !! q = Some qv →
  set_top (Some q) x m =
  Done tt (mkMem (flows m)
     (<[q := mkFlowQueue x (bot qv) (len qv) (dbg_maxlen qv) (mutex_q qv) (cond_q qv)]> (queues m))
     (trace m)).
Proof.
  intros H. unfold set_top.
  rewrite (bind_Done _ _ _ _ _ (load_queue_Done _ _ _ H)).
  by apply store_queue_Done with qv.
Qed.
Lemma set_bot_Done m q qv x :
  queues m !! q = Some qv →
  set_bot (Some q) x m =
  Done tt (mkMem (flows m)
     (<[q := mkFlowQueue (top qv) x (len qv) (dbg_maxlen qv) (mutex_q qv) (cond_q qv)]> (queues m))
     (trace m)).
Proof.
  intros H. unfold set_bot.
  rewrite (bind_Done _ _ _ _ _ (load_queue_Done _ _ _ H)).
  by apply store_queue_Done with qv.
Qed.
Lemma set_len_Done m q qv x :
  queues m !! q = Some qv →
  set_len (Some q) x m =
  Done tt (mkMem (flows m)
     (<[q := mkFlowQueue (top qv) (bot qv) x (dbg_maxlen qv) (mutex_q qv) (cond_q qv)]> (queues m))
     (trace m)).
Proof.
  intros H. unfold set_len.
  rewrite (bind_Done _ _ _ _ _ (load_queue_Done _ _ _ H)).
  by apply store_queue_Done with qv.
Qed.
Lemma set_dbg_maxlen_Done m q qv x :
  queues m !! q = Some qv →
  set_dbg_maxlen (Some q) x m =
  Done tt (mkMem (flows m)
     (<[q := mkFlowQueue (top qv) (bot qv) (len qv) x (mutex_q qv) (cond_q qv)]> (queues m))
     (trace m)).
Proof.
  intros H. unfold set_dbg_maxlen.
  rewrite (bind_Done _ _ _ _ _ (load_queue_Done _ _ _ H)).
  by apply store_queue_Done with qv.
Qed.
Lemma set_mutex_q_Done m q qv x :
  queues m !! q = Some qv →
  set_mutex_q (Some q) x m =
  Done tt (mkMem (flows m)
     (<[q := mkFlowQueue (top qv) (bot qv) (len qv) (dbg_maxlen qv) x (cond_q qv)]> (queues m))
     (trace m)).
Proof.
  intros H. unfold set_mutex_q.
  rewrite (bind_Done _ _ _ _ _ (load_queue_Done _ _ _ H)).
  by apply store_queue_Done with qv.
Qed.
Lemma set_cond_q_Done m q qv x :
  queues m !! q = Some qv →
  set_cond_q (Some q) x m =
  Done tt (mkMem (flows m)
     (<[q := mkFlowQueue (top qv) (bot qv) (len qv) (dbg_maxlen qv) (mutex_q qv) x]> (queues m))
     (trace m)).
Proof.
  intros H. unfold set_cond_q.
  rewrite (bind_Done _ _ _ _ _ (load_queue_Done _ _ _ H)).
  by apply store_queue_Done with qv.
Qed.
Lemma set_lprev_Done m f v x :
  flows m !! f = Some v →
  set_lprev (Some f) x m =
  Done tt (mkMem (<[f := mkFlow x (lnext v)]> (flows m)) (queues m) (trace m)).
Proof.
  intros H. unfold set_lprev.
  rewrite (bind_Done _ _ _ _ _ (load_flow_Done _ _ _ H)).
  by apply store_flow_Done with v.
Qed.
Lemma set_lnext_Done m f v x :
  flows m !! f = Some v →
  set_lnext (Some f) x m =
  Done tt (mkMem (<[f := mkFlow (lprev v) x]> (flows m)) (queues m) (trace m)).
Proof.
  intros H. unfold set_lnext.
  rewrite (bind_Done _ _ _ _ _ (load_flow_Done _ _ _ H)).
  by apply store_flow_Done with v.
Qed.

Ltac lookup_tac :=
  cbn [flows queues trace];
  repeat first [ rewrite lookup_insert_eq
               | rewrite lookup_insert_ne by congruence ];
  first [ eassumption | reflexivity ].

Ltac norm :=
  cbv beta;
  cbn [top bot len dbg_maxlen mutex_q cond_q lprev lnext flows queues trace].

Ltac step_with lem :=
  rewrite ?bind_assoc;
  erewrite bind_Done by (eapply lem; lookup_tac); norm.

Ltac step :=
  first
    [ step_with get_top_Done | step_with get_bot_Done | step_with get_len_Done
    | step_with get_dbg_maxlen_Done | step_with get_lprev_Done
    | step_with get_lnext_Done | step_with set_top_Done | step_with set_bot_Done
    | step_with set_len_Done | step_with set_dbg_maxlen_Done
    | step_with set_lprev_Done | step_with set_lnext_Done
    | step_with set_mutex_q_Done | step_with set_cond_q_Done ].

Ltac last_with lem := rewrite ?bind_assoc; erewrite lem by lookup_tac; norm.
Ltac last_step :=
  first
    [ last_with set_top_Done | last_with set_bot_Done | last_with set_len_Done
    | last_with set_dbg_maxlen_Done | last_with set_lprev_Done
    | last_with set_lnext_Done | last_with set_mutex_q_Done
    | last_with set_cond_q_Done ].

Lemma track_maxlen_Done cfg m q qv :
  queues m !! q = Some qv →
  ∃ mx, track_maxlen cfg (Some q) m =
    Done tt (mkMem (flows m)
      (<[q := mkFlowQueue (top qv) (bot qv) (len qv) mx (mutex_q qv) (cond_q qv)]> (queues m))
      (trace m)).
Proof.
  intros Hq. destruct qv as [tp bt ln mx mu cd]. destruct m as [F Q T]. cbn in Hq.
  unfold track_maxlen. destruct (dbg_perf cfg); unfold when.
  - do 2 step. destruct (mx <? ln)%Z.
    + step. last_step. eauto.
    + exists mx. unfold ret. by rewrite insert_id.
  - exists mx. unfold ret. by rewrite insert_id.
Qed.

Lemma wrap32_succ n : wrap32 (wrap32 n + 1) = wrap32 (n + 1).
Proof. unfold wrap32, wrap. by rewrite Zplus_mod_idemp_l. Qed.
Lemma wrap32_pred n : wrap32 (wrap32 n - 1) = wrap32 (n - 1).
Proof. unfold wrap32, wrap. by rewrite Zminus_mod_idemp_l. Qed.

Lemma FlowEnqueue_spec cfg m q qv f l :
  queues m !! q = Some qv → queue_rep (flows m) qv l →
  flows m !! f = Some (mkFlow None None) → f ∉ l →
  ∃ fl' qv',
    FlowEnqueue cfg (Some q) (Some f) m =
      Done tt (mkMem fl' (<[q := qv']> (queues m)) (trace m))
    ∧ queue_rep fl' qv' (f :: l)
    ∧ (∀ x, x ≠ f → x ∉ l → fl' !! x = flows m !! x)
    ∧ mutex_q qv' = mutex_q qv ∧ cond_q qv' = cond_q qv.
Proof.
  intros Hq [Hdll Hnd Htop Hbot Hlen] Hf Hfl.
  destruct qv as [tp bt ln mx mu cd]. destruct m as [F Q T]. cbn in *. subst.
  unfold FlowEnqueue. step.
  destruct l as [|t l]; cbn [head]; cbv iota.
  - do 4 step.
    edestruct (track_maxlen_Done cfg) as [mx' ->]; [lookup_tac|]. norm.
    rewrite !insert_insert_eq.
    eexists _, _. split; [reflexivity|]. split; [|done].
    constructor; cbn; try done.
    apply NoDup_singleton.
  - destruct Hdll as [Ht Hl].
    assert (f ≠ t) by (intros ->; apply Hfl; left).
    do 7 step.
    edestruct (track_maxlen_Done cfg) as [mx' ->]; [lookup_tac|]. norm.
    rewrite !insert_insert_eq.
    eexists _, _. split; [reflexivity|]. split; [|split; [|done]].
    + apply NoDup_cons in Hnd as [Htl Hnd].
      constructor; cbn [head last length top bot len]; try done.
      * cbn. rewrite lookup_insert_ne, lookup_insert_eq by done.
        split; [done|]. rewrite lookup_insert_eq. split; [done|].
        eapply dll_frame; [|done]. intros x Hx.
        rewrite !lookup_insert_ne; [done| |]; intros ->; [|done].
        apply Hfl. by right.
      * apply NoDup_cons. split; [done|]. by apply NoDup_cons.
      * rewrite wrap32_succ. f_equal. lia.
    + intros x Hx1 Hx2. rewrite !lookup_insert_ne; [done|congruence|].
      intros ->. apply Hx2. left.
Qed.

Lemma when_true c : when true c = c.
Proof. done. Qed.
Lemma when_false c : when false c = ret tt.
Proof. done. Qed.

Lemma lock_mutex_q_eq cfg q : lock_mutex_q cfg q = SCMutexLock q.
Proof. unfold lock_mutex_q. by destruct (tile cfg). Qed.
Lemma unlock_mutex_q_eq cfg q : unlock_mutex_q cfg q = SCMutexUnlock q.
Proof. unfold unlock_mutex_q. by destruct (tile cfg). Qed.

Lemma SCMutexLock_Done m q qv :
  queues m !! q = Some qv → mutex_q qv = MutexFree →
  SCMutexLock (Some q) m =
  Done tt (mkMem (flows m)
     (<[q := mkFlowQueue (top qv) (bot qv) (len qv) (dbg_maxlen qv) MutexHeld (cond_q qv)]>
        (queues m))
     (trace m ++ [EvLock q])).
Proof.
  intros Hq Hmu. unfold SCMutexLock.
  rewrite (bind_Done _ _ _ _ _ (load_queue_Done _ _ _ Hq)), Hmu.
  rewrite (bind_Done _ _ _ _ _ (set_mutex_q_Done _ _ _ _ Hq)).
  reflexivity.
Qed.

Lemma SCMutexUnlock_Done m q qv :
  queues m !! q = Some qv → mutex_q qv = MutexHeld →
  SCMutexUnlock (Some q) m =
  Done tt (mkMem (flows m)
     (<[q := mkFlowQueue (top qv) (bot qv) (len qv) (dbg_maxlen qv) MutexFree (cond_q qv)]>
        (queues m))
     (trace m ++ [EvUnlock q])).
Proof.
  intros Hq Hmu. unfold SCMutexUnlock.
  rewrite (bind_Done _ _ _ _ _ (load_queue_Done _ _ _ Hq)), Hmu.
  rewrite (bind_Done _ _ _ _ _ (set_mutex_q_Done _ _ _ _ Hq)).
  reflexivity.
Qed.

Ltac step_lock :=
  rewrite ?bind_assoc;
  first
    [ erewrite bind_Done
        by (eapply SCMutexLock_Done; [lookup_tac | reflexivity])
    | erewrite bind_Done
        by (eapply SCMutexUnlock_Done; [lookup_tac | reflexivity]) ];
  norm.

Lemma list_snoc_cases {A} (l : list A) : l = [] ∨ ∃ l0 x, l = l0 ++ [x].
Proof. destruct l as [|x l0 _] using rev_ind; eauto. Qed.

Lemma head_app_ne {A} (l l' : list A) : l ≠ [] → head (l ++ l') = head l.
Proof. by destruct l. Qed.

(** ** Poll-remove on one queue *)

Lemma FlowDequeue_empty cfg m q qv :
  queues m !! q = Some qv → bot qv = None → mutex_q qv = MutexFree →
  FlowDequeue cfg (Some q) m =
    Done None (mkMem (flows m) (queues m) (trace m ++ [EvLock q; EvUnlock q])).
Proof.
  intros Hq Hbot Hmu.
  destruct qv as [tp bt ln mx mu cd]. destruct m as [F Q T]. cbn in *. subst.
  unfold FlowDequeue. rewrite lock_mutex_q_eq, unlock_mutex_q_eq.
  step_lock. step. cbv iota. step_lock.
  unfold ret. rewrite insert_insert_eq, insert_id by done.
  by rewrite <- app_assoc.
Qed.

Lemma FlowDequeue_spec cfg m q qv l x :
  queues m !! q = Some qv → queue_rep (flows m) qv (l ++ [x]) →
  mutex_q qv = MutexFree →
  ∃ fl' qv',
    FlowDequeue cfg (Some q) m =
      Done (Some x)
        (mkMem fl' (<[q := qv']> (queues m)) (trace m ++ [EvLock q; EvUnlock q]))
    ∧ queue_rep fl' qv' l
    ∧ fl' !! x = Some (mkFlow None None)
    ∧ (∀ y, y ∉ l ++ [x] → fl' !! y = flows m !! y)
    ∧ sync_of qv' = sync_of qv
    ∧ len qv' = wrap32 (len qv - 1).
Proof.
  intros Hq [Hdll Hnd Htop Hbot Hlen] Hmu.
  destruct qv as [tp bt ln mx mu cd]. destruct m as [F Q T]. cbn in *.
  rewrite last_snoc in Hbot. subst.
  apply dll_app in Hdll as [Hl [Hx _]]. cbn in Hx.
  apply NoDup_app in Hnd as (Hndl & Hxl & _).
  unfold FlowDequeue. rewrite lock_mutex_q_eq, unlock_mutex_q_eq.
  step_lock. step. cbv iota.
  destruct (list_snoc_cases l) as [->|(l0 & p & ->)].
  - cbn [last_of last] in Hx.
    do 2 step. cbv iota. do 6 step. step_lock. unfold ret.
    rewrite !insert_insert_eq, <- (app_assoc T).
    eexists _, _. split; [reflexivity|].
    split; [by constructor; try apply NoDup_nil|].
    split; [by rewrite lookup_insert_eq|].
    split; [|done].
    intros y Hy. by rewrite !lookup_insert_ne by (intros ->; apply Hy; set_solver).
  - rewrite last_of_snoc in Hx.
    apply dll_app in Hl as [Hl0 [Hp _]]. cbn in Hp.
    assert (p ≠ x) by (intros ->; apply (Hxl x); set_solver).
    do 2 step. cbv iota. do 9 step. step_lock. unfold ret.
    rewrite !insert_insert_eq, <- (app_assoc T).
    eexists _, _. split; [reflexivity|].
    split; [|split; [by rewrite lookup_insert_eq|split; [|done]]].
    + constructor; cbn [top bot len]; try done.
      * apply dll_app. split.
        -- eapply dll_frame; [|done]. intros y Hy. cbn.
           apply NoDup_app in Hndl as (_ & Hp0 & _).
           by rewrite !lookup_insert_ne
             by (intros ->; first [apply (Hxl y) | apply (Hp0 y)]; set_solver).
        -- cbn. split; [|done].
           rewrite lookup_insert_ne, lookup_insert_eq by done. done.
      * apply head_app_ne. by destruct l0.
      * by rewrite last_snoc.
      * rewrite wrap32_pred. f_equal. rewrite !length_app. cbn. lia.
    + intros y Hy. by rewrite !lookup_insert_ne by (intros ->; apply Hy; set_solver).
Qed.

(** ** Unlinking a record from anywhere in its queue *)

Lemma head_middle (l1 l2 : list loc) f :
  NoDup (l1 ++ f :: l2) → head (l1 ++ f :: l2) = Some f → l1 = [].
Proof.
  destruct l1 as [|h l1]; [done|]. cbn. intros Hnd [= ->].
  apply NoDup_cons in Hnd as [Hh _]. destruct Hh. set_solver.
Qed.

Lemma last_middle (l1 l2 : list loc) f :
  NoDup (l1 ++ f :: l2) → last (l1 ++ f :: l2) = Some f → l2 = [].
Proof.
  destruct (list_snoc_cases l2) as [->|(l0 & x & ->)]; [done|].
  intros Hnd. rewrite app_comm_cons, app_assoc, last_snoc. intros [= ->].
  apply NoDup_app in Hnd as (_ & _ & Hnd).
  apply NoDup_cons in Hnd as [Hh _]. destruct Hh. set_solver.
Qed.

Ltac when_true tac :=
  rewrite ?bind_assoc; rewrite bool_decide_eq_true_2 by tac; rewrite when_true.
Ltac when_false tac :=
  rewrite ?bind_assoc; rewrite bool_decide_eq_false_2 by tac;
  rewrite when_false, bind_ret.

Lemma requeue_remove_spec m q qv l1 f l2 :
  queues m !! q = Some qv → queue_rep (flows m) qv (l1 ++ f :: l2) →
  ∃ fl' qv',
    requeue_remove (Some f) (Some q) m =
      Done tt (mkMem fl' (<[q := qv']> (queues m)) (trace m))
    ∧ queue_rep fl' qv' (l1 ++ l2)
    ∧ fl' !! f = Some (mkFlow None None)
    ∧ (∀ y, y ∉ l1 ++ f :: l2 → fl' !! y = flows m !! y)
    ∧ sync_of qv' = sync_of qv
    ∧ len qv' = wrap32 (len qv - 1).
Proof.
  intros Hq [Hdll Hnd Htop Hbot Hlen].
  destruct qv as [tp bt ln mx mu cd]. destruct m as [F Q T]. cbn in *.
  pose proof (head_middle _ _ _ Hnd) as Hhead.
  pose proof (last_middle _ _ _ Hnd) as Hlast.
  rewrite <- Htop in Hhead. rewrite <- Hbot in Hlast.
  apply dll_app in Hdll as [Hl1 [Hf Hl2]].
  cbn [first_of last_of last] in Hl1, Hl2.
  pose proof Hnd as Hnd'.
  apply NoDup_app in Hnd' as (Hnd1 & Hd12 & Hnd2).
  apply NoDup_cons in Hnd2 as [Hf2 Hnd2].
  assert (f ∉ l1) as Hf1 by (intros Hin; apply (Hd12 f Hin); left).
  unfold requeue_remove.
  destruct (list_snoc_cases l1) as [->|(l0 & p & ->)];
    destruct l2 as [|n l2].
  - (* the only record *)
    cbn in Htop, Hbot, Hf. subst.
    step. when_true ltac:(done). do 2 step.
    step. when_true ltac:(done). do 2 step.
    step. when_false ltac:(by intros []).
    step. when_false ltac:(by intros []).
    do 3 step. last_step.
    rewrite !insert_insert_eq.
    eexists _, _. split; [reflexivity|].
    split; [by constructor; try apply NoDup_nil|].
    split; [by rewrite lookup_insert_eq|].
    split; [|done].
    intros y Hy. by rewrite !lookup_insert_ne by (intros ->; apply Hy; set_solver).
  - (* at top, with a successor *)
    cbn [app head first_of last_of last] in Htop, Hbot, Hf. destruct Hl2 as [Hn Hl2].
    assert (bt ≠ Some f) as Hbf by (intros E; by specialize (Hlast E)).
    assert (n ≠ f) by (intros ->; apply Hf2; left).
    apply NoDup_cons in Hnd2 as [Hn2 Hnd2].
    subst tp ln.
    step. when_true ltac:(done). do 2 step.
    step. when_false ltac:(done).
    step. when_false ltac:(by intros []).
    step. when_true ltac:(done). do 6 step. last_step.
    rewrite !insert_insert_eq.
    eexists _, _. split; [reflexivity|].
    split; [|split; [by rewrite lookup_insert_eq|split; [|done]]].
    + constructor; cbn [top bot len app]; try done.
      * cbn. rewrite lookup_insert_ne, lookup_insert_eq by done.
        split; [done|].
        eapply dll_frame; [|done]. intros y Hy.
        by rewrite !lookup_insert_ne by (intros ->; set_solver).
      * by apply NoDup_cons.
      * rewrite wrap32_pred. f_equal. cbn [length]. lia.
    + intros y Hy.
      by rewrite !lookup_insert_ne by (intros ->; apply Hy; set_solver).
  - (* at bot, with a predecessor *)
    rewrite last_of_snoc in *. rewrite last_snoc in Hbot. cbn in Hf.
    apply dll_app in Hl1 as [Hl0 [Hp _]]. cbn in Hp.
    assert (tp ≠ Some f) as Htf.
    { intros E. specialize (Hhead E). by destruct l0. }
    assert (p ≠ f) by (intros ->; apply Hf1; set_solver).
    pose proof Hnd1 as Hnd1c. apply NoDup_app in Hnd1c as (Hnd0 & Hp0 & _).
    subst bt ln.
    step. when_false ltac:(done).
    step. when_true ltac:(done). do 2 step.
    step. when_true ltac:(done). do 3 step.
    step. when_false ltac:(by intros []).
    do 3 step. last_step.
    rewrite !insert_insert_eq.
    eexists _, _. split; [reflexivity|].
    split; [|split; [by rewrite lookup_insert_eq|split; [|done]]].
    + rewrite app_nil_r.
      constructor; cbn [top bot len]; try done.
      * apply dll_app. split.
        -- eapply dll_frame; [|done]. intros y Hy. cbn.
           by rewrite !lookup_insert_ne
             by (intros ->; first [apply Hf1 | apply (Hp0 y)]; set_solver).
        -- cbn. split; [|done].
           by rewrite lookup_insert_ne, lookup_insert_eq by done.
      * rewrite Htop. apply head_app_ne. by destruct l0.
      * by rewrite last_snoc.
      * rewrite wrap32_pred. f_equal. rewrite !length_app. cbn. lia.
    + intros y Hy.
      by rewrite !lookup_insert_ne by (intros ->; apply Hy; set_solver).
  - (* strictly between two neighbours *)
    rewrite last_of_snoc in *. cbn in Hf.
    apply dll_app in Hl1 as [Hl0 [Hp _]]. cbn in Hp.
    destruct Hl2 as [Hn Hl2].
    assert (tp ≠ Some f) as Htf.
    { intros E. specialize (Hhead E). by destruct l0. }
    assert (bt ≠ Some f) as Hbf by (intros E; by specialize (Hlast E)).
    assert (p ≠ f) by (intros ->; apply Hf1; set_solver).
    assert (n ≠ f) by (intros ->; apply Hf2; left).
    assert (p ≠ n) by (intros ->; apply (Hd12 n); set_solver).
    pose proof Hnd1 as Hnd1c. apply NoDup_app in Hnd1c as (Hnd0 & Hp0 & _).
    apply NoDup_cons in Hnd2 as [Hn2 Hnd2].
    subst ln.
    step. when_false ltac:(done).
    step. when_false ltac:(done).
    step. when_true ltac:(done). do 3 step.
    step. when_true ltac:(done). do 6 step. last_step.
    rewrite !insert_insert_eq.
    eexists _, _. split; [reflexivity|].
    split; [|split; [by rewrite lookup_insert_eq|split; [|done]]].
    + constructor; cbn [top bot len]; try done.
      * apply dll_app. split.
        -- apply dll_app. split.
           ++ eapply dll_frame; [|done]. intros y Hy. cbn.
              by rewrite !lookup_insert_ne
                by (intros ->;
                    first [apply Hf1 | apply (Hp0 y) | apply (Hd12 n)];
                    set_solver).
           ++ cbn. split; [|done].
              by rewrite !lookup_insert_ne, lookup_insert_eq by done.
        -- rewrite last_of_snoc. cbn. split.
           ++ by rewrite lookup_insert_ne, lookup_insert_eq by done.
           ++ eapply dll_frame; [|done]. intros y Hy.
              by rewrite !lookup_insert_ne
                by (intros ->;
                    first [apply Hf2 | apply Hn2 | apply (Hd12 y)];
                    set_solver).
      * apply NoDup_app. split; [done|]. split.
        -- intros y Hy Hy2. apply (Hd12 y Hy). by right.
        -- by apply NoDup_cons.
      * rewrite Htop, <- !app_assoc. by destruct l0.
      * by rewrite Hbot, !last_app.
      * rewrite wrap32_pred. f_equal. rewrite !length_app. cbn. lia.
    + intros y Hy.
      by rewrite !lookup_insert_ne by (intros ->; apply Hy; set_solver).
Qed.

(** ** Appending a record at [bot] *)

Lemma requeue_append_spec cfg m q qv l f fv :
  queues m !! q = Some qv → queue_rep (flows m) qv l →
  flows m !! f = Some fv → f ∉ l →
  ∃ fl' qv',
    requeue_append cfg (Some f) (Some q) m =
      Done tt (mkMem fl' (<[q := qv']> (queues m)) (trace m))
    ∧ queue_rep fl' qv' (l ++ [f])
    ∧ (∀ y, y ∉ l ++ [f] → fl' !! y = flows m !! y)
    ∧ sync_of qv' = sync_of qv
    ∧ len qv' = wrap32 (len qv + 1).
Proof.
  intros Hq [Hdll Hnd Htop Hbot Hlen] Hf Hfl.
  destruct qv as [tp bt ln mx mu cd]. destruct m as [F Q T].
  destruct fv as [fp fn]. cbn in *. subst ln.
  unfold requeue_append.
  destruct (list_snoc_cases l) as [->|(l0 & b & ->)].
  - cbn in Htop, Hbot. subst.
    do 3 step. when_false ltac:(by intros []).
    do 3 step. when_true ltac:(done). do 3 step.
    edestruct (track_maxlen_Done cfg) as [mx' ->]; [lookup_tac|]. norm.
    rewrite !insert_insert_eq.
    eexists _, _. split; [reflexivity|].
    split; [|split; [|done]].
    + constructor; cbn; try done.
      * by rewrite lookup_insert_eq.
      * apply NoDup_singleton.
    + intros y Hy.
      by rewrite !lookup_insert_ne by (intros ->; apply Hy; set_solver).
  - rewrite last_snoc in Hbot. subst bt.
    apply dll_app in Hdll as [Hl0 [Hb _]]. cbn in Hb.
    assert (b ≠ f) by (intros ->; apply Hfl; set_solver).
    assert (tp ≠ None) as Htn by (rewrite Htop; by destruct l0).
    do 3 step. when_true ltac:(done). do 5 step.
    when_false ltac:(done). do 2 step.
    edestruct (track_maxlen_Done cfg) as [mx' ->]; [lookup_tac|]. norm.
    rewrite !insert_insert_eq.
    eexists _, _. split; [reflexivity|].
    split; [|split; [|done]].
    + constructor; cbn [top bot len]; try done.
      * apply dll_app. split.
        -- apply dll_app. split.
           ++ eapply dll_frame; [|done]. intros y Hy. cbn.
              apply NoDup_app in Hnd as (_ & Hb0 & _).
              by rewrite !lookup_insert_ne
                by (intros ->; first [apply Hfl | apply (Hb0 y)]; set_solver).
           ++ cbn. split; [|done].
              by rewrite lookup_insert_ne, lookup_insert_eq by done.
        -- rewrite last_of_snoc. cbn. split; [|done].
           by rewrite lookup_insert_eq.
      * apply NoDup_app. split; [done|]. split; [|apply NoDup_singleton].
        intros y Hy Hy2. apply list_elem_of_singleton in Hy2 as ->. by apply Hfl.
      * rewrite Htop. symmetry. apply head_app_ne. by destruct l0.
      * by rewrite last_snoc.
      * rewrite wrap32_succ. f_equal. rewrite !length_app. cbn. lia.
    + intros y Hy.
      by rewrite !lookup_insert_ne by (intros ->; apply Hy; set_solver).
Qed.

(** ** From one queue to the whole memory *)

Lemma queue_rep_frame fl fl' qv l :
  (∀ y, y ∈ l → fl' !! y = fl !! y) → queue_rep fl qv l → queue_rep fl' qv l.
Proof. intros Hag [? ? ? ? ?]. constructor; eauto using dll_frame. Qed.

Lemma state_rep_lookup m L q l :
  state_rep m L → L !! q = Some l →
  ∃ qv, queues m !! q = Some qv ∧ queue_rep (flows m) qv l.
Proof.
  intros [Hqs Hdom _] Hl. destruct (Hdom _ _ Hl) as [qv Hqv].
  destruct (Hqs _ _ Hqv) as (l' & Hl' & Hrep). exists qv. split; [done|].
  congruence.
Qed.

Lemma state_rep_update m L q l fl' qv' l' tr' :
  state_rep m L → L !! q = Some l →
  queue_rep fl' qv' l' →
  (∀ y, y ∉ l → y ∉ l' → fl' !! y = flows m !! y) →
  (∀ y, y ∈ l' → y ∈ l ∨ unowned L y) →
  state_rep (mkMem fl' (<[q := qv']> (queues m)) tr') (<[q := l']> L).
Proof.
  intros [Hqs Hdom Hdis] Hl Hrep Hframe Hsub. constructor; cbn.
  - intros q2 qv2. destruct (decide (q2 = q)) as [->|Hne].
    + rewrite !lookup_insert_eq. intros [= <-]. eauto.
    + rewrite !lookup_insert_ne by done. intros Hq2.
      destruct (Hqs _ _ Hq2) as (l2 & Hl2 & Hrep2). exists l2. split; [done|].
      eapply queue_rep_frame; [|done]. intros y Hy. apply Hframe.
      * intros Hyl. by apply (Hdis q q2 l l2 ltac:(done) Hl Hl2 y).
      * intros Hyl'. destruct (Hsub _ Hyl') as [Hyl|Hun].
        -- by apply (Hdis q q2 l l2 ltac:(done) Hl Hl2 y).
        -- by apply (Hun _ _ Hl2).
  - intros q2 l2. destruct (decide (q2 = q)) as [->|Hne].
    + rewrite !lookup_insert_eq. intros _. by destruct (Hdom _ _ Hl).
    + rewrite !lookup_insert_ne by done. apply Hdom.
  - assert (∀ q2 l2, q2 ≠ q → L !! q2 = Some l2 → l' ## l2) as Hnew.
    { intros q2 l2 Hne Hl2 y Hyl' Hyl2. destruct (Hsub _ Hyl') as [Hyl|Hun].
      - by apply (Hdis q q2 l l2 ltac:(done) Hl Hl2 y).
      - by apply (Hun _ _ Hl2). }
    intros q1 q2 l1 l2 Hne.
    destruct (decide (q1 = q)) as [->|Hne1];
      destruct (decide (q2 = q)) as [->|Hne2]; [done|..];
      rewrite ?lookup_insert_eq, ?lookup_insert_ne by done.
    + intros [= <-] Hl2. by apply Hnew with q2.
    + intros Hl1 [= <-] y Hy1 Hy2. by apply (Hnew q1 l1 Hne1 Hl1 y).
    + by apply Hdis.
Qed.

Lemma syncs_lookup m q qv :
  queues m !! q = Some qv → syncs m !! q = Some (sync_of qv).
Proof. intros H. unfold syncs. by rewrite lookup_fmap, H. Qed.

Lemma syncs_insert fl Q tr q qv' :
  syncs (mkMem fl (<[q := qv']> Q) tr) = <[q := sync_of qv']> (sync_of <$> Q).
Proof. unfold syncs. cbn. by rewrite fmap_insert. Qed.

Lemma syncs_insert_same m fl tr q qv qv' :
  queues m !! q = Some qv → sync_of qv' = sync_of qv →
  syncs (mkMem fl (<[q := qv']> (queues m)) tr) = syncs m.
Proof.
  intros Hq Hs. rewrite syncs_insert, Hs. apply insert_id.
  by apply syncs_lookup.
Qed.

Lemma mutex_of_syncs m q s :
  mutex_of m q = Some s ↔ ∃ c, syncs m !! q = Some (s, c).
Proof.
  unfold mutex_of, syncs. rewrite lookup_fmap.
  destruct (queues m !! q) as [qv|]; cbn; [|naive_solver].
  unfold sync_of. naive_solver.
Qed.

Lemma syncs_queue m q s c :
  syncs m !! q = Some (s, c) →
  ∃ qv, queues m !! q = Some qv ∧ mutex_q qv = s ∧ cond_q qv = c.
Proof.
  unfold syncs. rewrite lookup_fmap.
  destruct (queues m !! q) as [qv|]; cbn; [|done].
  unfold sync_of. intros [= <- <-]. eauto.
Qed.

Lemma state_rep_sync m L q qv qv' tr' :
  state_rep m L → queues m !! q = Some qv →
  top qv' = top qv → bot qv' = bot qv → len qv' = len qv →
  state_rep (mkMem (flows m) (<[q := qv']> (queues m)) tr') L.
Proof.
  intros Hrep Hq Ht Hb Hl.
  destruct (rep_queues _ _ Hrep _ _ Hq) as (l & HL & [? ? ? ? ?]).
  rewrite <- (insert_id L q l HL).
  eapply state_rep_update; eauto.
  constructor; congruence.
Qed.

(** ** The operations on the whole memory *)

Lemma lock_rep cfg m L q c :
  state_rep m L → syncs m !! q = Some (MutexFree, c) →
  ∃ m', lock_mutex_q cfg (Some q) m = Done tt m'
    ∧ state_rep m' L
    ∧ flows m' = flows m
    ∧ syncs m' = <[q := (MutexHeld, c)]> (syncs m)
    ∧ trace m' = trace m ++ [EvLock q].
Proof.
  intros Hrep Hs. destruct (syncs_queue _ _ _ _ Hs) as (qv & Hq & Hmu & Hc).
  rewrite lock_mutex_q_eq, (SCMutexLock_Done _ _ _ Hq Hmu).
  eexists. split; [done|]. split; [by eapply state_rep_sync|].
  split; [done|]. split; [|done].
  rewrite syncs_insert. unfold sync_of. cbn. by rewrite Hc.
Qed.

Lemma unlock_rep cfg m L q c :
  state_rep m L → syncs m !! q = Some (MutexHeld, c) →
  ∃ m', unlock_mutex_q cfg (Some q) m = Done tt m'
    ∧ state_rep m' L
    ∧ flows m' = flows m
    ∧ syncs m' = <[q := (MutexFree, c)]> (syncs m)
    ∧ trace m' = trace m ++ [EvUnlock q].
Proof.
  intros Hrep Hs. destruct (syncs_queue _ _ _ _ Hs) as (qv & Hq & Hmu & Hc).
  rewrite unlock_mutex_q_eq, (SCMutexUnlock_Done _ _ _ Hq Hmu).
  eexists. split; [done|]. split; [by eapply state_rep_sync|].
  split; [done|]. split; [|done].
  rewrite syncs_insert. unfold sync_of. cbn. by rewrite Hc.
Qed.

Lemma FlowEnqueue_rep cfg m L q l f :
  state_rep m L → L !! q = Some l →
  flows m !! f = Some (mkFlow None None) → unowned L f →
  ∃ m', FlowEnqueue cfg (Some q) (Some f) m = Done tt m'
    ∧ state_rep m' (<[q := f :: l]> L)
    ∧ syncs m' = syncs m
    ∧ trace m' = trace m
    ∧ (∀ y, y ≠ f → y ∉ l → flows m' !! y = flows m !! y).
Proof.
  intros Hrep Hl Hf Hun.
  destruct (state_rep_lookup _ _ _ _ Hrep Hl) as (qv & Hq & Hqrep).
  destruct (FlowEnqueue_spec cfg m q qv f l Hq Hqrep Hf (Hun _ _ Hl))
    as (fl' & qv' & -> & Hrep' & Hframe & Hmu & Hc).
  eexists. split; [done|]. split; [|split; [|done]].
  - eapply state_rep_update; eauto.
    + intros y _ Hy. apply Hframe; set_solver.
    + intros y [->|Hy]%elem_of_cons; eauto.
  - eapply syncs_insert_same; [done|]. unfold sync_of. congruence.
Qed.

Lemma FlowDequeue_rep cfg m L q l x c :
  state_rep m L → L !! q = Some (l ++ [x]) →
  syncs m !! q = Some (MutexFree, c) →
  ∃ m', FlowDequeue cfg (Some q) m = Done (Some x) m'
    ∧ state_rep m' (<[q := l]> L)
    ∧ syncs m' = syncs m
    ∧ trace m' = trace m ++ [EvLock q; EvUnlock q]
    ∧ flows m' !! x = Some (mkFlow None None)
    ∧ (∀ y, y ∉ l ++ [x] → flows m' !! y = flows m !! y).
Proof.
  intros Hrep Hl Hs.
  destruct (state_rep_lookup _ _ _ _ Hrep Hl) as (qv & Hq & Hqrep).
  assert (mutex_q qv = MutexFree) as Hmu.
  { destruct (syncs_queue _ _ _ _ Hs) as (qv2 & Hq2 & Hmu & _). congruence. }
  destruct (FlowDequeue_spec cfg m q qv l x Hq Hqrep Hmu)
    as (fl' & qv' & -> & Hrep' & Hx & Hframe & Hsync & Hlen).
  eexists. split; [done|]. split; [|split; [|done]].
  - eapply state_rep_update; eauto.
    intros y Hy. left. set_solver.
  - by eapply syncs_insert_same.
Qed.

Lemma filter_absent (l : list loc) f :
  f ∉ l → filter (λ x, x ≠ f) l = l.
Proof.
  induction l as [|x l IH]; [done|]. intros Hf.
  rewrite filter_cons_True by (intros ->; apply Hf; left).
  f_equal. apply IH. intros Hin. apply Hf. by right.
Qed.

Lemma filter_middle (l1 l2 : list loc) f :
  NoDup (l1 ++ f :: l2) → filter (λ x, x ≠ f) (l1 ++ f :: l2) = l1 ++ l2.
Proof.
  intros Hnd. apply NoDup_app in Hnd as (_ & H1 & [H2 _]%NoDup_cons).
  rewrite filter_app, filter_cons_False by (by intros []).
  rewrite !filter_absent; [done..|].
  intros Hin. apply (H1 f Hin). left.
Qed.

Lemma requeue_remove_rep m L a la f :
  state_rep m L → L !! a = Some la → f ∈ la →
  ∃ m', requeue_remove (Some f) (Some a) m = Done tt m'
    ∧ state_rep m' (<[a := filter (λ x, x ≠ f) la]> L)
    ∧ syncs m' = syncs m
    ∧ trace m' = trace m
    ∧ flows m' !! f = Some (mkFlow None None)
    ∧ (∀ y, y ∉ la → flows m' !! y = flows m !! y).
Proof.
  intros Hrep Hl Hf.
  destruct (state_rep_lookup _ _ _ _ Hrep Hl) as (qv & Hq & Hqrep).
  apply list_elem_of_split in Hf as (l1 & l2 & ->).
  rewrite (filter_middle _ _ _ (rep_nodup _ _ _ Hqrep)).
  destruct (requeue_remove_spec m a qv l1 f l2 Hq Hqrep)
    as (fl' & qv' & -> & Hrep' & Hx & Hframe & Hsync & Hlen).
  eexists. split; [done|]. split; [|split; [|done]].
  - eapply state_rep_update; eauto.
    intros y Hy. left. set_solver.
  - by eapply syncs_insert_same.
Qed.

Lemma requeue_append_rep cfg m L b lb f :
  state_rep m L → L !! b = Some lb →
  is_Some (flows m !! f) → unowned L f →
  ∃ m', requeue_append cfg (Some f) (Some b) m = Done tt m'
    ∧ state_rep m' (<[b := lb ++ [f]]> L)
    ∧ syncs m' = syncs m
    ∧ trace m' = trace m
    ∧ (∀ y, y ≠ f → y ∉ lb → flows m' !! y = flows m !! y).
Proof.
  intros Hrep Hl [fv Hf] Hun.
  destruct (state_rep_lookup _ _ _ _ Hrep Hl) as (qv & Hq & Hqrep).
  destruct (requeue_append_spec cfg m b qv lb f fv Hq Hqrep Hf (Hun _ _ Hl))
    as (fl' & qv' & -> & Hrep' & Hframe & Hsync & Hlen).
  eexists. split; [done|]. split; [|split; [|split; [done|]]].
  - eapply state_rep_update; eauto.
    intros y [Hy| ->%list_elem_of_singleton]%elem_of_app; eauto.
  - by eapply syncs_insert_same.
  - intros y Hy1 Hy2. cbn. apply Hframe. set_solver.
Qed.

Lemma unowned_after_remove m L a la f :
  state_rep m L → L !! a = Some la → f ∈ la →
  unowned (<[a := filter (λ x, x ≠ f) la]> L) f.
Proof.
  intros Hrep Hl Hf q l. destruct (decide (q = a)) as [->|Hne].
  - rewrite lookup_insert_eq. intros [= <-].
    rewrite list_elem_of_filter. tauto.
  - rewrite lookup_insert_ne by done. intros Hq Hin.
    by apply (rep_disjoint _ _ Hrep a q la l ltac:(done) Hl Hq f).
Qed.

(** ** Transfer on the whole memory *)

Lemma requeue_src_rep cfg m L a (dstq : ptr) la f need sa c :
  state_rep m L → L !! a = Some la → f ∈ la →
  syncs m !! a = Some (sa, c) → (need = 1%Z → sa = MutexFree) →
  ∃ m',
    (when (need =? 1)%Z (lock_mutex_q cfg (Some a));;;
     requeue_remove (Some f) (Some a);;;
     when (bool_decide (Some a ≠ dstq) && (need =? 1)%Z)
       (unlock_mutex_q cfg (Some a))) m = Done tt m'
    ∧ state_rep m' (<[a := filter (λ x, x ≠ f) la]> L)
    ∧ syncs m' =
        (if (need =? 1)%Z && bool_decide (Some a = dstq)
         then <[a := (MutexHeld, c)]> (syncs m) else syncs m)
    ∧ trace m' = trace m ++
        (if (need =? 1)%Z then [EvLock a] else []) ++
        (if bool_decide (Some a ≠ dstq) && (need =? 1)%Z then [EvUnlock a] else [])
    ∧ flows m' !! f = Some (mkFlow None None)
    ∧ (∀ y, y ∉ la → flows m' !! y = flows m !! y).
Proof.
  intros Hrep Hl Hf Hs Hfree.
  destruct (need =? 1)%Z eqn:Hneed.
  - apply Z.eqb_eq in Hneed. rewrite (Hfree Hneed) in Hs.
    destruct (lock_rep cfg m L a c Hrep Hs) as (m1 & E1 & R1 & F1 & S1 & T1).
    rewrite when_true, (bind_Done _ _ _ _ _ E1).
    destruct (requeue_remove_rep m1 L a la f R1 Hl Hf)
      as (m2 & E2 & R2 & S2 & T2 & Hf2 & Fr2).
    rewrite (bind_Done _ _ _ _ _ E2).
    rewrite andb_true_r, andb_true_l. case_bool_decide as Hab.
    + assert (syncs m2 !! a = Some (MutexHeld, c)) as Hs2.
      { by rewrite S2, S1, lookup_insert_eq. }
      destruct (unlock_rep cfg m2 _ a c R2 Hs2) as (m3 & E3 & R3 & F3 & S3 & T3).
      rewrite when_true, E3. exists m3. split; [done|]. split; [done|].
      rewrite bool_decide_eq_false_2 by tauto.
      split; [|split; [|split]].
      * rewrite S3, S2, S1, insert_insert_eq. by apply insert_id.
      * by rewrite T3, T2, T1, <- app_assoc.
      * by rewrite F3.
      * intros y Hy. by rewrite F3, Fr2, F1.
    + rewrite when_false. exists m2. split; [done|]. split; [done|].
      rewrite bool_decide_eq_true_2 by (by destruct (decide (Some a = dstq))).
      split; [by rewrite S2, S1|]. split; [by rewrite T2, T1, app_nil_r|].
      split; [done|]. intros y Hy. by rewrite Fr2, F1.
  - rewrite when_false, bind_ret.
    destruct (requeue_remove_rep m L a la f Hrep Hl Hf)
      as (m2 & E2 & R2 & S2 & T2 & Hf2 & Fr2).
    rewrite (bind_Done _ _ _ _ _ E2), andb_false_r, when_false.
    exists m2. split; [done|]. split; [done|]. split; [done|].
    split; [by rewrite T2, app_nil_r|]. done.
Qed.

Lemma requeue_dst_rep cfg m L (srcq : ptr) b lb f c :
  state_rep m L → L !! b = Some lb →
  is_Some (flows m !! f) → unowned L f →
  syncs m !! b =
    Some (if bool_decide (srcq ≠ Some b) then MutexFree else MutexHeld, c) →
  ∃ m',
    (when (bool_decide (srcq ≠ Some b)) (lock_mutex_q cfg (Some b));;;
     requeue_append cfg (Some f) (Some b);;;
     unlock_mutex_q cfg (Some b)) m = Done tt m'
    ∧ state_rep m' (<[b := lb ++ [f]]> L)
    ∧ syncs m' = <[b := (MutexFree, c)]> (syncs m)
    ∧ trace m' = trace m ++
        (if bool_decide (srcq ≠ Some b) then [EvLock b] else []) ++ [EvUnlock b]
    ∧ (∀ y, y ≠ f → y ∉ lb → flows m' !! y = flows m !! y).
Proof.
  intros Hrep Hl Hf Hun Hs.
  destruct (bool_decide (srcq ≠ Some b)).
  - destruct (lock_rep cfg m L b c Hrep Hs) as (m1 & E1 & R1 & F1 & S1 & T1).
    rewrite when_true, (bind_Done _ _ _ _ _ E1).
    rewrite <- F1 in Hf.
    destruct (requeue_append_rep cfg m1 L b lb f R1 Hl Hf Hun)
      as (m2 & E2 & R2 & S2 & T2 & Fr2).
    rewrite (bind_Done _ _ _ _ _ E2).
    assert (syncs m2 !! b = Some (MutexHeld, c)) as Hs2.
    { by rewrite S2, S1, lookup_insert_eq. }
    destruct (unlock_rep cfg m2 _ b c R2 Hs2) as (m3 & E3 & R3 & F3 & S3 & T3).
    rewrite E3. exists m3. split; [done|]. split; [done|].
    split; [by rewrite S3, S2, S1, insert_insert_eq|].
    split; [by rewrite T3, T2, T1, <- app_assoc|].
    intros y Hy1 Hy2. by rewrite F3, Fr2, F1.
  - rewrite when_false, bind_ret.
    destruct (requeue_append_rep cfg m L b lb f Hrep Hl Hf Hun)
      as (m2 & E2 & R2 & S2 & T2 & Fr2).
    rewrite (bind_Done _ _ _ _ _ E2).
    assert (syncs m2 !! b = Some (MutexHeld, c)) as Hs2 by (by rewrite S2).
    destruct (unlock_rep cfg m2 _ b c R2 Hs2) as (m3 & E3 & R3 & F3 & S3 & T3).
    rewrite E3. exists m3. split; [done|]. split; [done|].
    split; [by rewrite S3, S2|].
    split; [by rewrite T3, T2|].
    intros y Hy1 Hy2. by rewrite F3, Fr2.
Qed.

Lemma alter_lookup_insert {A} (g : A → A) (L : gmap loc A) q x :
  L !! q = Some x → alter g q L = <[q := g x]> L.
Proof.
  intros Hq. apply map_eq. intros i. destruct (decide (i = q)) as [->|Hne].
  - by rewrite lookup_alter_eq, lookup_insert_eq, Hq.
  - by rewrite lookup_alter_ne, lookup_insert_ne.
Qed.

Lemma BUG_ON_dst cfg (b : loc) m :
  when (debug cfg) (BUG_ON (bool_decide (Some b = None))) m = Done tt m.
Proof. by destruct (debug cfg). Qed.

Lemma state_rep_of_syncs m L q s c :
  state_rep m L → syncs m !! q = Some (s, c) → ∃ l, L !! q = Some l.
Proof.
  intros Hrep Hs. destruct (syncs_queue _ _ _ _ Hs) as (qv & Hq & _).
  destruct (rep_queues _ _ Hrep _ _ Hq) as (l & Hl & _). eauto.
Qed.

Lemma unowned_filter L a la f y :
  L !! a = Some la → unowned L y →
  unowned (<[a := filter (λ x, x ≠ f) la]> L) y.
Proof.
  intros Hla Hun q l. destruct (decide (q = a)) as [->|Hne].
  - rewrite lookup_insert_eq. intros [= <-].
    rewrite list_elem_of_filter. intros [_ Hin]. by apply (Hun _ _ Hla).
  - rewrite lookup_insert_ne by done. apply Hun.
Qed.

Lemma FlowRequeue_rep cfg m L f srcq b need :
  state_rep m L → op_pre m L (Transfer f srcq b need) →
  ∃ m' s c,
    FlowRequeue cfg (Some f) srcq (Some b) need m = Done tt m'
    ∧ state_rep m' (abs_transfer f srcq b L)
    ∧ syncs m !! b = Some (s, c)
    ∧ syncs m' = <[b := (MutexFree, c)]> (syncs m)
    ∧ trace m' = trace m ++ transfer_events srcq b need
    ∧ (∀ y, y ≠ f → unowned L y → flows m' !! y = flows m !! y).
Proof.
  intros Hrep Hpre. unfold FlowRequeue, abs_transfer, transfer_events.
  rewrite (bind_Done _ _ _ _ _ (BUG_ON_dst cfg b m)).
  destruct srcq as [a|]; cbn [op_pre] in Hpre.
  - destruct Hpre as [(la & Hla & Hf) Hlocks].
    rewrite (alter_lookup_insert _ _ _ _ Hla).
    pose proof (unowned_after_remove _ _ _ _ _ Hrep Hla Hf) as Hun1.
    destruct (state_rep_lookup _ _ _ _ Hrep Hla) as (qva & Hqa & _).
    pose proof (syncs_lookup _ _ _ Hqa) as Hsa. unfold sync_of in Hsa.
    destruct (decide (a = b)) as [<-|Hab].
    + apply mutex_of_syncs in Hlocks as [c Hc].
      destruct (requeue_src_rep cfg m L a (Some a) la f need _ c Hrep Hla Hf Hc)
        as (m1 & E1 & R1 & S1 & T1 & Hf1 & Fr1).
      { intros ->. done. }
      rewrite (bind_Done _ _ _ _ _ E1).
      rewrite (bool_decide_eq_true_2 (Some a = Some a)), andb_true_r in S1 by done.
      destruct (requeue_dst_rep cfg m1 _ (Some a) a _ f c R1
                  (lookup_insert_eq _ _ _)) as (m2 & E2 & R2 & S2 & T2 & Fr2);
        [by rewrite Hf1|done|..].
      { rewrite (bool_decide_eq_false_2 (Some a ≠ Some a)) by (by intros []).
        rewrite S1. destruct (need =? 1)%Z; [by rewrite lookup_insert_eq|done]. }
      rewrite E2. eexists m2, _, c. split; [done|].
      split. { by rewrite (alter_lookup_insert _ _ _ _ (lookup_insert_eq _ _ _)). }
      split; [done|]. split; [|split].
      * rewrite S2, S1. destruct (need =? 1)%Z; [by rewrite insert_insert_eq|done].
      * by rewrite T2, T1, <- !app_assoc.
      * intros y Hy Hun. rewrite Fr2, Fr1; [done|by apply (Hun _ _ Hla)|done|].
        rewrite list_elem_of_filter. intros [_ Hin]. by apply (Hun _ _ Hla).
    + destruct Hlocks as [Hfa Hfb].
      apply mutex_of_syncs in Hfb as [cb Hcb].
      destruct (state_rep_of_syncs _ _ _ _ _ Hrep Hcb) as [lb Hlb].
      destruct (requeue_src_rep cfg m L a (Some b) la f need _ _ Hrep Hla Hf Hsa)
        as (m1 & E1 & R1 & S1 & T1 & Hf1 & Fr1).
      { intros Hn. apply Hfa, mutex_of_syncs in Hn as [c Hc]. congruence. }
      rewrite (bind_Done _ _ _ _ _ E1).
      rewrite (bool_decide_eq_false_2 (Some a = Some b)), andb_false_r in S1
        by congruence.
      assert (<[a := filter (λ x, x ≠ f) la]> L !! b = Some lb) as Hlb1.
      { by rewrite lookup_insert_ne. }
      destruct (requeue_dst_rep cfg m1 _ (Some a) b _ f cb R1 Hlb1)
        as (m2 & E2 & R2 & S2 & T2 & Fr2); [by rewrite Hf1|done|..].
      { rewrite (bool_decide_eq_true_2 (Some a ≠ Some b)) by congruence.
        by rewrite S1. }
      rewrite E2. eexists m2, _, cb. split; [done|].
      split. { by rewrite (alter_lookup_insert _ _ _ _ Hlb1). }
      split; [done|]. split; [by rewrite S2, S1|]. split.
      * by rewrite T2, T1, <- !app_assoc.
      * intros y Hy Hun. rewrite Fr2, Fr1; [done|by apply (Hun _ _ Hla)|done|].
        by apply (Hun _ _ Hlb).
  - destruct Hpre as (Hf & Hun & Hfb). rewrite bind_ret.
    apply mutex_of_syncs in Hfb as [cb Hcb].
    destruct (state_rep_of_syncs _ _ _ _ _ Hrep Hcb) as [lb Hlb].
    destruct (requeue_dst_rep cfg m L None b lb f cb Hrep Hlb Hf Hun)
      as (m2 & E2 & R2 & S2 & T2 & Fr2).
    { by rewrite (bool_decide_eq_true_2 (None ≠ Some b)). }
    rewrite E2. eexists m2, _, cb. split; [done|].
    split. { by rewrite (alter_lookup_insert _ _ _ _ Hlb). }
    split; [done|]. split; [done|]. split; [done|].
    intros y Hy Hun'. apply Fr2; [done|]. by apply (Hun' _ _ Hlb).
Qed.

(** ** The invariants of the specification follow from the representation *)

Lemma reach_next_dll fl prv l :
  dll fl prv l None → reach lnext (length l) fl (first_of l None) = Some l.
Proof.
  revert prv. induction l as [|x l IH]; intros prv; [done|].
  cbn. intros [Hx Hl]. rewrite Hx. cbn. by rewrite (IH _ Hl).
Qed.

Lemma reach_prev_dll fl l nxt :
  dll fl None l nxt →
  reach lprev (length l) fl (last_of None l) = Some (reverse l).
Proof.
  revert nxt. induction l as [|x l IH] using rev_ind; intros nxt; [done|].
  intros [Hl [Hx _]]%dll_app. cbn in Hx.
  rewrite last_of_snoc, length_app, Nat.add_comm. cbn.
  rewrite Hx. cbn. rewrite (IH _ Hl). by rewrite reverse_snoc.
Qed.

Lemma first_of_head (l : list loc) : first_of l None = head l.
Proof. by destruct l. Qed.
Lemma last_of_last (l : list loc) : last_of None l = last l.
Proof. unfold last_of. by destruct (last l). Qed.

Lemma wrap32_small n : (0 ≤ n < 2 ^ 32)%Z → wrap32 n = n.
Proof. intros. unfold wrap32, wrap. by apply Z.mod_small. Qed.

Lemma queue_rep_inv fl qv l :
  queue_rep fl qv l → (Z.of_nat (length l) < 2 ^ 32)%Z → queue_inv fl qv.
Proof.
  intros [Hdll Hnd Htop Hbot Hlen] Hb.
  rewrite wrap32_small in Hlen by lia.
  constructor.
  - rewrite Htop, Hbot, last_None. by destruct l.
  - rewrite Hbot, Hlen, last_None. destruct l; cbn; [tauto|].
    split; [done|lia].
  - intros t. rewrite Htop. destruct l as [|x l]; [done|].
    cbn. intros [= <-]. destruct Hdll as [-> _]. done.
  - intros b. rewrite Hbot. destruct l as [|x l _] using rev_ind; [done|].
    rewrite last_snoc. intros [= <-].
    apply dll_app in Hdll as [_ [-> _]]. done.
  - exists (length l). unfold count_reach.
    rewrite Htop, <- first_of_head, (reach_next_dll _ _ _ Hdll). cbn.
    by rewrite Hlen.
  - exists (length l). unfold count_reach.
    rewrite Hbot, <- last_of_last, (reach_prev_dll _ _ _ Hdll). cbn.
    by rewrite length_reverse, Hlen.
Qed.

Lemma state_rep_inv m L :
  state_rep m L → bounded L →
  ∀ q qv, queues m !! q = Some qv → queue_inv (flows m) qv.
Proof.
  intros Hrep Hb q qv Hq.
  destruct (rep_queues _ _ Hrep _ _ Hq) as (l & Hl & Hqrep).
  eapply queue_rep_inv; [done|]. by eapply Hb.
Qed.

(** ** The example memories are well formed *)

Lemma ex_queues_cases (P : loc → Prop) (q : loc) :
  P 1%positive → P 2%positive →
  (∀ q', q' ≠ 1%positive → q' ≠ 2%positive → P q') → P q.
Proof.
  intros H1 H2 H3.
  destruct (decide (q = 1%positive)) as [->|?]; [done|].
  destruct (decide (q = 2%positive)) as [->|?]; [done|]. by apply H3.
Qed.

Lemma ex_L_lookup q l :
  ex_L !! q = Some l →
  (q = 1%positive ∧ l = [1%positive; 2%positive; 3%positive]) ∨ l = [].
Proof.
  unfold ex_L. pattern q. apply ex_queues_cases; clear q.
  - intros [= <-]. by left.
  - intros [= <-]. by right.
  - intros q ? ?. by rewrite !lookup_insert_ne, lookup_empty.
Qed.

Lemma ex_L0_lookup q l : ex_L0 !! q = Some l → l = [].
Proof.
  unfold ex_L0. pattern q. apply ex_queues_cases; clear q.
  - by intros [= <-].
  - by intros [= <-].
  - intros q ? ?. by rewrite !lookup_insert_ne, lookup_empty.
Qed.

Lemma ex_state_rep mu :
  state_rep
    (mkMem ex_flows
       (<[1%positive := ex_queue1 mu]> (<[2%positive := ex_queue2]> ∅)) [])
    ex_L.
Proof.
  constructor; cbn [flows queues].
  - intros q. pattern q. apply ex_queues_cases; clear q.
    + intros qv [= <-]. eexists. split; [done|].
      constructor; cbn; try done.
      constructor; cbn; try done; compute_done.
    + intros qv [= <-]. eexists. split; [done|].
      constructor; cbn; try done; compute_done.
    + intros q ? ? qv. by rewrite !lookup_insert_ne, lookup_empty.
  - intros q. pattern q. apply ex_queues_cases; clear q; try done.
    intros q ? ? l. unfold ex_L. by rewrite !lookup_insert_ne, lookup_empty.
  - intros q1 q2 l1 l2 Hne H1 H2.
    apply ex_L_lookup in H1 as [[-> ->]| ->]; [|by intros x Hx%elem_of_nil].
    apply ex_L_lookup in H2 as [[-> ->]| ->]; [done|].
    by intros x _ Hx%elem_of_nil.
Qed.

Lemma ex_state_rep0 : state_rep ex_mem0 ex_L0.
Proof.
  constructor; cbn [flows queues ex_mem0].
  - intros q. pattern q. apply ex_queues_cases; clear q.
    + intros qv [= <-]. eexists. split; [done|].
      constructor; cbn; try done; compute_done.
    + intros qv [= <-]. eexists. split; [done|].
      constructor; cbn; try done; compute_done.
    + intros q ? ? qv. by rewrite !lookup_insert_ne, lookup_empty.
  - intros q. pattern q. apply ex_queues_cases; clear q; try done.
    intros q ? ? l. unfold ex_L0. by rewrite !lookup_insert_ne, lookup_empty.
  - intros q1 q2 l1 l2 Hne H1%ex_L0_lookup H2%ex_L0_lookup. subst.
    by intros x Hx%elem_of_nil.
Qed.

(** ** Transfer *)

Lemma dll_adjacent fl prv l1 p n l2 nxt :
  dll fl prv (l1 ++ p :: n :: l2) nxt →
  lnext <$> fl !! p = Some (Some n) ∧ lprev <$> fl !! n = Some (Some p).
Proof. intros [_ [-> [-> _]]]%dll_app. done. Qed.

Lemma abs_transfer_insert L f a b la lb :
  L !! a = Some la →
  <[a := filter (λ x, x ≠ f) la]> L !! b = Some lb →
  abs_transfer f (Some a) b L =
    <[b := lb ++ [f]]> (<[a := filter (λ x, x ≠ f) la]> L).
Proof.
  intros Hla Hlb. unfold abs_transfer.
  rewrite (alter_lookup_insert _ _ _ _ Hla).
  by apply (alter_lookup_insert (λ l, l ++ [f])).
Qed.

Lemma length_filter_member (l : list loc) f :
  NoDup l → f ∈ l → S (length (filter (λ x, x ≠ f) l)) = length l.
Proof.
  intros Hnd (l1 & l2 & ->)%list_elem_of_split.
  rewrite filter_middle by done. rewrite !length_app. cbn. lia.
Qed.

(** C1. Transfer postcondition: a record [f] anywhere in the source queue
    [a] is unlinked from it (the ends of [a] follow the sequence without
    [f], two neighbours of [f] are linked to each other, the length of [a]
    goes down by one) and is appended at [bot] of the destination [b] (which
    also becomes its [top] when [b] was empty, its length going up by
    one), the links of [f] being those of the last record of [b].  The
    block that unlinks [f], taken on its own, leaves both links of [f]
    unset. *)
Theorem transfer_postcondition cfg m L f a b need la qa qb :
  state_rep m L → L !! a = Some la →
  queues m !! a = Some qa → queues m !! b = Some qb →
  op_pre m L (Transfer f (Some a) b need) →
  ∃ m' qa' qb' lb,
    FlowRequeue cfg (Some f) (Some a) (Some b) need m = Done tt m'
    ∧ queues m' !! a = Some qa' ∧ queues m' !! b = Some qb'
    ∧ <[a := filter (λ x, x ≠ f) la]> L !! b = Some lb
    ∧ state_rep m' (<[b := lb ++ [f]]> (<[a := filter (λ x, x ≠ f) la]> L))
    ∧ (a ≠ b →
       top qa' = head (filter (λ x, x ≠ f) la)
       ∧ bot qa' = last (filter (λ x, x ≠ f) la)
       ∧ len qa' = wrap32 (len qa - 1)
       ∧ L !! b = Some lb
       ∧ len qb' = wrap32 (len qb + 1))
    ∧ (a = b → len qb' = len qb)
    ∧ (∀ l1 p n l2, la = l1 ++ p :: f :: n :: l2 →
       lnext <$> flows m' !! p = Some (Some n)
       ∧ lprev <$> flows m' !! n = Some (Some p))
    ∧ flows m' !! f = Some (mkFlow (last lb) None)
    ∧ bot qb' = Some f
    ∧ top qb' = head (lb ++ [f])
    ∧ (∃ m1, requeue_remove (Some f) (Some a) m = Done tt m1
             ∧ flows m1 !! f = Some (mkFlow None None)
             ∧ state_rep m1 (<[a := filter (λ x, x ≠ f) la]> L)).
Proof.
  intros Hrep Hla Hqa Hqb Hpre.
  pose proof Hpre as [(la0 & Hla0 & Hf) _]. rewrite Hla in Hla0.
  injection Hla0 as <-.
  destruct (FlowRequeue_rep cfg m L f (Some a) b need Hrep Hpre)
    as (m' & s & c & E & R & _ & _ & _ & _).
  destruct (rep_queues _ _ Hrep _ _ Hqa) as (la1 & Hla1 & Hrepa).
  rewrite Hla in Hla1. injection Hla1 as <-.
  destruct (rep_queues _ _ Hrep _ _ Hqb) as (lb0 & Hlb0 & Hrepb).
  set (la' := filter (λ x, x ≠ f) la) in *.
  assert (∃ lb, <[a := la']> L !! b = Some lb
                ∧ (a ≠ b → lb = lb0) ∧ (a = b → lb = la')) as (lb & Hlb & Hne & Heq).
  { destruct (decide (a = b)) as [<-|Hab].
    - exists la'. by rewrite lookup_insert_eq.
    - exists lb0. by rewrite lookup_insert_ne. }
  rewrite (abs_transfer_insert L f a b la lb Hla Hlb) in R.
  destruct (state_rep_lookup _ _ b (lb ++ [f]) R (lookup_insert_eq _ _ _))
    as (qb' & Hqb' & Hrepb').
  assert (∃ qa' la2, queues m' !! a = Some qa' ∧ queue_rep (flows m') qa' la2
            ∧ (a ≠ b → la2 = la') ∧ (a = b → la2 = la' ++ [f] ∧ qa' = qb'))
    as (qa' & la2 & Hqa' & Hrepa' & Hne2 & Heq2).
  { destruct (decide (a = b)) as [<-|Hab].
    - exists qb', (lb ++ [f]). rewrite (Heq eq_refl) in *.
      split; [done|]. split; [done|]. split; [by intros []|]. by intros _.
    - destruct (state_rep_lookup _ _ a la' R) as (qa' & Hqa' & Hrepa').
      { by rewrite lookup_insert_ne, lookup_insert_eq. }
      exists qa', la'. split; [done|]. split; [done|]. split; [done|].
      by intros ?. }
  pose proof (length_filter_member la f (rep_nodup _ _ _ Hrepa) Hf) as Hlen.
  fold la' in Hlen.
  assert (∀ l1 p n l2, la = l1 ++ p :: f :: n :: l2 →
            ∃ l3, la2 = l1 ++ p :: n :: l2 ++ l3) as Hmid.
  { intros l1 p n l2 ->.
    assert (la' = l1 ++ p :: n :: l2) as Hla'.
    { unfold la'. pose proof (rep_nodup _ _ _ Hrepa) as Hnd.
      replace (l1 ++ p :: f :: n :: l2) with ((l1 ++ [p]) ++ f :: n :: l2)
        in * by (by rewrite <- app_assoc).
      rewrite filter_middle by done. by rewrite <- app_assoc. }
    destruct (decide (a = b)) as [Hab|Hab].
    - exists [f]. destruct (Heq2 Hab) as [-> _].
      by rewrite Hla', <- app_assoc.
    - exists []. by rewrite (Hne2 Hab), Hla', app_nil_r. }
  exists m', qa', qb', lb.
  split; [done|]. split; [done|]. split; [done|]. split; [done|].
  split; [done|]. split.
  { intros Hab. rewrite (Hne2 Hab) in Hrepa'. rewrite (Hne Hab) in *.
    split; [apply Hrepa'|]. split; [apply Hrepa'|]. split; [|split; [done|]].
    - rewrite (rep_len _ _ _ Hrepa'), (rep_len _ _ _ Hrepa), wrap32_pred.
      f_equal. lia.
    - rewrite (rep_len _ _ _ Hrepb'), (rep_len _ _ _ Hrepb), wrap32_succ.
      rewrite length_app. f_equal. cbn. lia. }
  split.
  { intros Hab. subst b. rewrite Hqa in Hqb. injection Hqb as <-.
    rewrite (rep_len _ _ _ Hrepb'), (rep_len _ _ _ Hrepa).
    rewrite (Heq eq_refl), length_app. f_equal. cbn. lia. }
  split.
  { intros l1 p n l2 Hl. destruct (Hmid _ _ _ _ Hl) as [l3 ->].
    apply (dll_adjacent _ _ _ _ _ _ _ (rep_dll _ _ _ Hrepa')). }
  split.
  { pose proof (rep_dll _ _ _ Hrepb') as [_ [Hfl _]]%dll_app.
    by rewrite Hfl, last_of_last. }
  split; [by rewrite (rep_bot _ _ _ Hrepb'), last_snoc|].
  split; [apply Hrepb'|].
  destruct (requeue_remove_rep m L a la f Hrep Hla Hf)
    as (m1 & E1 & R1 & _ & _ & Hf1 & _).
  by exists m1.
Qed.

Lemma transfer_postcondition_witness :
  ∃ m', FlowRequeue cfg0 (Some 2%positive) (Some 1%positive) (Some 2%positive) 1
          ex_mem = Done tt m'
        ∧ state_rep m'
            (<[2%positive := [2%positive]]>
               (<[1%positive := [1%positive; 3%positive]]> ex_L)).
Proof.
  destruct (transfer_postcondition cfg0 ex_mem ex_L 2%positive 1%positive
              2%positive 1 [1%positive; 2%positive; 3%positive]
              (ex_queue1 MutexFree) ex_queue2)
    as (m' & qa' & qb' & lb & E & _ & _ & Hlb & R & _).
  - apply ex_state_rep.
  - reflexivity.
  - reflexivity.
  - reflexivity.
  - split; [exists [1%positive; 2%positive; 3%positive]; split;
            [reflexivity | compute_done]|].
    split; [|reflexivity]. reflexivity.
  - exists m'. split; [exact E|].
    injection Hlb as <-. exact R.
Defined.

(** ** Every operation keeps the invariants *)

Lemma state_rep_trace m L tr :
  state_rep m L → state_rep (mkMem (flows m) (queues m) tr) L.
Proof. intros [? ? ?]. by constructor. Qed.

Lemma run_op_rep cfg m L o :
  state_rep m L → op_pre m L o →
  ∃ r m', run_op cfg o m = Done r m' ∧ state_rep m' (abs_op o L).
Proof.
  intros Hrep Hpre. destruct o as [q f|q|f srcq b need]; cbn [run_op abs_op].
  - destruct Hpre as ([l Hl] & Hf & Hun).
    destruct (FlowEnqueue_rep cfg m L q l f Hrep Hl Hf Hun) as (m' & E & R & _).
    rewrite (bind_Done _ _ _ _ _ E). exists None, m'. split; [done|].
    by rewrite (alter_lookup_insert _ _ _ _ Hl).
  - apply mutex_of_syncs in Hpre as [c Hs].
    destruct (state_rep_of_syncs _ _ _ _ _ Hrep Hs) as [l Hl].
    rewrite (alter_lookup_insert _ _ _ _ Hl).
    destruct (list_snoc_cases l) as [->|(l0 & x & ->)].
    + destruct (state_rep_lookup _ _ _ _ Hrep Hl) as (qv & Hq & Hqrep).
      destruct (syncs_queue _ _ _ _ Hs) as (qv2 & Hq2 & Hmu & _).
      rewrite Hq in Hq2. injection Hq2 as <-.
      rewrite (FlowDequeue_empty cfg m q qv Hq (rep_bot _ _ _ Hqrep) Hmu).
      eexists _, _. split; [done|]. cbn. rewrite insert_id by done.
      by apply state_rep_trace.
    + destruct (FlowDequeue_rep cfg m L q l0 x c Hrep Hl Hs) as (m' & E & R & _).
      exists (Some x), m'. split; [done|]. by rewrite removelast_last.
  - destruct (FlowRequeue_rep cfg m L f srcq b need Hrep Hpre)
      as (m' & s & c & E & R & _).
    rewrite (bind_Done _ _ _ _ _ E). by exists None, m'.
Qed.

(** C5. Structural invariant preservation: Insert, Poll-remove and Transfer,
    called under their preconditions on a memory whose queues are
    well-formed doubly-linked sequences, finish and leave such a memory; in
    it, for every queue, [top] is unset iff [bot] is unset iff [len] is 0,
    [top] has no [lprev] and [bot] no [lnext], and [len] counts the records
    reached from [top] along [lnext] and those reached from [bot] along
    [lprev] (as long as no queue holds 2^32 records or more). *)
Theorem invariants_preserved cfg m L o :
  state_rep m L → op_pre m L o → bounded (abs_op o L) →
  ∃ r m',
    run_op cfg o m = Done r m'
    ∧ state_rep m' (abs_op o L)
    ∧ ∀ q qv, queues m' !! q = Some qv → queue_inv (flows m') qv.
Proof.
  intros Hrep Hpre Hb.
  destruct (run_op_rep cfg m L o Hrep Hpre) as (r & m' & E & R).
  exists r, m'. split; [done|]. split; [done|].
  by apply state_rep_inv with (abs_op o L).
Qed.

Lemma ex_transfer_bounded :
  bounded (abs_op (Transfer 2%positive (Some 1%positive) 2%positive 1) ex_L).
Proof.
  intros q l. unfold abs_op.
  assert (abs_transfer 2%positive (Some 1%positive) 2%positive ex_L
          = <[2%positive := [2%positive]]>
              (<[1%positive := [1%positive; 3%positive]]> ex_L)) as ->.
  { by apply (abs_transfer_insert ex_L 2%positive 1%positive 2%positive
                [1%positive; 2%positive; 3%positive] []). }
  pattern q. apply ex_queues_cases; clear q.
  - by intros [= <-].
  - by intros [= <-].
  - intros q ? ?. unfold ex_L. by rewrite !lookup_insert_ne, lookup_empty.
Qed.

Lemma invariants_preserved_witness :
  ∃ r m',
    run_op cfg0 (Transfer 2%positive (Some 1%positive) 2%positive 1) ex_mem
      = Done r m'
    ∧ state_rep m'
        (abs_op (Transfer 2%positive (Some 1%positive) 2%positive 1) ex_L)
    ∧ ∀ q qv, queues m' !! q = Some qv → queue_inv (flows m') qv.
Proof.
  apply (invariants_preserved cfg0 ex_mem ex_L
           (Transfer 2%positive (Some 1%positive) 2%positive 1)).
  - apply ex_state_rep.
  - split; [exists [1%positive; 2%positive; 3%positive]; split;
            [reflexivity | compute_done]|].
    split; reflexivity.
  - apply ex_transfer_bounded.
Defined.

(** ** Poll-remove *)

(** C6. Poll-remove postcondition: on a queue whose [bot] is unset the call
    returns [NULL] at once, having only taken and released the mutex (no
    wait on the condition), and leaves the records and the queues as they
    were; otherwise it returns the record at [bot], takes it out of the
    sequence, clears its two links and lowers [len] by one.  Both are
    finished calls, not faults. *)
Theorem poll_remove_postcondition cfg m q qv :
  queues m !! q = Some qv → mutex_q qv = MutexFree →
  (bot qv = None →
   FlowDequeue cfg (Some q) m =
     Done None (mkMem (flows m) (queues m) (trace m ++ [EvLock q; EvUnlock q])))
  ∧ (∀ L x, state_rep m L → bot qv = Some x →
     ∃ m' qv' l,
       FlowDequeue cfg (Some q) m = Done (Some x) m'
       ∧ L !! q = Some (l ++ [x])
       ∧ state_rep m' (<[q := l]> L)
       ∧ flows m' !! x = Some (mkFlow None None)
       ∧ queues m' !! q = Some qv'
       ∧ len qv' = wrap32 (len qv - 1)
       ∧ syncs m' = syncs m
       ∧ trace m' = trace m ++ [EvLock q; EvUnlock q]).
Proof.
  intros Hq Hmu. split; [intros Hb; by apply FlowDequeue_empty with qv|].
  intros L x Hrep Hbot.
  destruct (rep_queues _ _ Hrep _ _ Hq) as (l & Hl & Hqrep).
  destruct (list_snoc_cases l) as [->|(l0 & y & ->)].
  { rewrite (rep_bot _ _ _ Hqrep) in Hbot. done. }
  assert (y = x) as ->.
  { rewrite (rep_bot _ _ _ Hqrep), last_snoc in Hbot. congruence. }
  pose proof (syncs_lookup _ _ _ Hq) as Hs. unfold sync_of in Hs.
  rewrite Hmu in Hs.
  destruct (FlowDequeue_rep cfg m L q l0 x _ Hrep Hl Hs)
    as (m' & E & R & S & T & Hx & _).
  destruct (state_rep_lookup _ _ q l0 R (lookup_insert_eq _ _ _))
    as (qv' & Hq' & Hqrep').
  exists m', qv', l0. repeat (split; [done|]). split; [|done].
  rewrite (rep_len _ _ _ Hqrep'), (rep_len _ _ _ Hqrep), wrap32_pred.
  f_equal. rewrite length_app. cbn. lia.
Qed.

Lemma poll_remove_postcondition_witness :
  ∃ m', FlowDequeue cfg0 (Some 1%positive) ex_mem = Done (Some 3%positive) m'
        ∧ flows m' !! 3%positive = Some (mkFlow None None)
        ∧ state_rep m' (<[1%positive := [1%positive; 2%positive]]> ex_L).
Proof.
  destruct (poll_remove_postcondition cfg0 ex_mem 1%positive (ex_queue1 MutexFree))
    as [_ H].
  - reflexivity.
  - reflexivity.
  - destruct (H ex_L 3%positive (ex_state_rep MutexFree) eq_refl)
      as (m' & qv' & l & E & Hl & R & Hx & _).
    exists m'. split; [exact E|]. split; [exact Hx|].
    injection Hl as Hl. apply (app_inj_tail [_; _]) in Hl as [<- _].
    exact R.
Defined.

(** ** First in, first out *)

Lemma insert_all_rep cfg rs : ∀ m L q l,
  state_rep m L → L !! q = Some l → NoDup rs →
  (∀ r, r ∈ rs → flows m !! r = Some (mkFlow None None) ∧ unowned L r) →
  ∃ m', insert_all cfg (Some q) rs m = Done tt m'
    ∧ state_rep m' (<[q := reverse rs ++ l]> L)
    ∧ syncs m' = syncs m
    ∧ trace m' = trace m.
Proof.
  induction rs as [|r rs IH]; intros m L q l Hrep Hl Hnd Hfresh.
  - exists m. cbn. by rewrite insert_id.
  - apply NoDup_cons in Hnd as [Hr Hnd].
    destruct (Hfresh r) as [Hfr Hun]; [left|].
    destruct (FlowEnqueue_rep cfg m L q l r Hrep Hl Hfr Hun)
      as (m1 & E1 & R1 & S1 & T1 & Fr1).
    cbn [insert_all]. rewrite (bind_Done _ _ _ _ _ E1).
    destruct (IH m1 (<[q := r :: l]> L) q (r :: l) R1
                (lookup_insert_eq _ _ _) Hnd) as (m2 & E2 & R2 & S2 & T2).
    { intros r' Hr'. destruct (Hfresh r') as [Hfr' Hun']; [by right|].
      assert (r' ≠ r) by (by intros ->).
      split.
      - rewrite Fr1; [done..|]. by apply (Hun' _ _ Hl).
      - intros q' l'. destruct (decide (q' = q)) as [->|Hne].
        + rewrite lookup_insert_eq. intros [= <-].
          intros [?|Hin]%elem_of_cons; [done|]. by apply (Hun' _ _ Hl).
        + rewrite lookup_insert_ne by done. apply Hun'. }
    exists m2. split; [done|].
    rewrite insert_insert_eq in R2. rewrite reverse_cons, <- app_assoc.
    split; [done|]. split; congruence.
Qed.

Lemma poll_n_rep cfg rs : ∀ m L q l c,
  state_rep m L → L !! q = Some (l ++ reverse rs) →
  syncs m !! q = Some (MutexFree, c) →
  ∃ m', poll_n cfg (Some q) (length rs) m = Done (Some <$> rs) m'
    ∧ state_rep m' (<[q := l]> L)
    ∧ syncs m' = syncs m.
Proof.
  induction rs as [|r rs IH]; intros m L q l c Hrep Hl Hs.
  - exists m. cbn. rewrite app_nil_r in Hl. by rewrite insert_id.
  - rewrite reverse_cons, app_assoc in Hl.
    destruct (FlowDequeue_rep cfg m L q _ r c Hrep Hl Hs)
      as (m1 & E1 & R1 & S1 & _).
    cbn [poll_n length]. rewrite (bind_Done _ _ _ _ _ E1).
    rewrite <- S1 in Hs.
    destruct (IH m1 _ q l c R1 (lookup_insert_eq _ _ _) Hs)
      as (m2 & E2 & R2 & S2).
    rewrite (bind_Done _ _ _ _ _ E2). exists m2. split; [done|].
    rewrite insert_insert_eq in R2. split; [done|]. congruence.
Qed.

(** C2. FIFO law: records inserted in the order [rs] into an empty queue
    under its lock come back from as many Poll-remove calls in the same
    order, and the queue is left with [len] 0 and [top] and [bot] unset. *)
Theorem fifo_law cfg m L q rs :
  state_rep m L → L !! q = Some [] → mutex_of m q = Some MutexFree →
  NoDup rs →
  (∀ r, r ∈ rs → flows m !! r = Some (mkFlow None None) ∧ unowned L r) →
  ∃ m' qv',
    (insert_under_lock cfg (Some q) rs;;; poll_n cfg (Some q) (length rs)) m
      = Done (Some <$> rs) m'
    ∧ queues m' !! q = Some qv'
    ∧ len qv' = 0%Z ∧ top qv' = None ∧ bot qv' = None
    ∧ state_rep m' L.
Proof.
  intros Hrep Hl Hmu Hnd Hfresh. unfold insert_under_lock.
  apply mutex_of_syncs in Hmu as [c Hs].
  destruct (lock_rep cfg m L q c Hrep Hs) as (m1 & E1 & R1 & F1 & S1 & T1).
  rewrite !bind_assoc, (bind_Done _ _ _ _ _ E1).
  destruct (insert_all_rep cfg rs m1 L q [] R1 Hl Hnd)
    as (m2 & E2 & R2 & S2 & T2).
  { intros r Hr. rewrite F1. by apply Hfresh. }
  rewrite app_nil_r in R2.
  rewrite !bind_assoc, (bind_Done _ _ _ _ _ E2).
  destruct (unlock_rep cfg m2 _ q c R2) as (m3 & E3 & R3 & F3 & S3 & T3).
  { by rewrite S2, S1, lookup_insert_eq. }
  rewrite (bind_Done _ _ _ _ _ E3).
  destruct (poll_n_rep cfg rs m3 _ q [] c R3 (lookup_insert_eq _ _ _))
    as (m4 & E4 & R4 & S4).
  { by rewrite S3, lookup_insert_eq. }
  rewrite insert_insert_eq, (insert_id L q [] Hl) in R4.
  destruct (state_rep_lookup _ _ _ _ R4 Hl) as (qv' & Hq' & [_ _ Ht Hb Hlen]).
  exists m4, qv'. by repeat (split; [done|]).
Qed.

Lemma fifo_law_witness :
  ∃ m' qv',
    (insert_under_lock cfg0 (Some 1%positive)
       [1%positive; 2%positive; 3%positive];;;
     poll_n cfg0 (Some 1%positive) 3) ex_mem0
      = Done [Some 1%positive; Some 2%positive; Some 3%positive] m'
    ∧ queues m' !! 1%positive = Some qv'
    ∧ len qv' = 0%Z ∧ top qv' = None ∧ bot qv' = None
    ∧ state_rep m' ex_L0.
Proof.
  apply (fifo_law cfg0 ex_mem0 ex_L0 1%positive
           [1%positive; 2%positive; 3%positive]).
  - apply ex_state_rep0.
  - reflexivity.
  - reflexivity.
  - compute_done.
  - intros r Hr. split.
    + repeat (apply elem_of_cons in Hr as [->|Hr]; [reflexivity|]).
      by apply elem_of_nil in Hr.
    + intros q l Hl%ex_L0_lookup. subst. apply not_elem_of_nil.
Defined.

(** ** There and back *)

(** C4. Round trip: moving a record of queue [a] to another queue [b] and
    at once back to [a] leaves it a member of [a] and of no other queue,
    and leaves the lengths of both queues as they were. *)
Theorem transfer_round_trip cfg m L f a b need1 need2 la qa qb :
  state_rep m L → L !! a = Some la → f ∈ la → a ≠ b →
  queues m !! a = Some qa → queues m !! b = Some qb →
  mutex_q qa = MutexFree → mutex_q qb = MutexFree →
  ∃ m' L' qa' qb',
    (FlowRequeue cfg (Some f) (Some a) (Some b) need1;;;
     FlowRequeue cfg (Some f) (Some b) (Some a) need2) m = Done tt m'
    ∧ state_rep m' L'
    ∧ (∃ la', L' !! a = Some la' ∧ f ∈ la')
    ∧ (∀ q l, q ≠ a → L' !! q = Some l → f ∉ l)
    ∧ L' !! b = L !! b
    ∧ queues m' !! a = Some qa' ∧ queues m' !! b = Some qb'
    ∧ len qa' = len qa ∧ len qb' = len qb.
Proof.
  intros Hrep Hla Hf Hab Hqa Hqb Hma Hmb.
  destruct (rep_queues _ _ Hrep _ _ Hqa) as (la0 & Hla0 & Hrepa).
  rewrite Hla in Hla0. injection Hla0 as <-.
  destruct (rep_queues _ _ Hrep _ _ Hqb) as (lb & Hlb & Hrepb).
  assert (f ∉ lb) as Hflb.
  { intros Hin. by apply (rep_disjoint _ _ Hrep a b la lb Hab Hla Hlb f). }
  pose proof (syncs_lookup _ _ _ Hqa) as Hsa.
  pose proof (syncs_lookup _ _ _ Hqb) as Hsb.
  unfold sync_of in Hsa, Hsb. rewrite Hma in Hsa. rewrite Hmb in Hsb.
  set (la' := filter (λ x, x ≠ f) la).
  (* there *)
  destruct (FlowRequeue_rep cfg m L f (Some a) b need1 Hrep)
    as (m1 & s1 & c1 & E1 & R1 & Hs1 & S1 & _).
  { split; [by exists la|]. rewrite decide_False by done.
    split; [intros _|]; apply mutex_of_syncs; eauto. }
  rewrite (bind_Done _ _ _ _ _ E1).
  assert (<[a := la']> L !! b = Some lb) as Hlb1 by (by rewrite lookup_insert_ne).
  rewrite (abs_transfer_insert L f a b la lb Hla Hlb1) in R1. fold la' in R1.
  rewrite Hsb in Hs1. injection Hs1 as <- <-.
  (* and back *)
  set (L1 := <[b := lb ++ [f]]> (<[a := la']> L)) in *.
  assert (L1 !! b = Some (lb ++ [f])) as HL1b by apply lookup_insert_eq.
  assert (L1 !! a = Some la') as HL1a.
  { unfold L1. by rewrite lookup_insert_ne, lookup_insert_eq. }
  destruct (FlowRequeue_rep cfg m1 L1 f (Some b) a need2 R1)
    as (m2 & s2 & c2 & E2 & R2 & Hs2 & S2 & _).
  { split; [exists (lb ++ [f]); split; [done|set_solver]|].
    rewrite decide_False by done.
    split; [intros _|]; apply mutex_of_syncs; rewrite S1.
    - rewrite lookup_insert_eq. eauto.
    - rewrite lookup_insert_ne by done. eauto. }
  assert (filter (λ x, x ≠ f) (lb ++ [f]) = lb) as Hback.
  { rewrite filter_app, filter_absent by done.
    rewrite filter_cons_False by (by intros []). apply app_nil_r. }
  assert (<[b := filter (λ x, x ≠ f) (lb ++ [f])]> L1 !! a = Some la') as HL2a.
  { by rewrite lookup_insert_ne. }
  rewrite (abs_transfer_insert L1 f b a (lb ++ [f]) la' HL1b HL2a), Hback in R2.
  assert (<[a := la' ++ [f]]> (<[b := lb]> L1) = <[a := la' ++ [f]]> L) as HL2.
  { apply map_eq. intros q. unfold L1.
    destruct (decide (q = a)) as [->|?];
      [by rewrite !lookup_insert_eq|rewrite !(lookup_insert_ne _ a) by done].
    destruct (decide (q = b)) as [->|?];
      [by rewrite lookup_insert_eq|by rewrite !lookup_insert_ne]. }
  rewrite HL2 in R2.
  destruct (state_rep_lookup _ _ a _ R2 (lookup_insert_eq _ _ _))
    as (qa' & Hqa' & Hrepa').
  destruct (state_rep_lookup _ _ b lb R2) as (qb' & Hqb' & Hrepb').
  { by rewrite lookup_insert_ne. }
  exists m2, (<[a := la' ++ [f]]> L), qa', qb'.
  split; [done|]. split; [done|]. split.
  { exists (la' ++ [f]). rewrite lookup_insert_eq. split; [done|set_solver]. }
  split.
  { intros q l Hq. rewrite lookup_insert_ne by done. intros Hl Hin.
    by apply (rep_disjoint _ _ Hrep a q la l ltac:(done) Hla Hl f). }
  split; [by rewrite lookup_insert_ne|].
  split; [done|]. split; [done|]. split.
  - rewrite (rep_len _ _ _ Hrepa'), (rep_len _ _ _ Hrepa), length_app.
    pose proof (length_filter_member la f (rep_nodup _ _ _ Hrepa) Hf).
    fold la' in H. f_equal. cbn. lia.
  - by rewrite (rep_len _ _ _ Hrepb'), (rep_len _ _ _ Hrepb).
Qed.

Lemma transfer_round_trip_witness :
  ∃ m' L' qa' qb',
    (FlowRequeue cfg0 (Some 2%positive) (Some 1%positive) (Some 2%positive) 1;;;
     FlowRequeue cfg0 (Some 2%positive) (Some 2%positive) (Some 1%positive) 1)
      ex_mem = Done tt m'
    ∧ state_rep m' L'
    ∧ (∃ la', L' !! 1%positive = Some la' ∧ 2%positive ∈ la')
    ∧ (∀ q l, q ≠ 1%positive → L' !! q = Some l → 2%positive ∉ l)
    ∧ L' !! 2%positive = ex_L !! 2%positive
    ∧ queues m' !! 1%positive = Some qa' ∧ queues m' !! 2%positive = Some qb'
    ∧ len qa' = 3%Z ∧ len qb' = 0%Z.
Proof.
  apply (transfer_round_trip cfg0 ex_mem ex_L 2%positive 1%positive 2%positive
           1 1 [1%positive; 2%positive; 3%positive]
           (ex_queue1 MutexFree) ex_queue2).
  - apply ex_state_rep.
  - reflexivity.
  - compute_done.
  - discriminate.
  - reflexivity.
  - reflexivity.
  - reflexivity.
  - reflexivity.
Defined.

(** ** Lock discipline of Transfer *)

Lemma events_of_app m m' evs :
  trace m' = trace m ++ evs → events_of m m' = evs.
Proof. intros H. unfold events_of. by rewrite H, drop_app_length. Qed.

Ltac count_events :=
  cbn [app];
  repeat first
    [ rewrite filter_cons_True by congruence
    | rewrite filter_cons_False by congruence
    | rewrite filter_nil ];
  cbn [length last]; try done; try lia.

Lemma both_held_released a b :
  a ≠ b →
  both_held a b false false [EvLock a; EvUnlock a; EvLock b; EvUnlock b] = false.
Proof.
  intros Hab. cbn.
  destruct (decide (a = a)), (decide (a = b)), (decide (b = a)),
    (decide (b = b)); cbn; congruence.
Qed.

Lemma both_held_kept a b h :
  a ≠ b → both_held a b h false [EvLock b; EvUnlock b] = h.
Proof.
  intros Hab. cbn.
  destruct (decide (b = a)), (decide (b = b)); cbn; try congruence.
  by destruct h.
Qed.

Lemma is_held_free m q : mutex_of m q = Some MutexFree → is_held m q = false.
Proof. intros H. unfold is_held. by rewrite H. Qed.

(** The claim as the specification words it fails: with the flag saying
    that the caller already holds the lock of the source, that lock stays
    held while the lock of the destination is taken. *)
Lemma transfer_holds_both_locks :
  ¬ (∀ cfg m f a b need m',
       a ≠ b →
       FlowRequeue cfg (Some f) (Some a) (Some b) need m = Done tt m' →
       both_held a b (is_held m a) (is_held m b) (events_of m m') = false).
Proof.
  intros H.
  assert (∃ m', FlowRequeue cfg0 (Some 2%positive) (Some 1%positive)
                  (Some 2%positive) 0 ex_mem_held = Done tt m'
                ∧ both_held 1%positive 2%positive
                    (is_held ex_mem_held 1%positive)
                    (is_held ex_mem_held 2%positive)
                    (events_of ex_mem_held m') = true) as (m' & E & Hb).
  { eexists. split; vm_compute; reflexivity. }
  rewrite (H cfg0 ex_mem_held 2%positive 1%positive 2%positive 0%Z m') in Hb;
    done.
Qed.

(** C3 (amended). Transfer lock discipline.  Between distinct queues, when
    the call takes the lock of the source itself ([need_srclock] is 1) it
    releases it before it takes the lock of the destination, and the two are
    never held together; when the flag says the caller holds the lock of
    the source, the call leaves that lock alone, so it is held together
    with the lock of the destination exactly when the caller holds it.
    Within one queue the lock is taken at most once.  In every call the
    lock of the destination is released exactly once, as the last thing
    done, and is free afterwards. *)
Theorem transfer_lock_discipline cfg m L f srcq b need :
  state_rep m L → op_pre m L (Transfer f srcq b need) →
  ∃ m',
    FlowRequeue cfg (Some f) srcq (Some b) need m = Done tt m'
    ∧ (∀ a, srcq = Some a → a ≠ b → need = 1%Z →
       events_of m m' = [EvLock a; EvUnlock a; EvLock b; EvUnlock b]
       ∧ both_held a b (is_held m a) (is_held m b) (events_of m m') = false)
    ∧ (∀ a, srcq = Some a → a ≠ b → need ≠ 1%Z →
       events_of m m' = [EvLock b; EvUnlock b]
       ∧ both_held a b (is_held m a) (is_held m b) (events_of m m')
         = is_held m a)
    ∧ (srcq = Some b →
       events_of m m' =
         (if (need =? 1)%Z then [EvLock b] else []) ++ [EvUnlock b])
    ∧ (srcq = None → events_of m m' = [EvLock b; EvUnlock b])
    ∧ length (filter (λ e, e = EvUnlock b) (events_of m m')) = 1
    ∧ length (filter (λ e, e = EvLock b) (events_of m m')) ≤ 1
    ∧ last (events_of m m') = Some (EvUnlock b)
    ∧ mutex_of m' b = Some MutexFree.
Proof.
  intros Hrep Hpre.
  destruct (FlowRequeue_rep cfg m L f srcq b need Hrep Hpre)
    as (m' & s & c & E & _ & _ & S & T & _).
  apply events_of_app in T.
  exists m'. rewrite T. clear T. split; [done|].
  assert (mutex_of m' b = Some MutexFree) as Hfree.
  { apply mutex_of_syncs. exists c. by rewrite S, lookup_insert_eq. }
  unfold transfer_events.
  destruct srcq as [a|]; cbn [op_pre] in Hpre.
  - destruct Hpre as [_ Hlocks].
    destruct (decide (a = b)) as [->|Hab].
    + rewrite (bool_decide_eq_false_2 (Some b ≠ Some b)) by (by intros []).
      rewrite andb_false_l, app_nil_r.
      split; [by intros a [= <-]|]. split; [by intros a [= <-]|].
      split; [done|]. split; [done|].
      destruct (need =? 1)%Z; (split; [|split]); count_events.
    + destruct Hlocks as [Hfa Hfb].
      rewrite (bool_decide_eq_true_2 (Some a ≠ Some b)) by congruence.
      rewrite andb_true_l.
      split.
      { intros a' [= <-] _ ->. split; [done|].
        rewrite (is_held_free _ _ (Hfa eq_refl)), (is_held_free _ _ Hfb).
        by apply both_held_released. }
      split.
      { intros a' [= <-] _ Hn.
        rewrite (proj2 (Z.eqb_neq _ _) Hn). split; [done|].
        rewrite (is_held_free _ _ Hfb). by apply both_held_kept. }
      split; [by intros [= ->]|]. split; [done|].
      destruct (need =? 1)%Z; (split; [|split]); count_events.
  - rewrite (bool_decide_eq_true_2 (None ≠ Some b)) by done.
    split; [done|]. split; [done|]. split; [done|]. split; [done|].
    (split; [|split]); count_events.
Qed.

Lemma transfer_lock_discipline_witness :
  ∃ m',
    FlowRequeue cfg0 (Some 2%positive) (Some 1%positive) (Some 2%positive) 1
      ex_mem = Done tt m'
    ∧ events_of ex_mem m' =
        [EvLock 1%positive; EvUnlock 1%positive;
         EvLock 2%positive; EvUnlock 2%positive].
Proof.
  destruct (transfer_lock_discipline cfg0 ex_mem ex_L 2%positive
              (Some 1%positive) 2%positive 1)
    as (m' & E & H & _).
  - apply ex_state_rep.
  - split; [exists [1%positive; 2%positive; 3%positive]; split;
            [reflexivity | compute_done]|].
    split; reflexivity.
  - exists m'. split; [exact E|].
    by destruct (H 1%positive eq_refl ltac:(discriminate) eq_refl).
Defined.

(** ** Create and Destroy *)

Lemma SCMutexInit_Done m q qv :
  queues m !! q = Some qv → mutex_q qv = MutexRaw →
  SCMutexInit (Some q) m =
  Done tt (mkMem (flows m)
     (<[q := mkFlowQueue (top qv) (bot qv) (len qv) (dbg_maxlen qv) MutexFree (cond_q qv)]>
        (queues m))
     (trace m)).
Proof.
  intros Hq Hmu. unfold SCMutexInit.
  rewrite (bind_Done _ _ _ _ _ (load_queue_Done _ _ _ Hq)), Hmu.
  by apply set_mutex_q_Done.
Qed.

Lemma SCCondInit_Done m q qv :
  queues m !! q = Some qv → cond_q qv = CondRaw →
  SCCondInit (Some q) m =
  Done tt (mkMem (flows m)
     (<[q := mkFlowQueue (top qv) (bot qv) (len qv) (dbg_maxlen qv) (mutex_q qv) CondReady]>
        (queues m))
     (trace m)).
Proof.
  intros Hq Hc. unfold SCCondInit.
  rewrite (bind_Done _ _ _ _ _ (load_queue_Done _ _ _ Hq)), Hc.
  by apply set_cond_q_Done.
Qed.

Lemma SCMutexDestroy_Done m q qv :
  queues m !! q = Some qv → mutex_q qv = MutexFree →
  SCMutexDestroy (Some q) m =
  Done tt (mkMem (flows m)
     (<[q := mkFlowQueue (top qv) (bot qv) (len qv) (dbg_maxlen qv) MutexRaw (cond_q qv)]>
        (queues m))
     (trace m)).
Proof.
  intros Hq Hmu. unfold SCMutexDestroy.
  rewrite (bind_Done _ _ _ _ _ (load_queue_Done _ _ _ Hq)), Hmu.
  by apply set_mutex_q_Done.
Qed.

Lemma SCCondDestroy_Done m q qv :
  queues m !! q = Some qv → cond_q qv = CondReady →
  SCCondDestroy (Some q) m =
  Done tt (mkMem (flows m)
     (<[q := mkFlowQueue (top qv) (bot qv) (len qv) (dbg_maxlen qv) (mutex_q qv) CondRaw]>
        (queues m))
     (trace m)).
Proof.
  intros Hq Hc. unfold SCCondDestroy.
  rewrite (bind_Done _ _ _ _ _ (load_queue_Done _ _ _ Hq)), Hc.
  by apply set_cond_q_Done.
Qed.

Lemma SCMalloc_fresh (m : mem) : queues m !! fresh (dom (queues m)) = None.
Proof. apply not_elem_of_dom, is_fresh. Qed.

Lemma FlowQueueNew_Done cfg raw m :
  FlowQueueNew cfg true raw m =
    Done (Some (fresh (dom (queues m))))
      (mkMem (flows m)
         (<[fresh (dom (queues m)) :=
              mkFlowQueue None None 0 0 MutexFree CondReady]> (queues m))
         (trace m)).
Proof.
  destruct m as [F Q T]. cbn [flows queues trace].
  unfold FlowQueueNew, SCMalloc, bind at 1. cbn [flows queues trace].
  set (a := fresh (dom Q)). unfold FlowQueueInit.
  rewrite !bind_assoc.
  erewrite bind_Done
    by (eapply store_queue_Done; cbn; apply lookup_insert_eq).
  cbn [flows queues trace]. rewrite insert_insert_eq.
  destruct (tile cfg).
  - unfold tmc_spin_queued_mutex_init. do 2 step.
    by rewrite !insert_insert_eq.
  - rewrite !bind_assoc.
    erewrite bind_Done
      by (eapply SCMutexInit_Done; [lookup_tac|reflexivity]).
    erewrite bind_Done
      by (eapply SCCondInit_Done; [lookup_tac|reflexivity]).
    norm. by rewrite !insert_insert_eq.
Qed.

(** C7. Create never returns a recoverable failure: when the allocator
    has no memory the process exits; otherwise the call returns a fresh,
    non-null queue whose [top], [bot], [len] (and [dbg_maxlen]) are zero
    and whose mutex and condition are initialised. *)
Theorem create_is_total cfg ok raw m :
  (ok = false ∧ FlowQueueNew cfg ok raw m = Exit EXIT_SUCCESS)
  ∨ (ok = true ∧
     ∃ q, queues m !! q = None
          ∧ FlowQueueNew cfg ok raw m =
              Done (Some q)
                (mkMem (flows m)
                   (<[q := mkFlowQueue None None 0 0 MutexFree CondReady]>
                      (queues m))
                   (trace m))).
Proof.
  destruct ok; [right|by left]. split; [done|].
  exists (fresh (dom (queues m))). split; [apply SCMalloc_fresh|].
  apply FlowQueueNew_Done.
Qed.

(** A queue just created is a well-formed empty queue. *)
Lemma create_state_rep cfg raw m L :
  state_rep m L →
  ∃ q m', FlowQueueNew cfg true raw m = Done (Some q) m'
          ∧ L !! q = None ∧ state_rep m' (<[q := []]> L).
Proof.
  intros Hrep.
  pose proof (FlowQueueNew_Done cfg raw m) as E.
  pose proof (SCMalloc_fresh m) as Hq.
  set (q := fresh (dom (queues m))) in *.
  eexists q, _. split; [done|].
  assert (L !! q = None) as HL.
  { destruct (L !! q) eqn:El; [|done].
    destruct (rep_dom _ _ Hrep _ _ El) as [qv Hqv]. congruence. }
  split; [done|]. destruct Hrep as [Hqs Hdom Hdis]. constructor; cbn.
  - intros q2 qv2. destruct (decide (q2 = q)) as [->|Hne].
    + rewrite !lookup_insert_eq. intros [= <-]. eexists. split; [done|].
      constructor; cbn; try done; compute_done.
    + rewrite !lookup_insert_ne by done. apply Hqs.
  - intros q2 l2. destruct (decide (q2 = q)) as [->|Hne].
    + by rewrite !lookup_insert_eq.
    + rewrite !lookup_insert_ne by done. apply Hdom.
  - intros q1 q2 l1 l2 Hne.
    destruct (decide (q1 = q)) as [->|Hne1];
      destruct (decide (q2 = q)) as [->|Hne2]; [done|..];
      rewrite ?lookup_insert_eq, ?lookup_insert_ne by done.
    + intros [= <-] _ x Hx. by apply elem_of_nil in Hx.
    + intros _ [= <-] x _ Hx. by apply elem_of_nil in Hx.
    + by apply Hdis.
Qed.

(** C8. Destroy frame condition: destroying a queue whose mutex is free
    touches nothing but its mutex and its condition (and not even those in
    a [__tile__] build): [top], [bot], [len], every record and every other
    queue are as before, so the sequences of all queues are as before. *)
Theorem destroy_frame cfg m q qv :
  queues m !! q = Some qv → mutex_q qv = MutexFree → cond_q qv = CondReady →
  ∃ qv',
    FlowQueueDestroy cfg (Some q) m =
      Done tt (mkMem (flows m) (<[q := qv']> (queues m)) (trace m))
    ∧ top qv' = top qv ∧ bot qv' = bot qv ∧ len qv' = len qv
    ∧ dbg_maxlen qv' = dbg_maxlen qv
    ∧ sync_of qv' = (if tile cfg then sync_of qv else (MutexRaw, CondRaw))
    ∧ ∀ L, state_rep m L →
           state_rep (mkMem (flows m) (<[q := qv']> (queues m)) (trace m)) L.
Proof.
  intros Hq Hmu Hc. unfold FlowQueueDestroy.
  destruct qv as [tp bt ln mx mu cd]. destruct m as [F Q T]. cbn in *. subst.
  destruct (tile cfg).
  - eexists. split; [by rewrite insert_id|]. repeat (split; [done|]).
    intros L HL. by rewrite insert_id.
  - erewrite bind_Done
      by (eapply SCMutexDestroy_Done; [lookup_tac|reflexivity]).
    erewrite SCCondDestroy_Done by (first [lookup_tac|reflexivity]).
    norm. rewrite insert_insert_eq.
    eexists. split; [done|]. repeat (split; [done|]).
    intros L HL. by eapply (state_rep_sync (mkMem F Q T)).
Qed.

Lemma destroy_frame_witness :
  ∃ qv',
    FlowQueueDestroy cfg0 (Some 1%positive) ex_mem =
      Done tt (mkMem ex_flows (<[1%positive := qv']> (queues ex_mem)) [])
    ∧ top qv' = Some 1%positive ∧ bot qv' = Some 3%positive ∧ len qv' = 3%Z.
Proof.
  destruct (destroy_frame cfg0 ex_mem 1%positive (ex_queue1 MutexFree))
    as (qv' & E & Ht & Hb & Hl & _).
  - reflexivity.
  - reflexivity.
  - reflexivity.
  - exists qv'. split; [exact E|]. split; [exact Ht|]. split; [exact Hb|exact Hl].
Defined.

(** ** The scenarios of the specification, run *)

(** Scenario 1: polling an empty queue returns [NULL] and changes nothing
    but the trace. *)
Example scenario_empty_poll :
  FlowDequeue cfg0 (Some 2%positive) ex_mem =
    Done None
      (mkMem (flows ex_mem) (queues ex_mem)
         [EvLock 2%positive; EvUnlock 2%positive]).
Proof. by apply FlowDequeue_empty with ex_queue2. Qed.

(** Scenario 3: queue 1 holds 1, 2, 3; record 2 is moved to the empty
    queue 2.  Records 1 and 3 are then linked to each other, queue 1 has
    length 2, and queue 2 holds record 2 alone. *)
Example scenario_middle_transfer :
  ∃ m',
    FlowRequeue cfg0 (Some 2%positive) (Some 1%positive) (Some 2%positive) 1
      ex_mem = Done tt m'
    ∧ queues m' !! 1%positive =
        Some (mkFlowQueue (Some 1%positive) (Some 3%positive) 2 0
                MutexFree CondReady)
    ∧ queues m' !! 2%positive =
        Some (mkFlowQueue (Some 2%positive) (Some 2%positive) 1 0
                MutexFree CondReady)
    ∧ flows m' !! 1%positive = Some (mkFlow None (Some 3%positive))
    ∧ flows m' !! 3%positive = Some (mkFlow (Some 1%positive) None)
    ∧ flows m' !! 2%positive = Some (mkFlow None None).
Proof. eexists. split; [vm_compute; reflexivity|]. by vm_compute. Qed.

(** The same transfer in a [__tile__], [DEBUG], [DBG_PERF] build also
    records the greatest length of the destination. *)
Example scenario_middle_transfer_dbg_perf :
  ∃ m',
    FlowRequeue (mkBuild true true true) (Some 2%positive) (Some 1%positive)
      (Some 2%positive) 1 ex_mem = Done tt m'
    ∧ queues m' !! 2%positive =
        Some (mkFlowQueue (Some 2%positive) (Some 2%positive) 1 1
                MutexFree CondReady).
Proof. eexists. split; [vm_compute; reflexivity|]. by vm_compute. Qed.

(** A null destination: an abort in a [DEBUG] build, undefined behaviour
    otherwise. *)
Example scenario_null_destination :
  FlowRequeue (mkBuild false true false) (Some 2%positive) (Some 1%positive)
    None 1 ex_mem = Abort
  ∧ FlowRequeue cfg0 (Some 2%positive) (Some 1%positive) None 1 ex_mem = Fault.
Proof. by vm_compute. Qed.

(** ** A transferred record is the next one polled *)

Lemma abs_transfer_leave f srcq b L lb :
  abs_leave f srcq L !! b = Some lb →
  abs_transfer f srcq b L = <[b := lb ++ [f]]> (abs_leave f srcq L).
Proof.
  intros Hlb. unfold abs_transfer. fold (abs_leave f srcq L).
  by apply (alter_lookup_insert (λ l, l ++ [f])).
Qed.

Lemma abs_transfer_lookup f srcq b L l :
  abs_transfer f srcq b L !! b = Some l →
  ∃ lb, abs_leave f srcq L !! b = Some lb ∧ l = lb ++ [f].
Proof.
  unfold abs_transfer. fold (abs_leave f srcq L).
  rewrite lookup_alter_eq.
  destruct (abs_leave f srcq L !! b) as [lb|]; [|done].
  intros [= <-]. eauto.
Qed.

(** X1. The record that [FlowRequeue] puts into a queue is the one the
    next [FlowDequeue] on that queue returns, ahead of every record that
    was there before: the two calls together take the record out of its
    source and leave the destination as it was. *)
Theorem transfer_then_poll cfg m L f srcq b need :
  state_rep m L → op_pre m L (Transfer f srcq b need) →
  ∃ m',
    (FlowRequeue cfg (Some f) srcq (Some b) need;;;
     FlowDequeue cfg (Some b)) m = Done (Some f) m'
    ∧ state_rep m' (abs_leave f srcq L)
    ∧ flows m' !! f = Some (mkFlow None None)
    ∧ (srcq ≠ Some b → abs_leave f srcq L !! b = L !! b).
Proof.
  intros Hrep Hpre.
  destruct (FlowRequeue_rep cfg m L f srcq b need Hrep Hpre)
    as (m1 & s & c & E1 & R1 & Hs & S1 & _).
  rewrite (bind_Done _ _ _ _ _ E1).
  assert (syncs m1 !! b = Some (MutexFree, c)) as Hs1.
  { by rewrite S1, lookup_insert_eq. }
  destruct (state_rep_of_syncs _ _ _ _ _ R1 Hs1) as [l Hl].
  destruct (abs_transfer_lookup _ _ _ _ _ Hl) as (lb & Hlb & ->).
  destruct (FlowDequeue_rep cfg m1 _ b lb f c R1 Hl Hs1)
    as (m2 & E2 & R2 & _ & _ & Hf & _).
  exists m2. split; [done|]. split.
  { rewrite (abs_transfer_leave _ _ _ _ _ Hlb), insert_insert_eq in R2.
    by rewrite insert_id in R2. }
  split; [done|].
  intros Hne. destruct srcq as [a|]; [|done]. cbn.
  apply lookup_alter_ne. congruence.
Qed.

Lemma transfer_then_poll_witness :
  ∃ m',
    (FlowRequeue cfg0 (Some 4%positive) None (Some 1%positive) 1;;;
     FlowDequeue cfg0 (Some 1%positive)) ex_mem = Done (Some 4%positive) m'
    ∧ state_rep m' ex_L.
Proof.
  destruct (transfer_then_poll cfg0 ex_mem ex_L 4%positive None 1%positive 1)
    as (m' & E & R & _).
  - apply ex_state_rep.
  - split; [by eexists|]. split; [|reflexivity].
    intros q l [[-> ->]| ->]%ex_L_lookup; [compute_done|apply not_elem_of_nil].
  - exists m'. split; [exact E|exact R].
Defined.

(** ** Last in, first out for records handed over with no source *)

Lemma requeue_all_rep cfg rs : ∀ m L q l c,
  state_rep m L → L !! q = Some l → syncs m !! q = Some (MutexFree, c) →
  NoDup rs →
  (∀ r, r ∈ rs → is_Some (flows m !! r) ∧ unowned L r) →
  ∃ m', requeue_all cfg (Some q) rs m = Done tt m'
    ∧ state_rep m' (<[q := l ++ rs]> L)
    ∧ syncs m' = syncs m.
Proof.
  induction rs as [|r rs IH]; intros m L q l c Hrep Hl Hs Hnd Hfresh.
  - exists m. cbn. by rewrite app_nil_r, insert_id.
  - apply NoDup_cons in Hnd as [Hr Hnd].
    destruct (Hfresh r) as [Hfr Hun]; [left|].
    destruct (FlowRequeue_rep cfg m L r None q 1 Hrep)
      as (m1 & s & c1 & E1 & R1 & Hs1 & S1 & _ & Fr1).
    { split; [done|]. split; [done|]. apply mutex_of_syncs. eauto. }
    rewrite Hs in Hs1. injection Hs1 as <- <-.
    rewrite (insert_id _ _ _ Hs) in S1.
    cbn [requeue_all]. rewrite (bind_Done _ _ _ _ _ E1).
    unfold abs_transfer in R1.
    rewrite (alter_lookup_insert (λ l, l ++ [r]) _ _ _ Hl) in R1.
    destruct (IH m1 _ q (l ++ [r]) c R1 (lookup_insert_eq _ _ _)) as (m2 & E2 & R2 & S2);
      [by rewrite S1|done|..].
    { intros r' Hr'. destruct (Hfresh r') as [Hfr' Hun']; [by right|].
      assert (r' ≠ r) by (by intros ->).
      split; [by rewrite Fr1|].
      intros q' l'. destruct (decide (q' = q)) as [->|Hne].
      - rewrite lookup_insert_eq. intros [= <-].
        intros [Hin| ->%list_elem_of_singleton]%elem_of_app; [|done].
        by apply (Hun' _ _ Hl).
      - rewrite lookup_insert_ne by done. apply Hun'. }
    exists m2. split; [done|].
    rewrite insert_insert_eq, <- app_assoc in R2.
    split; [done|]. congruence.
Qed.

(** X2. Last in, first out: records handed to a queue by [FlowRequeue]
    with no source queue, in the order [rs], come back from as many
    [FlowDequeue] calls in the opposite order, before anything the queue
    held already, which stays in the queue. *)
Theorem requeue_is_lifo cfg m L q l rs :
  state_rep m L → L !! q = Some l → mutex_of m q = Some MutexFree →
  NoDup rs →
  (∀ r, r ∈ rs → is_Some (flows m !! r) ∧ unowned L r) →
  ∃ m',
    (requeue_all cfg (Some q) rs;;; poll_n cfg (Some q) (length rs)) m
      = Done (Some <$> reverse rs) m'
    ∧ state_rep m' L.
Proof.
  intros Hrep Hl Hmu Hnd Hfresh.
  apply mutex_of_syncs in Hmu as [c Hs].
  destruct (requeue_all_rep cfg rs m L q l c Hrep Hl Hs Hnd Hfresh)
    as (m1 & E1 & R1 & S1).
  rewrite (bind_Done _ _ _ _ _ E1).
  destruct (poll_n_rep cfg (reverse rs) m1 _ q l c R1) as (m2 & E2 & R2 & _).
  { by rewrite lookup_insert_eq, reverse_involutive. }
  { by rewrite S1. }
  rewrite length_reverse in E2. exists m2. split; [done|].
  by rewrite insert_insert_eq, insert_id in R2.
Qed.

Lemma requeue_is_lifo_witness :
  ∃ m',
    (requeue_all cfg0 (Some 1%positive) [1%positive; 2%positive; 3%positive];;;
     poll_n cfg0 (Some 1%positive) 3) ex_mem0
      = Done [Some 3%positive; Some 2%positive; Some 1%positive] m'
    ∧ state_rep m' ex_L0.
Proof.
  apply (requeue_is_lifo cfg0 ex_mem0 ex_L0 1%positive []
           [1%positive; 2%positive; 3%positive]).
  - apply ex_state_rep0.
  - reflexivity.
  - reflexivity.
  - compute_done.
  - intros r Hr. split.
    + repeat (apply elem_of_cons in Hr as [->|Hr]; [by eexists|]).
      by apply elem_of_nil in Hr.
    + intros q l Hl%ex_L0_lookup. subst. apply not_elem_of_nil.
Defined.

(** ** Insert *)

(** X3. Insert postcondition: [FlowEnqueue] of a record that is in no
    queue and has no links puts it at [top], in front of the records the
    queue holds: it becomes the [lprev] of the former [top] and has it as
    [lnext], [bot] moves only when the queue was empty, [len] goes up by
    one.  The call takes and releases no lock, and touches no other
    queue. *)
Theorem insert_postcondition cfg m L q l qv f :
  state_rep m L → L !! q = Some l → queues m !! q = Some qv →
  flows m !! f = Some (mkFlow None None) → unowned L f →
  ∃ m' qv',
    FlowEnqueue cfg (Some q) (Some f) m = Done tt m'
    ∧ state_rep m' (<[q := f :: l]> L)
    ∧ queues m' !! q = Some qv'
    ∧ top qv' = Some f
    ∧ bot qv' = (if bot qv is Some b then Some b else Some f)
    ∧ len qv' = wrap32 (len qv + 1)
    ∧ flows m' !! f = Some (mkFlow None (top qv))
    ∧ (∀ t, top qv = Some t → lprev <$> flows m' !! t = Some (Some f))
    ∧ sync_of qv' = sync_of qv
    ∧ trace m' = trace m
    ∧ (∀ q', q' ≠ q → queues m' !! q' = queues m !! q').
Proof.
  intros Hrep Hl Hq Hf Hun.
  destruct (rep_queues _ _ Hrep _ _ Hq) as (l0 & Hl0 & Hqrep).
  rewrite Hl in Hl0. injection Hl0 as <-.
  destruct (FlowEnqueue_spec cfg m q qv f l Hq Hqrep Hf (Hun _ _ Hl))
    as (fl' & qv' & E & Hrep' & Hframe & Hmu & Hc).
  eexists _, qv'. split; [exact E|]. cbn [flows queues trace].
  split.
  { eapply state_rep_update; eauto.
    - intros y _ Hy. apply Hframe; set_solver.
    - intros y [->|Hy]%elem_of_cons; eauto. }
  split; [apply lookup_insert_eq|].
  pose proof (rep_dll _ _ _ Hrep') as [Hfl Hd].
  split; [apply Hrep'|]. split.
  { rewrite (rep_bot _ _ _ Hrep'), (rep_bot _ _ _ Hqrep).
    destruct l as [|x l']; [done|]. cbn [last].
    destruct (last (x :: l')) eqn:El; [done|]. by apply last_None in El. }
  split.
  { rewrite (rep_len _ _ _ Hrep'), (rep_len _ _ _ Hqrep), wrap32_succ.
    f_equal. cbn [length]. lia. }
  split. { by rewrite Hfl, first_of_head, (rep_top _ _ _ Hqrep). }
  split.
  { intros t. rewrite (rep_top _ _ _ Hqrep).
    destruct l as [|x l']; [done|]. intros [= <-].
    destruct Hd as [-> _]. done. }
  split; [unfold sync_of; congruence|]. split; [done|].
  intros q' Hne. by rewrite lookup_insert_ne.
Qed.

Lemma insert_postcondition_witness :
  ∃ m' qv',
    FlowEnqueue cfg0 (Some 1%positive) (Some 4%positive) ex_mem = Done tt m'
    ∧ queues m' !! 1%positive = Some qv'
    ∧ top qv' = Some 4%positive ∧ bot qv' = Some 3%positive
    ∧ len qv' = 4%Z ∧ trace m' = [].
Proof.
  destruct (insert_postcondition cfg0 ex_mem ex_L 1%positive
              [1%positive; 2%positive; 3%positive] (ex_queue1 MutexFree)
              4%positive)
    as (m' & qv' & E & _ & Hq & Ht & Hb & Hl & _ & _ & _ & Htr & _).
  - apply ex_state_rep.
  - reflexivity.
  - reflexivity.
  - reflexivity.
  - intros q l [[-> ->]| ->]%ex_L_lookup; [compute_done|apply not_elem_of_nil].
  - exists m', qv'. repeat (split; [assumption|]). exact Htr.
Defined.

(** ** Inserting a record twice *)

Lemma reach_cycle fl (C : list loc) :
  (∀ x, x ∈ C → ∃ v y, fl !! x = Some v ∧ lnext v = Some y ∧ y ∈ C) →
  ∀ fuel x, x ∈ C → reach lnext fuel fl (Some x) = None.
Proof.
  intros HC. induction fuel as [|k IH]; intros x Hx; [done|].
  destruct (HC x Hx) as (v & y & Hv & Hy & Hin).
  cbn. by rewrite Hv, Hy, (IH y Hin).
Qed.

Lemma dll_successor fl prv l nxt x :
  dll fl prv l (Some nxt) → x ∈ l →
  ∃ v y, fl !! x = Some v ∧ lnext v = Some y ∧ (y ∈ l ∨ y = nxt).
Proof.
  revert prv. induction l as [|z l IH]; intros prv Hd Hx.
  { by apply elem_of_nil in Hx. }
  destruct Hd as [Hz Hl].
  apply elem_of_cons in Hx as [->|Hx].
  - destruct l as [|z' l'].
    + exists (mkFlow prv (Some nxt)), nxt. split; [exact Hz|].
      split; [done|]. by right.
    + exists (mkFlow prv (Some z')), z'. split; [exact Hz|].
      split; [done|]. left. right. left.
  - destruct (IH _ Hl Hx) as (v & y & Hv & Hy & [Hin| ->]).
    + exists v, y. split; [done|]. split; [done|]. left. by right.
    + exists v, nxt. split; [done|]. split; [done|]. by right.
Qed.

(** X4. The precondition of Insert is not checked: [FlowEnqueue] of a
    record that is already in the queue finishes, counts it once more and
    closes the [lnext] links into a cycle through [top], so that a walk
    from [top] never reaches [NULL] and the invariants of the queue are
    lost. *)
Theorem double_insert_makes_a_cycle cfg m q qv l f :
  queues m !! q = Some qv → queue_rep (flows m) qv l → f ∈ l →
  ∃ m' qv',
    FlowEnqueue cfg (Some q) (Some f) m = Done tt m'
    ∧ queues m' !! q = Some qv'
    ∧ top qv' = Some f
    ∧ len qv' = wrap32 (len qv + 1)
    ∧ (∀ fuel, reach lnext fuel (flows m') (top qv') = None)
    ∧ ¬ queue_inv (flows m') qv'.
Proof.
  intros Hq Hqrep Hf.
  assert (∃ m' qv',
    FlowEnqueue cfg (Some q) (Some f) m = Done tt m'
    ∧ queues m' !! q = Some qv'
    ∧ top qv' = Some f
    ∧ len qv' = wrap32 (len qv + 1)
    ∧ (∀ fuel, reach lnext fuel (flows m') (top qv') = None))
    as (m' & qv' & E & Hq' & Ht & Hl & Hcyc).
  2:{ exists m', qv'. repeat (split; [done|]).
      intros [_ _ _ _ [fuel Hn] _]. unfold count_reach in Hn.
      by rewrite Hcyc in Hn. }
  destruct Hqrep as [Hdll Hnd Htop Hbot Hlen].
  apply list_elem_of_split in Hf as (l1 & l2 & ->).
  apply dll_app in Hdll as [Hl1 [Hfv Hl2]]. cbn [first_of] in Hl1.
  apply NoDup_app in Hnd as (Hnd1 & Hd12 & _).
  assert (f ∉ l1) as Hf1 by (intros Hin; apply (Hd12 f Hin); left).
  destruct qv as [tp bt ln mx mu cd]. destruct m as [F Q T]. cbn in *. subst.
  unfold FlowEnqueue. step.
  destruct l1 as [|t l1]; cbn [app head]; cbv iota.
  - (* the record is at top *)
    do 7 step.
    edestruct (track_maxlen_Done cfg) as [mx' ->]; [lookup_tac|]. norm.
    rewrite !insert_insert_eq.
    eexists _, _. split; [reflexivity|]. cbn [queues flows].
    split; [apply lookup_insert_eq|]. split; [done|]. split; [done|].
    cbn [top]. intros fuel. apply (reach_cycle _ [f]); [|left].
    intros x ->%list_elem_of_singleton.
    eexists _, f. rewrite lookup_insert_eq. split; [done|]. split; [done|left].
  - (* the record is further down *)
    destruct Hl1 as [Ht Hl1].
    assert (f ≠ t) by (intros ->; apply Hf1; left).
    apply NoDup_cons in Hnd1 as [Ht1 Hnd1].
    do 7 step.
    edestruct (track_maxlen_Done cfg) as [mx' ->]; [lookup_tac|]. norm.
    rewrite !insert_insert_eq.
    eexists _, _. split; [reflexivity|]. cbn [queues flows].
    split; [apply lookup_insert_eq|]. split; [done|]. split; [done|].
    cbn [top]. intros fuel. apply (reach_cycle _ (f :: t :: l1)); [|left].
    intros x [->|[->|Hx]%elem_of_cons]%elem_of_cons.
    + eexists _, t. rewrite lookup_insert_ne, lookup_insert_eq by done.
      split; [done|]. split; [done|]. right. left.
    + destruct l1 as [|z l1'].
      * exists (mkFlow (Some f) (Some f)), f. rewrite lookup_insert_eq.
        split; [done|]. split; [done|left].
      * exists (mkFlow (Some f) (Some z)), z. rewrite lookup_insert_eq.
        split; [done|]. split; [done|]. right. right. left.
    + destruct (dll_successor _ _ _ _ _ Hl1 Hx) as (v & y & Hv & Hy & Hin).
      assert (x ≠ f) by (intros ->; apply Hf1; by right).
      assert (x ≠ t) by (intros ->; by apply Ht1).
      exists v, y. rewrite !lookup_insert_ne by done.
      split; [done|]. split; [done|].
      destruct Hin as [Hin| ->]; [by right; right|left].
Qed.

Lemma double_insert_makes_a_cycle_witness :
  ∃ m' qv',
    FlowEnqueue cfg0 (Some 1%positive) (Some 2%positive) ex_mem = Done tt m'
    ∧ queues m' !! 1%positive = Some qv'
    ∧ len qv' = 4%Z
    ∧ ¬ queue_inv (flows m') qv'.
Proof.
  destruct (double_insert_makes_a_cycle cfg0 ex_mem 1%positive
              (ex_queue1 MutexFree) [1%positive; 2%positive; 3%positive]
              2%positive)
    as (m' & qv' & E & Hq & _ & Hl & _ & Hn).
  - reflexivity.
  - constructor; cbn; try done; compute_done.
  - compute_done.
  - exists m', qv'. split; [exact E|]. split; [exact Hq|].
    split; [exact Hl|exact Hn].
Defined.

(** ** Contract violations *)

Lemma bind_Done_inv {A B} (c : M A) (k : A → M B) m b m' :
  bind c k m = Done b m' → ∃ a m1, c m = Done a m1 ∧ k a m1 = Done b m'.
Proof. unfold bind. destruct (c m) as [a m1| | |]; [eauto|done..]. Qed.



(** ** Initialising a queue in place *)

(** X6. [FlowQueueInit] on [NULL] returns [NULL] and does nothing.  On a
    queue that exists it returns the queue, empty and with mutex and
    condition initialised, whatever the queue held and whatever state its
    mutex was in; no record is touched, so records the queue held keep
    their links. *)
Theorem init_in_place cfg m q qv :
  queues m !! q = Some qv →
  FlowQueueInit cfg None m = Done None m
  ∧ FlowQueueInit cfg (Some q) m =
      Done (Some q)
        (mkMem (flows m)
           (<[q := mkFlowQueue None None 0 0 MutexFree CondReady]> (queues m))
           (trace m)).
Proof.
  intros Hq. split; [done|]. destruct m as [F Q T]. cbn in Hq.
  unfold FlowQueueInit. rewrite ?bind_assoc.
  erewrite bind_Done by (eapply store_queue_Done; lookup_tac). norm.
  destruct (tile cfg).
  - unfold tmc_spin_queued_mutex_init. do 2 step.
    by rewrite !insert_insert_eq.
  - rewrite ?bind_assoc.
    erewrite bind_Done
      by (eapply SCMutexInit_Done; [lookup_tac|reflexivity]).
    erewrite bind_Done
      by (eapply SCCondInit_Done; [lookup_tac|reflexivity]).
    norm. by rewrite !insert_insert_eq.
Qed.

Lemma init_in_place_witness :
  FlowQueueInit cfg0 None ex_mem_held = Done None ex_mem_held
  ∧ FlowQueueInit cfg0 (Some 1%positive) ex_mem_held =
      Done (Some 1%positive)
        (mkMem ex_flows
           (<[1%positive := mkFlowQueue None None 0 0 MutexFree CondReady]>
              (queues ex_mem_held))
           []).
Proof.
  apply (init_in_place cfg0 ex_mem_held 1%positive (ex_queue1 MutexHeld)).
  reflexivity.
Defined.

(** ** The high-water mark of a queue *)

Lemma keeps_ret {A} (a : A) : keeps_maxlens (ret a).
Proof. by intros m a' m' [= _ <-]. Qed.

Lemma keeps_fault {A} : keeps_maxlens (@fault A).
Proof. by intros m a m'. Qed.

Lemma keeps_bind {A B} (c : M A) (k : A → M B) :
  keeps_maxlens c → (∀ a, keeps_maxlens (k a)) → keeps_maxlens (bind c k).
Proof.
  intros Hc Hk m b m' (a & m1 & E1 & E2)%bind_Done_inv.
  by rewrite (Hk _ _ _ _ E2), (Hc _ _ _ E1).
Qed.

Lemma keeps_when b c : keeps_maxlens c → keeps_maxlens (when b c).
Proof. destruct b; [done|]. intros _. apply keeps_ret. Qed.

Lemma keeps_emit e : keeps_maxlens (emit e).
Proof. intros m a m' E. by inversion E. Qed.

Lemma keeps_load_flow f : keeps_maxlens (load_flow f).
Proof.
  intros m a m'. unfold load_flow. destruct f as [x|]; [|done].
  destruct (flows m !! x); [|done]. by intros [= _ <-].
Qed.

Lemma keeps_store_flow f v : keeps_maxlens (store_flow f v).
Proof.
  intros m a m'. unfold store_flow. destruct f as [x|]; [|done].
  destruct (flows m !! x); [|done]. intros E. by inversion E.
Qed.

Lemma keeps_load_queue q : keeps_maxlens (load_queue q).
Proof.
  intros m a m'. unfold load_queue. destruct q as [x|]; [|done].
  destruct (queues m !! x); [|done]. by intros [= _ <-].
Qed.

Lemma keeps_update_queue q (g : FlowQueue → FlowQueue) :
  (∀ v, dbg_maxlen (g v) = dbg_maxlen v) →
  keeps_maxlens (v <- load_queue q;; store_queue q (g v)).
Proof.
  intros Hg m a m'. unfold bind, load_queue, store_queue.
  destruct q as [x|]; [|done].
  destruct (queues m !! x) as [v|] eqn:E; [|done]. cbn. rewrite E.
  intros E'. inversion E'. unfold maxlens. cbn. rewrite fmap_insert, Hg.
  apply insert_id. by rewrite lookup_fmap, E.
Qed.

Lemma keeps_get_lprev f : keeps_maxlens (get_lprev f).
Proof. apply keeps_bind; [apply keeps_load_flow|intros; apply keeps_ret]. Qed.
Lemma keeps_get_lnext f : keeps_maxlens (get_lnext f).
Proof. apply keeps_bind; [apply keeps_load_flow|intros; apply keeps_ret]. Qed.
Lemma keeps_set_lprev f x : keeps_maxlens (set_lprev f x).
Proof. apply keeps_bind; [apply keeps_load_flow|intros; apply keeps_store_flow]. Qed.
Lemma keeps_set_lnext f x : keeps_maxlens (set_lnext f x).
Proof. apply keeps_bind; [apply keeps_load_flow|intros; apply keeps_store_flow]. Qed.
Lemma keeps_get_top q : keeps_maxlens (get_top q).
Proof. apply keeps_bind; [apply keeps_load_queue|intros; apply keeps_ret]. Qed.
Lemma keeps_get_bot q : keeps_maxlens (get_bot q).
Proof. apply keeps_bind; [apply keeps_load_queue|intros; apply keeps_ret]. Qed.
Lemma keeps_get_len q : keeps_maxlens (get_len q).
Proof. apply keeps_bind; [apply keeps_load_queue|intros; apply keeps_ret]. Qed.
Lemma keeps_set_top q x : keeps_maxlens (set_top q x).
Proof. by apply (keeps_update_queue q (λ v, mkFlowQueue _ _ _ _ _ _)). Qed.
Lemma keeps_set_bot q x : keeps_maxlens (set_bot q x).
Proof. by apply (keeps_update_queue q (λ v, mkFlowQueue _ _ _ _ _ _)). Qed.
Lemma keeps_set_len q x : keeps_maxlens (set_len q x).
Proof. by apply (keeps_update_queue q (λ v, mkFlowQueue _ _ _ _ _ _)). Qed.
Lemma keeps_set_mutex_q q x : keeps_maxlens (set_mutex_q q x).
Proof. by apply (keeps_update_queue q (λ v, mkFlowQueue _ _ _ _ _ _)). Qed.
Lemma keeps_set_cond_q q x : keeps_maxlens (set_cond_q q x).
Proof. by apply (keeps_update_queue q (λ v, mkFlowQueue _ _ _ _ _ _)). Qed.

Ltac keeps :=
  repeat first
    [ apply keeps_ret | apply keeps_fault | apply keeps_emit
    | apply keeps_get_lprev | apply keeps_get_lnext
    | apply keeps_set_lprev | apply keeps_set_lnext
    | apply keeps_get_top | apply keeps_get_bot | apply keeps_get_len
    | apply keeps_set_top | apply keeps_set_bot | apply keeps_set_len
    | apply keeps_set_mutex_q | apply keeps_set_cond_q
    | apply keeps_load_queue
    | apply keeps_when
    | apply keeps_bind; [|intros ?]
    | match goal with
      | |- keeps_maxlens (match ?x with _ => _ end) => destruct x
      end ].

Lemma keeps_SCMutexLock q : keeps_maxlens (SCMutexLock q).
Proof. unfold SCMutexLock. keeps. Qed.
Lemma keeps_SCMutexUnlock q : keeps_maxlens (SCMutexUnlock q).
Proof. unfold SCMutexUnlock. keeps. Qed.
Lemma keeps_lock cfg q : keeps_maxlens (lock_mutex_q cfg q).
Proof. rewrite lock_mutex_q_eq. apply keeps_SCMutexLock. Qed.
Lemma keeps_unlock cfg q : keeps_maxlens (unlock_mutex_q cfg q).
Proof. rewrite unlock_mutex_q_eq. apply keeps_SCMutexUnlock. Qed.

Lemma keeps_requeue_remove f srcq : keeps_maxlens (requeue_remove f srcq).
Proof. unfold requeue_remove. keeps. Qed.

Lemma keeps_FlowDequeue cfg q : keeps_maxlens (FlowDequeue cfg q).
Proof.
  unfold FlowDequeue.
  repeat first [apply keeps_lock | apply keeps_unlock | progress keeps].
Qed.

Lemma keeps_BUG_ON c : keeps_maxlens (BUG_ON c).
Proof. intros m a m'. unfold BUG_ON. destruct c; [done|]. intros E. by inversion E. Qed.

Lemma ends_tracking_last cfg q : ends_tracking cfg q (track_maxlen cfg q).
Proof. intros m m' E. by exists m. Qed.

Lemma ends_tracking_bind cfg q {A} (c : M A) (k : A → M unit) :
  keeps_maxlens c → (∀ a, ends_tracking cfg q (k a)) →
  ends_tracking cfg q (bind c k).
Proof.
  intros Hc Hk m m' (a & m1 & E1 & E2)%bind_Done_inv.
  destruct (Hk _ _ _ E2) as (m2 & Hm & E). exists m2. split; [|done].
  by rewrite Hm, (Hc _ _ _ E1).
Qed.

Lemma ends_tracking_FlowEnqueue cfg q f :
  ends_tracking cfg q (FlowEnqueue cfg q f).
Proof.
  unfold FlowEnqueue.
  repeat (apply ends_tracking_bind; [keeps|intros ?]).
  apply ends_tracking_last.
Qed.

Lemma ends_tracking_requeue_append cfg f q :
  ends_tracking cfg q (requeue_append cfg f q).
Proof.
  unfold requeue_append.
  repeat (apply ends_tracking_bind; [keeps|intros ?]).
  apply ends_tracking_last.
Qed.

Lemma maxlens_lookup m m' q qv' :
  maxlens m' = maxlens m → queues m' !! q = Some qv' →
  ∃ qv, queues m !! q = Some qv ∧ dbg_maxlen qv = dbg_maxlen qv'.
Proof.
  intros Hm Hq. assert (maxlens m' !! q = Some (dbg_maxlen qv')) as H.
  { unfold maxlens. by rewrite lookup_fmap, Hq. }
  rewrite Hm in H. unfold maxlens in H. rewrite lookup_fmap in H.
  destruct (queues m !! q) as [qv|]; [|done]. injection H as H. eauto.
Qed.

Lemma track_maxlen_exact cfg m q qv :
  queues m !! q = Some qv →
  track_maxlen cfg (Some q) m =
    Done tt (mkMem (flows m)
      (<[q := mkFlowQueue (top qv) (bot qv) (len qv)
               (high_water cfg (dbg_maxlen qv) (len qv))
               (mutex_q qv) (cond_q qv)]> (queues m))
      (trace m)).
Proof.
  intros Hq. destruct qv as [tp bt ln mx mu cd]. destruct m as [F Q T]. cbn in Hq.
  unfold track_maxlen, high_water. cbn [dbg_maxlen len top bot mutex_q cond_q].
  destruct (dbg_perf cfg); unfold when; cbn [andb].
  - do 2 step. destruct (mx <? ln)%Z.
    + step. last_step. done.
    + unfold ret. by rewrite insert_id.
  - unfold ret. by rewrite insert_id.
Qed.

Lemma track_maxlen_rule cfg q m m' :
  track_maxlen cfg (Some q) m = Done tt m' → maxlen_rule cfg (Some q) m m'.
Proof.
  intros E q0 qv' Hq0.
  destruct (queues m !! q) as [qv|] eqn:Hq.
  - rewrite (track_maxlen_exact cfg m q qv Hq) in E. injection E as <-.
    cbn [queues] in Hq0. destruct (decide (q0 = q)) as [->|Hne].
    + rewrite lookup_insert_eq in Hq0. injection Hq0 as <-.
      exists qv. split; [done|]. by rewrite bool_decide_eq_true_2.
    + rewrite lookup_insert_ne in Hq0 by done. exists qv'. split; [done|].
      rewrite bool_decide_eq_false_2; [done|]. by intros [= ->].
  - revert E. unfold track_maxlen. destruct (dbg_perf cfg); unfold when.
    + unfold bind, get_len, bind, load_queue. by rewrite Hq.
    + intros [= <-]. exists qv'. split; [done|].
      rewrite bool_decide_eq_false_2; [done|]. intros [= ->]. congruence.
Qed.

Lemma ends_tracking_rule cfg q c m m' :
  ends_tracking cfg (Some q) c → c m = Done tt m' → maxlen_rule cfg (Some q) m m'.
Proof.
  intros Hc E. destruct (Hc _ _ E) as (m2 & Hm & Et).
  intros q0 qv' Hq0.
  destruct (track_maxlen_rule _ _ _ _ Et q0 qv' Hq0) as (qv2 & Hq2 & Hmx).
  destruct (maxlens_lookup _ _ _ _ Hm Hq2) as (qv & Hqv & Heq).
  exists qv. split; [done|]. by rewrite Heq.
Qed.

Lemma keeps_rule cfg {A} (c : M A) m a m' :
  keeps_maxlens c → c m = Done a m' → maxlen_rule cfg None m m'.
Proof.
  intros Hc E q0 qv' Hq0.
  destruct (maxlens_lookup _ _ _ _ (Hc _ _ _ E) Hq0) as (qv & Hqv & Heq).
  exists qv. split; [done|]. by rewrite bool_decide_eq_false_2.
Qed.

Lemma SCMutexUnlock_fields q m m' q0 qv' :
  SCMutexUnlock q m = Done tt m' → queues m' !! q0 = Some qv' →
  ∃ qv, queues m !! q0 = Some qv ∧ len qv' = len qv
    ∧ dbg_maxlen qv' = dbg_maxlen qv.
Proof.
  unfold SCMutexUnlock, set_mutex_q, bind, load_queue, store_queue, fault, emit.
  destruct q as [a|]; [|done].
  destruct (queues m !! a) as [v|] eqn:Hv; [|done].
  destruct (mutex_q v); try done. rewrite Hv. cbn. rewrite Hv. cbn. intros [= <-].
  cbn [queues]. destruct (decide (q0 = a)) as [->|Hne].
  - rewrite lookup_insert_eq. intros [= <-]. by exists v.
  - rewrite lookup_insert_ne by done. intros ?. by exists qv'.
Qed.

Lemma FlowRequeue_maxlen cfg f srcq b need m m' :
  FlowRequeue cfg f srcq (Some b) need m = Done tt m' →
  maxlen_rule cfg (Some b) m m'.
Proof.
  unfold FlowRequeue.
  intros (? & m0 & E0 & (? & m1 & E1 & (? & m2 & E2 & ([] & m3 & E3 & E4)%bind_Done_inv
     )%bind_Done_inv)%bind_Done_inv)%bind_Done_inv.
  assert (maxlens m0 = maxlens m) as H0.
  { revert E0. apply keeps_when, keeps_BUG_ON. }
  assert (maxlens m1 = maxlens m0) as H1.
  { revert E1. destruct srcq; [|apply keeps_ret].
    repeat first [apply keeps_lock | apply keeps_unlock
                 | apply keeps_requeue_remove | progress keeps]. }
  assert (maxlens m2 = maxlens m1) as H2.
  { revert E2. apply keeps_when, keeps_lock. }
  rewrite unlock_mutex_q_eq in E4.
  intros q0 qv' Hq0.
  destruct (SCMutexUnlock_fields _ _ _ _ _ E4 Hq0) as (qv3 & Hq3 & Hl & Hmx).
  destruct (ends_tracking_rule cfg b _ _ _ (ends_tracking_requeue_append cfg f (Some b)) E3
              q0 qv3 Hq3) as (qv2 & Hq2 & Hr).
  assert (maxlens m2 = maxlens m) as Hm by congruence.
  destruct (maxlens_lookup _ _ _ _ Hm Hq2) as (qv & Hqv & Heq).
  exists qv. split; [done|]. by rewrite Hmx, Hl, Heq.
Qed.

Lemma run_op_maxlen cfg o m r m' :
  run_op cfg o m = Done r m' → maxlen_rule cfg (grown o) m m'.
Proof.
  destruct o as [q f|q|f srcq b need]; cbn [run_op grown].
  - intros ([] & m1 & E & [= _ <-])%bind_Done_inv.
    by apply (ends_tracking_rule cfg q _ _ _ (ends_tracking_FlowEnqueue cfg (Some q) (Some f))).
  - by apply keeps_rule, keeps_FlowDequeue.
  - intros ([] & m1 & E & [= _ <-])%bind_Done_inv.
    by apply FlowRequeue_maxlen with (Some f) srcq need.
Qed.

(** X7. The greatest-length counter: an operation called under its
    precondition finishes, and afterwards the [dbg_maxlen] of the queue it
    added a record to is, in a [DBG_PERF] build, the greater of its old
    value and the queue's new [len], and its old value in any other build;
    the [dbg_maxlen] of every other queue, and of every queue after a
    Poll-remove, is what it was. *)
Theorem maxlen_update cfg m L o :
  state_rep m L → op_pre m L o →
  ∃ r m',
    run_op cfg o m = Done r m'
    ∧ ∀ q qv', queues m' !! q = Some qv' →
      ∃ qv, queues m !! q = Some qv
        ∧ dbg_maxlen qv' =
            if bool_decide (grown o = Some q) && dbg_perf cfg
            then Z.max (dbg_maxlen qv) (len qv')
            else dbg_maxlen qv.
Proof.
  intros Hrep Hpre.
  destruct (run_op_rep cfg m L o Hrep Hpre) as (r & m' & E & _).
  exists r, m'. split; [done|]. intros q qv' Hq.
  destruct (run_op_maxlen _ _ _ _ _ E q qv' Hq) as (qv & Hqv & Hmx).
  exists qv. split; [done|]. rewrite Hmx. unfold high_water.
  destruct (bool_decide (grown o = Some q)), (dbg_perf cfg); cbn [andb]; try done.
  destruct (Z.ltb_spec (dbg_maxlen qv) (len qv')); lia.
Qed.

Lemma maxlen_update_witness :
  ∃ r m',
    run_op (mkBuild false false true) (Insert 1%positive 4%positive) ex_mem
      = Done r m'
    ∧ ∀ q qv', queues m' !! q = Some qv' →
      ∃ qv, queues ex_mem !! q = Some qv
        ∧ dbg_maxlen qv' =
            if bool_decide (Some 1%positive = Some q) && true
            then Z.max (dbg_maxlen qv) (len qv')
            else dbg_maxlen qv.
Proof.
  apply (maxlen_update (mkBuild false false true) ex_mem ex_L
           (Insert 1%positive 4%positive)).
  - apply ex_state_rep.
  - split; [by eexists|]. split; [reflexivity|].
    intros q l [[-> ->]| ->]%ex_L_lookup; [compute_done|apply not_elem_of_nil].
Defined.

Lemma removelast_length_le {A} (l : list A) : length (removelast l) ≤ length l.
Proof.
  induction l as [|x [|y l] IH]; cbn in *; lia.
Qed.

Lemma abs_op_length o L q l' :
  abs_op o L !! q = Some l' →
  ∃ l, L !! q = Some l ∧ (grown o ≠ Some q → length l' ≤ length l).
Proof.
  destruct o as [q1 f|q1|f srcq b need]; cbn [abs_op grown].
  - destruct (decide (q1 = q)) as [->|Hne].
    + rewrite lookup_alter_eq. intros (l & ? & ->)%fmap_Some. exists l.
      split; [done|]. by intros [].
    + rewrite lookup_alter_ne by done. intros ?. by exists l'.
  - destruct (decide (q1 = q)) as [->|Hne].
    + rewrite lookup_alter_eq. intros (l & ? & ->)%fmap_Some. exists l.
      split; [done|]. intros _. apply removelast_length_le.
    + rewrite lookup_alter_ne by done. intros ?. by exists l'.
  - unfold abs_transfer. intros H.
    assert (∀ l1, match srcq with
                  | Some a => alter (filter (λ x, x ≠ f)) a L
                  | None => L
                  end !! q = Some l1 →
            ∃ l, L !! q = Some l ∧ length l1 ≤ length l) as Hsrc.
    { intros l1. destruct srcq as [a|]; [|intros ?; by exists l1].
      destruct (decide (a = q)) as [->|Hne].
      - rewrite lookup_alter_eq. intros (l & ? & ->)%fmap_Some. exists l.
        split; [done|]. apply length_filter.
      - rewrite lookup_alter_ne by done. intros ?. by exists l1. }
    destruct (decide (b = q)) as [->|Hne].
    + rewrite lookup_alter_eq in H. apply fmap_Some in H as (l1 & H1 & ->).
      destruct (Hsrc _ H1) as (l & Hl & _). exists l. split; [done|]. by intros [].
    + rewrite lookup_alter_ne in H by done.
      destruct (Hsrc _ H) as (l & Hl & Hle). exists l. split; [done|]. done.
Qed.

(** X8. In a [DBG_PERF] build [dbg_maxlen] is a high-water mark: if no
    [len] exceeds its queue's [dbg_maxlen] (and no queue holds 2^32 records
    or more), then after any operation called under its precondition no
    [len] exceeds its queue's [dbg_maxlen] either, and no [dbg_maxlen] has
    gone down. *)
Theorem maxlen_is_high_water_mark cfg m L o :
  state_rep m L → op_pre m L o → bounded L → dbg_perf cfg = true →
  (∀ q qv, queues m !! q = Some qv → (len qv ≤ dbg_maxlen qv)%Z) →
  ∃ r m',
    run_op cfg o m = Done r m'
    ∧ ∀ q qv', queues m' !! q = Some qv' →
      (len qv' ≤ dbg_maxlen qv')%Z
      ∧ ∃ qv, queues m !! q = Some qv ∧ (dbg_maxlen qv ≤ dbg_maxlen qv')%Z.
Proof.
  intros Hrep Hpre Hb Hperf Hinv.
  destruct (run_op_rep cfg m L o Hrep Hpre) as (r & m' & E & Hrep').
  exists r, m'. split; [done|]. intros q qv' Hq.
  destruct (run_op_maxlen _ _ _ _ _ E q qv' Hq) as (qv & Hqv & Hmx).
  unfold high_water in Hmx. rewrite Hperf in Hmx. cbn [andb] in Hmx.
  specialize (Hinv _ _ Hqv).
  destruct (bool_decide_reflect (grown o = Some q)) as [Hg|Hg].
  - destruct (Z.ltb_spec (dbg_maxlen qv) (len qv')).
    + split; [lia|]. exists qv. split; [done|]. lia.
    + split; [lia|]. exists qv. split; [done|]. lia.
  - destruct (rep_queues _ _ Hrep' _ _ Hq) as (l' & Hl' & Hr').
    destruct (abs_op_length _ _ _ _ Hl') as (l & Hl & Hle).
    specialize (Hle Hg).
    destruct (rep_queues _ _ Hrep _ _ Hqv) as (l2 & Hl2 & Hr).
    assert (l2 = l) as -> by congruence.
    pose proof (Hb _ _ Hl) as Hlt.
    pose proof (rep_len _ _ _ Hr) as Hlen. pose proof (rep_len _ _ _ Hr') as Hlen'.
    unfold wrap32, wrap in Hlen, Hlen'.
    rewrite Z.mod_small in Hlen by lia. rewrite Z.mod_small in Hlen' by lia.
    split; [lia|]. exists qv. split; [done|]. lia.
Qed.

Lemma maxlen_is_high_water_mark_witness :
  ∃ r m',
    run_op (mkBuild false false true) (Insert 1%positive 1%positive) ex_mem0
      = Done r m'
    ∧ ∀ q qv', queues m' !! q = Some qv' →
      (len qv' ≤ dbg_maxlen qv')%Z
      ∧ ∃ qv, queues ex_mem0 !! q = Some qv ∧ (dbg_maxlen qv ≤ dbg_maxlen qv')%Z.
Proof.
  apply (maxlen_is_high_water_mark (mkBuild false false true) ex_mem0 ex_L0
           (Insert 1%positive 1%positive)).
  - apply ex_state_rep0.
  - split; [by eexists|]. split; [reflexivity|].
    intros q l ->%ex_L0_lookup. apply not_elem_of_nil.
  - intros q l ->%ex_L0_lookup. done.
  - reflexivity.
  - intros q. pattern q. apply ex_queues_cases; clear q.
    + by intros qv [= <-].
    + by intros qv [= <-].
    + intros q ? ? qv. unfold ex_mem0. cbn [queues].
      by rewrite !lookup_insert_ne, lookup_empty.
Defined.

(** ** The ERF file reader *)

Module ErfFacts.
Import Erf.
Local Open Scope Z_scope.

Lemma fraction_range ts0 : 0 ≤ Z.land ts0 0xffffffff < 2 ^ 32.
Proof.
  change 0xffffffff with (Z.ones 32). rewrite Z.land_ones by lia.
  apply Z.mod_pos_bound. lia.
Qed.

Lemma rounded_usec ts0 :
  Z.shiftr (wrap64 (wrap64 (Z.land ts0 0xffffffff * 1000000) + 0x80000000)) 32
  = (Z.land ts0 0xffffffff * 1000000 + 2 ^ 31) / 2 ^ 32.
Proof.
  pose proof (fraction_range ts0) as Hf.
  unfold wrap64, wrap.
  rewrite (Z.mod_small (_ * _)) by lia.
  rewrite Z.mod_small by lia.
  by rewrite Z.shiftr_div_pow2 by lia.
Qed.

(** C10. ERF timestamp conversion bound: whatever the 64-bit timestamp,
    the microseconds of the [timeval] computed from it are in
    [0, 1000000). *)
Theorem usec_in_range ts0 : 0 ≤ tv_usec (erf_timeval ts0) < 1000000.
Proof.
  unfold erf_timeval. rewrite rounded_usec.
  pose proof (fraction_range ts0) as Hf.
  set (u := (Z.land ts0 0xffffffff * 1000000 + 2 ^ 31) / 2 ^ 32).
  assert (0 ≤ u ≤ 1000000) as Hu.
  { unfold u. split.
    - apply Z.div_pos; lia.
    - apply Z.lt_succ_r, Z.div_lt_upper_bound; lia. }
  destruct (1000000 <=? u) eqn:E; cbn [tv_usec].
  - apply Z.leb_le in E. lia.
  - apply Z.leb_gt in E. lia.
Qed.

(** The carry keeps the instant: seconds and microseconds together are
    the rounded value of the 32.32 fixed-point timestamp. *)
Lemma timeval_value ts0 :
  0 ≤ ts0 < 2 ^ 64 →
  tv_sec (erf_timeval ts0) * 1000000 + tv_usec (erf_timeval ts0)
  = (ts0 / 2 ^ 32) * 1000000
    + ((ts0 mod 2 ^ 32) * 1000000 + 2 ^ 31) / 2 ^ 32.
Proof.
  intros Hts. unfold erf_timeval. rewrite rounded_usec.
  change 0xffffffff with (Z.ones 32). rewrite Z.land_ones by lia.
  rewrite Z.shiftr_div_pow2 by lia.
  destruct (_ <=? _); cbn [tv_sec tv_usec]; lia.
Qed.

(** What [ReceiveErfFile] returns in each of its three cases. *)
Lemma receive_stopped s :
  header_read s && payload_read s = false →
  (ReceiveErfFile s).1 = TM_ECODE_FAILED
  ∧ engine_stop (ReceiveErfFile s).2 = true
  ∧ pktlen (pkt (ReceiveErfFile s).2) = pktlen (pkt s)
  ∧ pkt_ts (pkt (ReceiveErfFile s).2) = pkt_ts (pkt s).
Proof.
  unfold header_read, payload_read, header_of, ReceiveErfFile.
  destruct (fread sizeof_DagRecord (erf s)) as [[r hdr] f1]. cbn [fst snd].
  destruct (r <? 1); [done|]. cbn [negb andb].
  destruct (fread _ f1) as [[r2 data] f2]. cbn [fst snd].
  by destruct (r2 <? 1).
Qed.

Lemma receive_unsupported s :
  header_read s && payload_read s = true → supported s = false →
  (ReceiveErfFile s).1 = TM_ECODE_FAILED
  ∧ engine_stop (ReceiveErfFile s).2 = engine_stop s
  ∧ pktlen (pkt (ReceiveErfFile s).2) = pktlen (pkt s)
  ∧ pkt_ts (pkt (ReceiveErfFile s).2) = pkt_ts (pkt s).
Proof.
  unfold header_read, payload_read, supported, header_of, ReceiveErfFile.
  destruct (fread sizeof_DagRecord (erf s)) as [[r hdr] f1]. cbn [fst snd].
  destruct (r <? 1); [done|]. cbn [negb andb].
  destruct (fread _ f1) as [[r2 data] f2]. cbn [fst snd].
  destruct (r2 <? 1); [done|]. intros _ ->. done.
Qed.

Lemma receive_frame s :
  header_read s && payload_read s = true → supported s = true →
  (ReceiveErfFile s).1 = TM_ECODE_OK
  ∧ engine_stop (ReceiveErfFile s).2 = engine_stop s
  ∧ pktlen (pkt (ReceiveErfFile s).2) = wrap32 (ntohs (wlen (header_of s)) - 4)
  ∧ pkt_ts (pkt (ReceiveErfFile s).2) = erf_timeval (ts (header_of s))
  ∧ datalink (pkt (ReceiveErfFile s).2) = LINKTYPE_ETHERNET.
Proof.
  unfold header_read, payload_read, supported, header_of, ReceiveErfFile.
  destruct (fread sizeof_DagRecord (erf s)) as [[r hdr] f1]. cbn [fst snd].
  destruct (r <? 1); [done|]. cbn [negb andb].
  destruct (fread _ f1) as [[r2 data] f2]. cbn [fst snd].
  destruct (r2 <? 1); [done|]. intros _ ->. done.
Qed.

(** The claim as the specification words it fails: a whole record that is
    not an Ethernet record is neither a frame, nor the end of the stream,
    nor a read error. *)
Lemma unsupported_record_is_a_fourth_outcome :
  ¬ (∀ s, listed_outcome s).
Proof.
  intros H. destruct (H (ex_state x01)) as [E|[_ E]]; vm_compute in E;
    discriminate.
Qed.

(** C9 (amended). Packet-source outcome set: every call of the reader
    ends in exactly one of three ways, fixed by its input.  When a read
    returns no whole item (end of file and read error alike) it asks the
    engine to stop and fails; when a whole record is not an Ethernet
    record it fails without asking the engine to stop; otherwise it
    succeeds with the length and the timestamp of the packet set from the
    record.  The failures leave the packet's length and timestamp alone. *)
Theorem receive_outcomes s :
  match outcome_of s with
  | ReadStopped =>
      (ReceiveErfFile s).1 = TM_ECODE_FAILED
      ∧ engine_stop (ReceiveErfFile s).2 = true
      ∧ pktlen (pkt (ReceiveErfFile s).2) = pktlen (pkt s)
      ∧ pkt_ts (pkt (ReceiveErfFile s).2) = pkt_ts (pkt s)
  | RecordUnsupported =>
      (ReceiveErfFile s).1 = TM_ECODE_FAILED
      ∧ engine_stop (ReceiveErfFile s).2 = engine_stop s
      ∧ pktlen (pkt (ReceiveErfFile s).2) = pktlen (pkt s)
      ∧ pkt_ts (pkt (ReceiveErfFile s).2) = pkt_ts (pkt s)
  | FrameDelivered =>
      (ReceiveErfFile s).1 = TM_ECODE_OK
      ∧ engine_stop (ReceiveErfFile s).2 = engine_stop s
      ∧ pktlen (pkt (ReceiveErfFile s).2)
        = wrap32 (ntohs (wlen (header_of s)) - 4)
      ∧ pkt_ts (pkt (ReceiveErfFile s).2) = erf_timeval (ts (header_of s))
      ∧ datalink (pkt (ReceiveErfFile s).2) = LINKTYPE_ETHERNET
  end.
Proof.
  unfold outcome_of.
  destruct (header_read s && payload_read s) eqn:Hr; cbn [negb].
  - destruct (supported s) eqn:Hs.
    + by apply receive_frame.
    + by apply receive_unsupported.
  - by apply receive_stopped.
Qed.

Example receive_ethernet_record :
  (ReceiveErfFile (ex_state x02)).1 = TM_ECODE_OK
  ∧ pktlen (pkt (ReceiveErfFile (ex_state x02)).2) = 60
  ∧ pkt_ts (pkt (ReceiveErfFile (ex_state x02)).2) = mkTimeval 1 500000.
Proof. by vm_compute. Qed.

Example receive_other_record :
  outcome_of (ex_state x01) = RecordUnsupported
  ∧ (ReceiveErfFile (ex_state x01)).1 = TM_ECODE_FAILED
  ∧ engine_stop (ReceiveErfFile (ex_state x01)).2 = false.
Proof. by vm_compute. Qed.

(** ** Reading records off a file *)

Lemma fread_whole n (bs rest : list byte) :
  bs ≠ [] → n = Z.of_nat (length bs) →
  fread n (mkFILE (bs ++ rest) false) = (1, bs, mkFILE rest false).
Proof.
  intros Hne ->. unfold fread. cbn [ferr fbytes].
  destruct bs as [|b bs]; [done|].
  replace (Z.of_nat (length (b :: bs)) =? 0) with false
    by (symmetry; apply Z.eqb_neq; cbn [length]; lia).
  replace (Z.of_nat (length (b :: bs)) <=? Z.of_nat (length ((b :: bs) ++ rest)))
    with true by (symmetry; apply Z.leb_le; rewrite length_app; lia).
  rewrite Nat2Z.id. by rewrite take_app_length, drop_app_length.
Qed.

Lemma receive_record s hdr payload rest :
  erf s = mkFILE (hdr ++ payload ++ rest) false → record_ok hdr payload →
  ReceiveErfFile s =
    (TM_ECODE_OK,
     mkErfState (mkFILE rest false) (wrap32 (pkts s + 1))
       (wrap64 (bytes s + ntohs (wlen (DagRecord_of_bytes hdr))))
       (packet_of hdr payload) (engine_stop s)).
Proof.
  intros Hf (Hlen & Hne & Hrlen & Hty). unfold ReceiveErfFile. rewrite Hf.
  rewrite (fread_whole sizeof_DagRecord hdr (payload ++ rest)).
  - cbn [Z.ltb Z.compare]. rewrite Hrlen.
    replace (wrap64 (18 + Z.of_nat (length payload) - sizeof_DagRecord))
      with (Z.of_nat (length payload)).
    + rewrite (fread_whole _ payload rest Hne eq_refl). cbn [Z.ltb Z.compare].
      rewrite Hty. done.
    + unfold sizeof_DagRecord, wrap64, wrap. rewrite Z.mod_small; [lia|].
      assert (ntohs (rlen (DagRecord_of_bytes hdr)) < 65536).
      { unfold ntohs.
        pose proof (Z.mod_pos_bound (rlen (DagRecord_of_bytes hdr)) 256).
        pose proof (Z.mod_pos_bound (rlen (DagRecord_of_bytes hdr) / 256) 256).
        lia. }
      lia.
  - intros ->. done.
  - by rewrite Hlen.
Qed.

Lemma wrap_add_l w a b : wrap w (wrap w a + b) = wrap w (a + b).
Proof. unfold wrap. by rewrite Zplus_mod_idemp_l. Qed.

Lemma receive_n_records rs : ∀ s rest,
  erf s = mkFILE (file_of rs ++ rest) false →
  Forall (λ r, record_ok r.1 r.2) rs →
  0 ≤ pkts s < 2 ^ 32 → 0 ≤ bytes s < 2 ^ 64 →
  receive_n (length rs) s =
    (map (λ r, (TM_ECODE_OK, packet_of r.1 r.2)) rs,
     mkErfState (mkFILE rest false)
       (wrap32 (pkts s + Z.of_nat (length rs)))
       (wrap64 (bytes s + wire_bytes rs))
       (foldl (λ _ r, packet_of r.1 r.2) (pkt s) rs)
       (engine_stop s)).
Proof.
  induction rs as [|[h p] rs IH]; intros s rest Hf Hok Hp Hb.
  - cbn. unfold wrap32, wrap64, wrap. rewrite !Z.add_0_r, !Z.mod_small by lia.
    destruct s as [f ? ? ? ?]. cbn in *. by rewrite Hf.
  - apply Forall_cons in Hok as [Hr Hok]. cbn [fst snd] in Hr.
    cbn [file_of map concat fst snd] in Hf. fold (file_of rs) in Hf.
    rewrite <- !app_assoc in Hf.
    cbn [length receive_n].
    rewrite (receive_record s h p (file_of rs ++ rest) Hf Hr).
    match goal with |- context [receive_n _ ?s1] =>
      rewrite (IH s1 rest eq_refl Hok)
    end.
    + cbn [map foldl fst snd pkt pkts bytes engine_stop wire_bytes foldr].
      fold (wire_bytes rs). unfold wrap32, wrap64. rewrite !wrap_add_l.
      replace (pkts s + 1 + Z.of_nat (length rs))
        with (pkts s + Z.of_nat (S (length rs))) by lia.
      by rewrite Z.add_assoc.
    + cbn [pkts]. apply Z.mod_pos_bound. lia.
    + cbn [bytes]. apply Z.mod_pos_bound. lia.
Qed.

Lemma fread_short n (bs : list byte) :
  Z.of_nat (length bs) < n →
  (fread n (mkFILE bs false)).1.1 = 0 ∧ (fread n (mkFILE bs false)).2 = mkFILE [] false.
Proof.
  intros Hlt. unfold fread. cbn [ferr fbytes].
  destruct (Z.eqb_spec n 0); [lia|].
  destruct (Z.leb_spec n (Z.of_nat (length bs))); [lia|]. done.
Qed.

Lemma receive_short s bs :
  erf s = mkFILE bs false → Z.of_nat (length bs) < 18 →
  (ReceiveErfFile s).1 = TM_ECODE_FAILED
  ∧ engine_stop (ReceiveErfFile s).2 = true
  ∧ pkts (ReceiveErfFile s).2 = pkts s
  ∧ bytes (ReceiveErfFile s).2 = bytes s
  ∧ pkt (ReceiveErfFile s).2 = pkt s.
Proof.
  intros Hf Hlt. unfold ReceiveErfFile. rewrite Hf.
  destruct (fread_short sizeof_DagRecord bs Hlt) as [H1 H2].
  destruct (fread sizeof_DagRecord _) as [[r hdr] f1]. cbn [fst snd] in *.
  subst r. done.
Qed.

Lemma receive_n_snoc n : ∀ s,
  receive_n (S n) s =
    ((receive_n n s).1
       ++ [((ReceiveErfFile (receive_n n s).2).1,
            pkt (ReceiveErfFile (receive_n n s).2).2)],
     (ReceiveErfFile (receive_n n s).2).2).
Proof.
  induction n as [|n IH]; intros s.
  - cbn. by destruct (ReceiveErfFile s).
  - change (receive_n (S (S n)) s) with
      (let '(r, s1) := ReceiveErfFile s in
       let '(rs, s2) := receive_n (S n) s1 in ((r, pkt s1) :: rs, s2)).
    destruct (ReceiveErfFile s) as [r s1] eqn:E.
    rewrite IH. cbn [receive_n]. rewrite E.
    by destruct (receive_n n s1).
Qed.

(** X9. Records come off the file in order: when the unread part of the
    file starts with well-formed Ethernet records, as many calls of the
    reader as there are records all succeed, the packet of each call holds
    the payload, the trimmed wire length and the timestamp of its record,
    the stream is left at the first byte after the last record, the packet
    counter has gone up by the number of records and the byte counter by
    the sum of their wire lengths (both wrapping), and the engine was not
    asked to stop. *)
Theorem records_in_order s rs rest :
  erf s = mkFILE (file_of rs ++ rest) false →
  Forall (λ r, record_ok r.1 r.2) rs →
  0 ≤ pkts s < 2 ^ 32 → 0 ≤ bytes s < 2 ^ 64 →
  (receive_n (length rs) s).1
    = map (λ r, (TM_ECODE_OK, packet_of r.1 r.2)) rs
  ∧ erf (receive_n (length rs) s).2 = mkFILE rest false
  ∧ pkts (receive_n (length rs) s).2 = wrap32 (pkts s + Z.of_nat (length rs))
  ∧ bytes (receive_n (length rs) s).2 = wrap64 (bytes s + wire_bytes rs)
  ∧ engine_stop (receive_n (length rs) s).2 = engine_stop s.
Proof.
  intros Hf Hok Hp Hb. by rewrite (receive_n_records rs s rest Hf Hok Hp Hb).
Qed.

Lemma ex_records_ok : Forall (λ r, record_ok r.1 r.2) ex_records.
Proof.
  assert (record_ok (take 18 (ex_record x02)) (drop 18 (ex_record x02))) as H.
  { repeat split; try reflexivity. discriminate. }
  unfold ex_records. repeat (constructor; [exact H|]). constructor.
Qed.

Lemma records_in_order_witness :
  (receive_n 2 (ex_state x02)).1
    = map (λ r, (TM_ECODE_OK, packet_of r.1 r.2)) ex_records
  ∧ erf (receive_n 2 (ex_state x02)).2 = mkFILE [] false
  ∧ pkts (receive_n 2 (ex_state x02)).2 = 2
  ∧ bytes (receive_n 2 (ex_state x02)).2 = 128
  ∧ engine_stop (receive_n 2 (ex_state x02)).2 = false.
Proof.
  apply (records_in_order (ex_state x02) ex_records []).
  - reflexivity.
  - apply ex_records_ok.
  - cbn. lia.
  - cbn. lia.
Defined.

(** X10. The end of the file: when the file holds well-formed Ethernet
    records and then fewer bytes than a record header, the call after the
    last record fails and asks the engine to stop, and the counters stay
    at the number of records and the sum of their wire lengths. *)
Theorem stop_after_last_record s rs rest :
  erf s = mkFILE (file_of rs ++ rest) false →
  Forall (λ r, record_ok r.1 r.2) rs →
  0 ≤ pkts s < 2 ^ 32 → 0 ≤ bytes s < 2 ^ 64 →
  (length rest < 18)%nat →
  (receive_n (S (length rs)) s).1.*1
    = replicate (length rs) TM_ECODE_OK ++ [TM_ECODE_FAILED]
  ∧ engine_stop (receive_n (S (length rs)) s).2 = true
  ∧ pkts (receive_n (S (length rs)) s).2 = wrap32 (pkts s + Z.of_nat (length rs))
  ∧ bytes (receive_n (S (length rs)) s).2 = wrap64 (bytes s + wire_bytes rs).
Proof.
  intros Hf Hok Hp Hb Hrest. rewrite receive_n_snoc.
  rewrite (receive_n_records rs s rest Hf Hok Hp Hb). cbn [fst snd].
  match goal with |- context [ReceiveErfFile ?s1] =>
    destruct (receive_short s1 rest eq_refl ltac:(lia)) as (E & Hs & Hpk & Hby & _)
  end.
  rewrite E, Hs, Hpk, Hby. split; [|done].
  rewrite fmap_app. f_equal. clear. induction rs as [|r rs IH]; [done|].
  cbn. by rewrite IH.
Qed.

Lemma stop_after_last_record_witness :
  (receive_n 3 (ex_state x02)).1.*1
    = [TM_ECODE_OK; TM_ECODE_OK; TM_ECODE_FAILED]
  ∧ engine_stop (receive_n 3 (ex_state x02)).2 = true
  ∧ pkts (receive_n 3 (ex_state x02)).2 = 2
  ∧ bytes (receive_n 3 (ex_state x02)).2 = 128.
Proof.
  apply (stop_after_last_record (ex_state x02) ex_records []).
  - reflexivity.
  - apply ex_records_ok.
  - cbn. lia.
  - cbn. lia.
  - cbn. lia.
Defined.

(** X11. A record without payload ends the reading: when the header read
    says that the record is as long as its header, nothing more is read,
    the call fails and asks the engine to stop, whatever the type of the
    record and whatever follows it in the file, and the counters keep
    their values. *)
Theorem empty_record_stops s hdr rest :
  erf s = mkFILE (hdr ++ rest) false → length hdr = 18%nat →
  ntohs (rlen (DagRecord_of_bytes hdr)) = 18 →
  (ReceiveErfFile s).1 = TM_ECODE_FAILED
  ∧ engine_stop (ReceiveErfFile s).2 = true
  ∧ erf (ReceiveErfFile s).2 = mkFILE rest false
  ∧ pkts (ReceiveErfFile s).2 = pkts s
  ∧ bytes (ReceiveErfFile s).2 = bytes s.
Proof.
  intros Hf Hlen Hrlen. unfold ReceiveErfFile. rewrite Hf.
  rewrite (fread_whole sizeof_DagRecord hdr rest).
  - cbn [Z.ltb Z.compare]. rewrite Hrlen. done.
  - intros ->. done.
  - by rewrite Hlen.
Qed.

Lemma empty_record_stops_witness :
  (ReceiveErfFile ex_state_empty).1 = TM_ECODE_FAILED
  ∧ engine_stop (ReceiveErfFile ex_state_empty).2 = true
  ∧ erf (ReceiveErfFile ex_state_empty).2 = mkFILE (ex_record x02) false
  ∧ pkts (ReceiveErfFile ex_state_empty).2 = 0
  ∧ bytes (ReceiveErfFile ex_state_empty).2 = 0.
Proof.
  apply (empty_record_stops ex_state_empty ex_empty_record (ex_record x02));
    reflexivity.
Defined.

Lemma micros_closed ts0 :
  micros (erf_timeval ts0) = (ts0 * 1000000 + 2 ^ 31) / 2 ^ 32.
Proof.
  assert ((ts0 * 1000000 + 2 ^ 31) / 2 ^ 32
          = ts0 / 2 ^ 32 * 1000000
            + (ts0 mod 2 ^ 32 * 1000000 + 2 ^ 31) / 2 ^ 32) as ->.
  { rewrite <- Z.div_add_l by lia. f_equal.
    pose proof (Z.div_mod ts0 (2 ^ 32) ltac:(lia)). lia. }
  unfold micros, erf_timeval. rewrite rounded_usec.
  change 0xffffffff with (Z.ones 32). rewrite Z.land_ones by lia.
  rewrite Z.shiftr_div_pow2 by lia.
  destruct (_ <=? _); cbn [tv_sec tv_usec]; lia.
Qed.

(** X12. The time of a packet is the time of its record rounded to the
    nearest microsecond: seconds and microseconds together are the 32.32
    fixed-point timestamp scaled by 10^6 / 2^32 and rounded half up, so
    they differ from it by no more than half a microsecond. *)
Theorem timeval_is_nearest_microsecond ts0 :
  micros (erf_timeval ts0) = (ts0 * 1000000 + 2 ^ 31) / 2 ^ 32
  ∧ - 2 ^ 31 < micros (erf_timeval ts0) * 2 ^ 32 - ts0 * 1000000 ≤ 2 ^ 31.
Proof.
  rewrite micros_closed. split; [done|].
  pose proof (Z.div_mod (ts0 * 1000000 + 2 ^ 31) (2 ^ 32) ltac:(lia)).
  pose proof (Z.mod_pos_bound (ts0 * 1000000 + 2 ^ 31) (2 ^ 32) ltac:(lia)).
  lia.
Qed.

(** X13. The conversion keeps the order of time: a record stamped no
    earlier than another gets a time no earlier. *)
Theorem timeval_monotone ts0 ts1 :
  ts0 ≤ ts1 → micros (erf_timeval ts0) ≤ micros (erf_timeval ts1).
Proof.
  intros Hle. rewrite !micros_closed. apply Z.div_le_mono; lia.
Qed.

Lemma timeval_monotone_witness :
  micros (erf_timeval 0x00000001ffffffff) ≤ micros (erf_timeval 0x0000000200000000).
Proof.
  apply (timeval_monotone 0x00000001ffffffff 0x0000000200000000). lia.
Defined.

(** ** Opening the file *)

(** X14. Opening and then reading: when the named file opens, memory is
    left and the file starts with well-formed Ethernet records, the
    initialisation succeeds with one more stream open, and as many calls
    of the reader as there are records, on the variables it has set up,
    deliver the records in order and leave the packet counter at their
    number and the byte counter at the sum of their wire lengths. *)
Theorem init_then_read tv name data w rs rest p stop :
  files w name = Some (file_of rs ++ rest) → memory_left w = true →
  Forall (λ r, record_ok r.1 r.2) rs →
  ∃ etv w',
    ReceiveErfFileThreadInit tv (Some name) data w
      = InitReturn TM_ECODE_OK (Some etv) w'
    ∧ streams w' = S (streams w)
    ∧ (receive_n (length rs) (thread_state etv p stop)).1
        = map (λ r, (TM_ECODE_OK, packet_of r.1 r.2)) rs
    ∧ pkts (receive_n (length rs) (thread_state etv p stop)).2
        = wrap32 (Z.of_nat (length rs))
    ∧ bytes (receive_n (length rs) (thread_state etv p stop)).2
        = wrap64 (wire_bytes rs).
Proof.
  intros Hfile Hmem Hok. unfold ReceiveErfFileThreadInit, fopen.
  rewrite Hfile. cbn [memory_left]. rewrite Hmem.
  eexists _, _. split; [done|]. split; [done|].
  rewrite (receive_n_records rs
             (thread_state (mkErfFileThreadVars
                              (mkFILE (file_of rs ++ rest) false) tv 0 0) p stop)
             rest eq_refl Hok); cbn; [done|lia|lia].
Qed.

Lemma init_then_read_witness :
  ∃ etv w',
    ReceiveErfFileThreadInit 0 (Some [x61]) None ex_world
      = InitReturn TM_ECODE_OK (Some etv) w'
    ∧ streams w' = 1%nat
    ∧ (receive_n 2 (thread_state etv (mkPacket [] 0 0 (mkTimeval 0 0)) false)).1
        = map (λ r, (TM_ECODE_OK, packet_of r.1 r.2)) ex_records
    ∧ pkts (receive_n 2 (thread_state etv (mkPacket [] 0 0 (mkTimeval 0 0)) false)).2
        = 2
    ∧ bytes (receive_n 2 (thread_state etv (mkPacket [] 0 0 (mkTimeval 0 0)) false)).2
        = 128.
Proof.
  apply (init_then_read 0 [x61] None ex_world ex_records []).
  - reflexivity.
  - reflexivity.
  - apply ex_records_ok.
Defined.

(** X15. How the initialisation ends: without a file name it fails; with
    the name of a file that cannot be opened it does not return but ends
    the process with [EXIT_FAILURE]; when the file opens and no memory is
    left it fails with the stream closed again.  Each failure leaves
    [*data] and the number of open streams as they were; success stores
    variables with the stream at the first byte of the file and both
    counters at zero, and never is the code [TM_ECODE_DONE]. *)
Theorem init_outcomes tv initdata data w :
  match ReceiveErfFileThreadInit tv initdata data w with
  | InitExit status =>
      status = EXIT_FAILURE
      ∧ ∃ name, initdata = Some name ∧ files w name = None
  | InitReturn TM_ECODE_FAILED data' w' =>
      data' = data ∧ streams w' = streams w
      ∧ (initdata = None
         ∨ ∃ name, initdata = Some name ∧ is_Some (files w name)
                   ∧ memory_left w = false)
  | InitReturn TM_ECODE_OK data' w' =>
      ∃ name content,
        initdata = Some name ∧ files w name = Some content
        ∧ memory_left w = true
        ∧ data' = Some (mkErfFileThreadVars (mkFILE content false) tv 0 0)
        ∧ streams w' = S (streams w)
  | InitReturn TM_ECODE_DONE _ _ => False
  end.
Proof.
  unfold ReceiveErfFileThreadInit, fopen.
  destruct initdata as [name|]; [|by auto].
  destruct (files w name) as [content|] eqn:Hfile; [|by eauto].
  cbn [memory_left]. destruct (memory_left w) eqn:Hmem.
  - by exists name, content.
  - cbn. split; [done|]. split; [done|]. right. exists name. by rewrite Hfile.
Qed.

End ErfFacts.
